(** * Request coalescing (single flight): [SharedCall] and [AsyncSharedCall]

    A shallow embedding of [src/_sync.py] (and of [src/_async.py], which is
    the same algorithm with [await] at the lock, at the work function and at
    the completion event) as an interleaving transition system.  Line
    numbers are those of [src/_sync.py].

    - One _invocation_ of a public method is one thread of the system.  A
      thread is named by its index in the pool of invocations.
    - Every [with self.lock:] block is one atomic transition: the lock
      serialises the blocks.
    - Every other statement of [call] that touches shared state is a
      transition of its own: [event.set()] (line 57), [event.wait()] (line
      59, enabled only once the event is set) and [result.unwrap()] (line
      60).
    - [self.stats.errors += 1] (line 52) stands outside the lock.  It loads
      the object [self.stats], loads its [errors], adds 1 and stores the sum
      into that same object: a read and a write, and other threads can run
      between the two.  The invocation of the work function and the store of
      its outcome in the leader's own [SyncCall] (lines 49-51) touch nothing
      that another thread reads before the event is set, so they form one
      transition with the read of line 52 that follows them when the
      [except] clause runs; the write of line 52 is a transition of its own.
    - A work function returns a value or raises, and does not call back
      into the coordinator.  [except Exception] (line 50) catches the
      exceptions that are instances of [Exception]; any other exception
      ([KeyboardInterrupt], [SystemExit], ...) passes it: nothing is stored,
      nothing is counted, the [finally] clause runs and the exception leaves
      [call].
    - A schedule is a list of thread indices; scheduling a thread that is
      blocked or has returned leaves the system as it is.

    The cooperative variant runs a subset of these interleavings (tasks
    switch at [await] only), so every invariant below holds for it too. *)

From stdpp Require Import gmap strings list fin_maps.
From Stdlib Require Import ZArith Lia.

(** ** Data model *)

(** Modelled from the spec: [Stats] of the missing [src/_core.py], "four
    counters (hits, misses, errors, in-flight)", all zero when constructed. *)
Module Stats.

Record t : Type := Build
  { hits : Z; misses : Z; errors : Z; in_flight : Z }.

(** [Stats()] *)
Definition new : t :=
  {| hits := 0; misses := 0; errors := 0; in_flight := 0 |}%Z.

End Stats.

(** The exception objects that are instances of [Exception], which is
    what [except Exception] (line 50) catches.  [KeyboardInterrupt],
    [SystemExit], [GeneratorExit] and, for a task, [CancelledError] are
    exceptions that are not. *)
Class Exceptions (E : Type) : Type := is_exception : E -> bool.
Global Hint Mode Exceptions ! : typeclass_instances.

(** What a Python call does: return a value or raise an exception. *)
Inductive completion (V E : Type) : Type :=
| Returns (v : V)
| Raises (e : E).
Arguments Returns {V E} v.
Arguments Raises {V E} e.

(** Modelled from the spec: [Result] of the missing [src/_core.py], a
    "tagged union over {unset, success(value), failure(error)}".  A failure
    holds the exception _object_: [inst] names the invocation that raised it,
    so two failures with one [inst] are one instance. *)
Inductive Result (V E : Type) : Type :=
| Unset
| Success (value : V)
| Failure (inst : nat) (error : E).
Arguments Unset {V E}.
Arguments Success {V E} value.
Arguments Failure {V E} inst error.

(** What an invocation hands back to its caller. *)
Inductive outcome (V E : Type) : Type :=
| Returned (v : V)                  (* [call] returned [v] *)
| Raised (inst : nat) (e : E)       (* [call] raised the exception object *)
| LogicError                        (* [unwrap] of an unset [Result] *)
| Snapshot (st : Stats.t)           (* [get_stats] *)
| NoValue.                          (* [reset_stats], [forget], [forget_all] *)
Arguments Returned {V E} v.
Arguments Raised {V E} inst e.
Arguments LogicError {V E}.
Arguments Snapshot {V E} st.
Arguments NoValue {V E}.

(** Modelled from the spec: [Result.unwrap] of the missing [src/_core.py]:
    "if success, return the value; if failure, re-raise/propagate the same
    error object"; reading an unset result is a programming-logic error. *)
Definition unwrap {V E} (r : Result V E) : outcome V E :=
  match r with
  | Unset => LogicError
  | Success v => Returned v
  | Failure inst e => Raised inst e
  end.

(** [SyncCall] / [AsyncCall]: the record of one in-flight call. *)
Record SyncCall (V E : Type) : Type := MkCall
  { result : Result V E; event : bool }.
Arguments MkCall {V E} result event.
Arguments result {V E} _.
Arguments event {V E} _.

(** [SharedCall] / [AsyncSharedCall].  [in_flight] maps a key to a
    _reference_ to a [SyncCall]; the objects live in the heap of the system.
    [self.stats] is a reference to a [Stats] object: [stats] is what that
    object holds, [stats_id] which object it is ([None] for the one that
    [__init__] made, [Some r] for the one that the invocation [r] of
    [reset_stats] made).  The lock is not a field: its blocks are atomic
    transitions. *)
Record SharedCall : Type := MkShared
  { in_flight : gmap string nat; stats : Stats.t; stats_id : option nat }.

(** A work function: what [fn.__module__] and [fn.__name__] read, and what
    [fn(args)] does.  The work function must not call back into
    the coordinator (spec, section 9). *)
Record Fn (A V E : Type) : Type := MkFn
  { fn_module : string; fn_name : string; fn_body : A -> completion V E }.
Arguments MkFn {A V E} fn_module fn_name fn_body.
Arguments fn_module {A V E} _.
Arguments fn_name {A V E} _.
Arguments fn_body {A V E} _ _.

(** The public methods, with their arguments. *)
Inductive op (A V E : Type) : Type :=
| OpCall (key : option string) (fn : Fn A V E) (args : A)
| OpGetStats
| OpResetStats
| OpForget (key : string)
| OpForgetAll.
Arguments OpCall {A V E} key fn args.
Arguments OpGetStats {A V E}.
Arguments OpResetStats {A V E}.
Arguments OpForget {A V E} key.
Arguments OpForgetAll {A V E}.

(** Where an invocation stands, with the local variables that are live
    there ([key], [fn_call], [is_leader] of [call]). *)
Inductive pc (V E : Type) : Type :=
| Enter                                               (* not started; line 32 *)
| AtLock (key : string)                               (* line 35 *)
| AtWork (key : string) (fn_call : nat)               (* line 49, leader *)
| AtErrInc (key : string) (fn_call : nat) (stats_obj : option nat) (errors : Z)
                       (* in line 52, leader: [self.stats.errors] is read *)
| AtFinally (key : string) (fn_call : nat)            (* line 54, leader *)
| AtSet (fn_call : nat)                               (* line 57, leader *)
| AtWait (fn_call : nat) (is_leader : bool)           (* line 59 *)
| AtUnwrap (fn_call : nat) (is_leader : bool)         (* line 60 *)
| CallDone (fn_call : nat) (is_leader : bool) (out : outcome V E)
                                                      (* [call] has returned *)
| Done (out : outcome V E).           (* line 33 raised; another method returned *)
Arguments Enter {V E}.
Arguments AtLock {V E} key.
Arguments AtWork {V E} key fn_call.
Arguments AtErrInc {V E} key fn_call stats_obj errors.
Arguments AtFinally {V E} key fn_call.
Arguments AtSet {V E} fn_call.
Arguments AtWait {V E} fn_call is_leader.
Arguments AtUnwrap {V E} fn_call is_leader.
Arguments CallDone {V E} fn_call is_leader out.
Arguments Done {V E} out.

Record thread (A V E : Type) : Type := MkThread
  { t_op : op A V E; t_pc : pc V E }.
Arguments MkThread {A V E} t_op t_pc.
Arguments t_op {A V E} _.
Arguments t_pc {A V E} _.

(** What the outside world can count: invocations of a work function (the
    [call_count] of the tests) and calls of [event.set()]. *)
Inductive event_log : Type :=
| EvWork (t : nat)        (* thread [t] invoked its work function *)
| EvSet (fn_call : nat).  (* [event.set()] on the call [fn_call] *)

(** The whole system.  A [SyncCall] object is named by the thread that
    constructed it: a thread constructs at most one, so the naming is
    injective, as object identity is. *)
Record world (A V E : Type) : Type := MkWorld
  { self : SharedCall;
    heap : gmap nat (SyncCall V E);
    threads : list (thread A V E);
    trace : list event_log }.
Arguments MkWorld {A V E} self heap threads trace.
Arguments self {A V E} _.
Arguments heap {A V E} _.
Arguments threads {A V E} _.
Arguments trace {A V E} _.

Section Coordinator.

Context {A V E : Type} `{!Exceptions E}.

(** [generate_key(args)] of the missing [src/_core.py]: it
    returns a string or raises (arguments that cannot be serialised). *)
Variable generate_key : A -> completion string E.

Local Abbreviation Fn := (Fn A V E).
Local Abbreviation op := (op A V E).
Local Abbreviation pc := (pc V E).
Local Abbreviation thread := (thread A V E).
Local Abbreviation world := (world A V E).
Local Abbreviation SyncCall := (SyncCall V E).
Local Abbreviation outcome := (outcome V E).

(** ** The method bodies *)

(** Line 32, [if not key:].  [not key] holds for [None] and for the empty
    string. *)
Definition key_is_falsy (key : option string) : bool :=
  match key with
  | None => true
  | Some k => bool_decide (k = "")
  end.

(** Line 33: [f"{fn.__module__}.{fn.__name__}:{generate_key(...)}"]. *)
Definition auto_key (fn : Fn) (fingerprint : string) : string :=
  fn_module fn +:+ "." +:+ fn_name fn +:+ ":" +:+ fingerprint.

(** The right-hand side of line 33; it raises what [generate_key] raises. *)
Definition derive_key (fn : Fn) (args : A) : completion string E :=
  match generate_key args with
  | Returns fingerprint => Returns (auto_key fn fingerprint)
  | Raises e => Raises e
  end.

(** The value of [key] after lines 32-33. *)
Definition resolve_key (key : option string) (fn : Fn) (args : A)
  : completion string E :=
  if key_is_falsy key then derive_key fn args
  else match key with
       | Some k => Returns k
       | None => derive_key fn args
       end.

(** Lines 35-45, the registration block.  [fresh] is the reference of the
    [SyncCall] constructed on line 43.  Returns the coordinator, [fn_call]
    and [is_leader]. *)
Definition register (key : string) (fresh : nat) (sc : SharedCall)
  : SharedCall * nat * bool :=
  match in_flight sc !! key with
  | Some fn_call =>
      (MkShared (in_flight sc)
         (Stats.Build (Stats.hits (stats sc) + 1)%Z (Stats.misses (stats sc))
            (Stats.errors (stats sc)) (Stats.in_flight (stats sc)))
         (stats_id sc),
       fn_call, false)
  | None =>
      (MkShared (<[key := fresh]> (in_flight sc))
         (Stats.Build (Stats.hits (stats sc)) (Stats.misses (stats sc) + 1)%Z
            (Stats.errors (stats sc)) (Stats.in_flight (stats sc) + 1)%Z)
         (stats_id sc),
       fresh, true)
  end.

(** Line 52, [self.stats.errors += 1], the write: the sum is stored into
    the [Stats] object that was loaded, [obj].  When [reset_stats] has
    replaced [self.stats] since, that object is referenced by nobody else,
    and the coordinator is as it was. *)
Definition store_errors (obj : option nat) (errors : Z) (sc : SharedCall)
  : SharedCall :=
  if decide (stats_id sc = obj) then
    MkShared (in_flight sc)
      (Stats.Build (Stats.hits (stats sc)) (Stats.misses (stats sc))
         (errors + 1)%Z (Stats.in_flight (stats sc)))
      (stats_id sc)
  else sc.

(** Lines 54-56: [self.in_flight.pop(key, None); self.stats.in_flight -= 1]. *)
Definition complete (key : string) (sc : SharedCall) : SharedCall :=
  MkShared (delete key (in_flight sc))
    (Stats.Build (Stats.hits (stats sc)) (Stats.misses (stats sc))
       (Stats.errors (stats sc)) (Stats.in_flight (stats sc) - 1)%Z)
    (stats_id sc).

(** [get_stats]: [replace(self.stats)], a copy. *)
Definition get_stats (sc : SharedCall) : Stats.t := stats sc.

(** [reset_stats]: [self.stats = Stats()], a new object, made by the
    invocation [r]. *)
Definition reset_stats (r : nat) (sc : SharedCall) : SharedCall :=
  MkShared (in_flight sc) Stats.new (Some r).

(** [forget]: [self.in_flight.pop(key, None)]. *)
Definition forget (key : string) (sc : SharedCall) : SharedCall :=
  MkShared (delete key (in_flight sc)) (stats sc) (stats_id sc).

(** [forget_all]: [self.in_flight.clear()]. *)
Definition forget_all (sc : SharedCall) : SharedCall :=
  MkShared ∅ (stats sc) (stats_id sc).

(** [SharedCall()] *)
Definition new_shared : SharedCall := MkShared ∅ Stats.new None.

(** The completion of the work function of thread [t] as a [Result]:
    [Result(value=...)] of line 49, [Result(error=e)] of line 51.  Unwrapped,
    it is what the work function did: the value, or the exception object. *)
Definition result_of (t : nat) (c : completion V E) : Result V E :=
  match c with
  | Returns v => Success v
  | Raises e => Failure t e
  end.

(** Line 50: whether the [except] clause runs, and whether an exception
    passes it. *)
Definition caught (c : completion V E) : bool :=
  match c with
  | Returns _ => false
  | Raises e => is_exception e
  end.

Definition escapes (c : completion V E) : bool :=
  match c with
  | Returns _ => false
  | Raises e => negb (is_exception e)
  end.

(** Lines 48-51: what [fn_call.result] holds when the [try] statement is
    left.  Line 49 and line 51 store [result_of]; an exception that passes
    line 50 leaves the result as line 43 made it, unset. *)
Definition stored (t : nat) (c : completion V E) : Result V E :=
  if escapes c then Unset else result_of t c.

(** Where the leader stands after lines 49-51: in line 52, with
    [self.stats] and its [errors] loaded, when the [except] clause runs; at
    the [finally] clause otherwise. *)
Definition after_work (key : string) (fn_call : nat) (sc : SharedCall)
    (c : completion V E) : pc :=
  if caught c then
    AtErrInc key fn_call (stats_id sc) (Stats.errors (stats sc))
  else AtFinally key fn_call.

(** Where the leader stands after [event.set()] (line 57): an exception
    that passed line 50 now leaves [call]; otherwise line 59 is next. *)
Definition after_set (t : nat) (fn_call : nat) (c : completion V E) : pc :=
  match c with
  | Raises e =>
      if is_exception e then AtWait fn_call true
      else CallDone fn_call true (Raised t e)
  | Returns _ => AtWait fn_call true
  end.

(** ** Transitions *)

(** Thread [t] moves to the program point [p]. *)
Definition set_pc (t : nat) (p : pc) (ths : list thread) : list thread :=
  match ths !! t with
  | Some th => <[t := MkThread (t_op th) p]> ths
  | None => ths
  end.

Definition goto (t : nat) (p : pc) (w : world) : world :=
  MkWorld (self w) (heap w) (set_pc t p (threads w)) (trace w).

(** One transition of an invocation of [call] by thread [t], from the
    program point [p].  The [SyncCall] constructed on line 43 is named [t]. *)
Definition step_call (t : nat) (key : option string) (fn : Fn) (args : A)
    (p : pc) (w : world) : world :=
  match p with
  | Enter =>
      match resolve_key key fn args with
      | Returns k => goto t (AtLock k) w
      | Raises e => goto t (Done (Raised t e)) w
      end
  | AtLock k =>
      match register k t (self w) with
      | (sc, fn_call, true) =>
          MkWorld sc (<[fn_call := MkCall Unset false]> (heap w))
            (set_pc t (AtWork k fn_call) (threads w)) (trace w)
      | (sc, fn_call, false) =>
          MkWorld sc (heap w) (set_pc t (AtWait fn_call false) (threads w))
            (trace w)
      end
  | AtWork k fn_call =>
      let r := fn_body fn args in
      MkWorld (self w)
        (<[fn_call := MkCall (stored t r) false]> (heap w))
        (set_pc t (after_work k fn_call (self w) r) (threads w))
        (EvWork t :: trace w)
  | AtErrInc k fn_call obj errors =>
      MkWorld (store_errors obj errors (self w)) (heap w)
        (set_pc t (AtFinally k fn_call) (threads w)) (trace w)
  | AtFinally k fn_call =>
      MkWorld (complete k (self w)) (heap w)
        (set_pc t (AtSet fn_call) (threads w)) (trace w)
  | AtSet fn_call =>
      match heap w !! fn_call with
      | Some c =>
          MkWorld (self w) (<[fn_call := MkCall (result c) true]> (heap w))
            (set_pc t (after_set t fn_call (fn_body fn args)) (threads w))
            (EvSet fn_call :: trace w)
      | None => w
      end
  | AtWait fn_call is_leader =>
      match heap w !! fn_call with
      | Some c =>
          if event c then goto t (AtUnwrap fn_call is_leader) w else w
      | None => w
      end
  | AtUnwrap fn_call is_leader =>
      match heap w !! fn_call with
      | Some c => goto t (CallDone fn_call is_leader (unwrap (result c))) w
      | None => w
      end
  | CallDone _ _ _ | Done _ => w
  end.

(** The other methods are one lock block each. *)
Definition step_other (t : nat) (o : op) (p : pc) (w : world) : world :=
  match p with
  | Enter =>
      match o with
      | OpGetStats =>
          goto t (Done (Snapshot (get_stats (self w)))) w
      | OpResetStats =>
          MkWorld (reset_stats t (self w)) (heap w)
            (set_pc t (Done NoValue) (threads w)) (trace w)
      | OpForget k =>
          MkWorld (forget k (self w)) (heap w)
            (set_pc t (Done NoValue) (threads w)) (trace w)
      | OpForgetAll =>
          MkWorld (forget_all (self w)) (heap w)
            (set_pc t (Done NoValue) (threads w)) (trace w)
      | OpCall _ _ _ => w
      end
  | _ => w
  end.

(** One transition of thread [t]. *)
Definition step (t : nat) (w : world) : world :=
  match threads w !! t with
  | None => w
  | Some th =>
      match t_op th with
      | OpCall key fn args => step_call t key fn args (t_pc th) w
      | o => step_other t o (t_pc th) w
      end
  end.

(** A schedule runs its threads from left to right. *)
Definition exec (sched : list nat) (w : world) : world :=
  fold_left (fun w t => step t w) sched w.

(** A fresh coordinator with the pool of invocations [ops], none started. *)
Definition init (ops : list op) : world :=
  MkWorld new_shared ∅ (map (fun o => MkThread o Enter) ops) [].

Definition reachable (ops : list op) (w : world) : Prop :=
  ∃ sched, w = exec sched (init ops).

(** ** The transitions as a relation

    The same transitions once more, one constructor per program point, with
    the thread's entry in the pool written out.  [step] always takes one of
    them ([step_transition]); the invariants are proved over the relation. *)

Definition at_pc (w : world) (t : nat) (o : op) (p : pc) : Prop :=
  threads w !! t = Some (MkThread o p).

Definition move (t : nat) (o : op) (p : pc) (w : world) : list thread :=
  <[t := MkThread o p]> (threads w).

Inductive transition (t : nat) (w : world) : world -> Prop :=
| T_stutter :
    transition t w w
| T_enter key fn args k :
    at_pc w t (OpCall key fn args) Enter ->
    resolve_key key fn args = Returns k ->
    transition t w
      (MkWorld (self w) (heap w)
         (move t (OpCall key fn args) (AtLock k) w) (trace w))
| T_enter_raise key fn args e :
    at_pc w t (OpCall key fn args) Enter ->
    resolve_key key fn args = Raises e ->
    transition t w
      (MkWorld (self w) (heap w)
         (move t (OpCall key fn args) (Done (Raised t e)) w) (trace w))
| T_lead key fn args k :
    at_pc w t (OpCall key fn args) (AtLock k) ->
    in_flight (self w) !! k = None ->
    transition t w
      (MkWorld (register k t (self w)).1.1
         (<[t := MkCall Unset false]> (heap w))
         (move t (OpCall key fn args) (AtWork k t) w) (trace w))
| T_follow key fn args k c :
    at_pc w t (OpCall key fn args) (AtLock k) ->
    in_flight (self w) !! k = Some c ->
    transition t w
      (MkWorld (register k t (self w)).1.1 (heap w)
         (move t (OpCall key fn args) (AtWait c false) w) (trace w))
| T_work key fn args k c :
    at_pc w t (OpCall key fn args) (AtWork k c) ->
    transition t w
      (MkWorld (self w)
         (<[c := MkCall (stored t (fn_body fn args)) false]> (heap w))
         (move t (OpCall key fn args)
            (after_work k c (self w) (fn_body fn args)) w)
         (EvWork t :: trace w))
| T_errinc key fn args k c obj errors :
    at_pc w t (OpCall key fn args) (AtErrInc k c obj errors) ->
    transition t w
      (MkWorld (store_errors obj errors (self w)) (heap w)
         (move t (OpCall key fn args) (AtFinally k c) w) (trace w))
| T_finally key fn args k c :
    at_pc w t (OpCall key fn args) (AtFinally k c) ->
    transition t w
      (MkWorld (complete k (self w)) (heap w)
         (move t (OpCall key fn args) (AtSet c) w) (trace w))
| T_set key fn args c cell :
    at_pc w t (OpCall key fn args) (AtSet c) ->
    heap w !! c = Some cell ->
    transition t w
      (MkWorld (self w) (<[c := MkCall (result cell) true]> (heap w))
         (move t (OpCall key fn args) (after_set t c (fn_body fn args)) w)
         (EvSet c :: trace w))
| T_wait key fn args c b cell :
    at_pc w t (OpCall key fn args) (AtWait c b) ->
    heap w !! c = Some cell ->
    event cell = true ->
    transition t w
      (MkWorld (self w) (heap w)
         (move t (OpCall key fn args) (AtUnwrap c b) w) (trace w))
| T_unwrap key fn args c b cell :
    at_pc w t (OpCall key fn args) (AtUnwrap c b) ->
    heap w !! c = Some cell ->
    transition t w
      (MkWorld (self w) (heap w)
         (move t (OpCall key fn args) (CallDone c b (unwrap (result cell))) w)
         (trace w))
| T_get_stats :
    at_pc w t OpGetStats Enter ->
    transition t w
      (MkWorld (self w) (heap w)
         (move t OpGetStats (Done (Snapshot (get_stats (self w)))) w)
         (trace w))
| T_reset_stats :
    at_pc w t OpResetStats Enter ->
    transition t w
      (MkWorld (reset_stats t (self w)) (heap w)
         (move t OpResetStats (Done NoValue) w) (trace w))
| T_forget k :
    at_pc w t (OpForget k) Enter ->
    transition t w
      (MkWorld (forget k (self w)) (heap w)
         (move t (OpForget k) (Done NoValue) w) (trace w))
| T_forget_all :
    at_pc w t OpForgetAll Enter ->
    transition t w
      (MkWorld (forget_all (self w)) (heap w)
         (move t OpForgetAll (Done NoValue) w) (trace w)).

Lemma set_pc_move t o p p' (w : world) :
  at_pc w t o p -> set_pc t p' (threads w) = move t o p' w.
Proof. unfold at_pc, set_pc, move. by intros ->. Qed.

Lemma step_transition t (w : world) : transition t w (step t w).
Proof.
  unfold step.
  destruct (threads w !! t) as [[o p]|] eqn:Ht; [|constructor].
  change (at_pc w t o p) in Ht.
  destruct o as [key fn args| | |k|]; simpl;
    destruct p; simpl; try constructor;
    unfold goto; rewrite ?(set_pc_move _ _ _ _ _ Ht);
    try (by econstructor; eauto).
  - destruct (resolve_key key fn args) eqn:Hk;
      unfold goto; rewrite ?(set_pc_move _ _ _ _ _ Ht); by econstructor.
  - unfold register at 1.
    destruct (in_flight (self w) !! key0) as [c|] eqn:Hreg;
      rewrite ?(set_pc_move _ _ _ _ _ Ht).
    + replace (MkShared _ _ _) with (register key0 t (self w)).1.1
        by (unfold register; by rewrite Hreg).
      by econstructor.
    + replace (MkShared _ _ _) with (register key0 t (self w)).1.1
        by (unfold register; by rewrite Hreg).
      by econstructor.
  - destruct (heap w !! fn_call) eqn:Hc; [|constructor].
    rewrite ?(set_pc_move _ _ _ _ _ Ht). by econstructor.
  - destruct (heap w !! fn_call) as [cell|] eqn:Hc; [|constructor].
    destruct (event cell) eqn:Hev; [|constructor].
    unfold goto. rewrite ?(set_pc_move _ _ _ _ _ Ht). by econstructor.
  - destruct (heap w !! fn_call) as [cell|] eqn:Hc; [|constructor].
    unfold goto. rewrite ?(set_pc_move _ _ _ _ _ Ht). by econstructor.
Qed.

Lemma exec_app s1 s2 (w : world) :
  exec (s1 ++ s2) w = exec s2 (exec s1 w).
Proof. unfold exec. by rewrite fold_left_app. Qed.

Lemma exec_invariant (P : world -> Prop) :
  (forall t w w', P w -> transition t w w' -> P w') ->
  forall sched w, P w -> P (exec sched w).
Proof.
  intros Hstep sched. induction sched as [|t sched IH]; intros w Hw; [done|].
  simpl. apply IH. eapply Hstep; [done|]. apply step_transition.
Qed.

Lemma stored_result t (c : completion V E) :
  escapes c = false -> stored t c = result_of t c.
Proof. unfold stored. by intros ->. Qed.

(** ** Well-formedness: what every program point knows about the heap

    A leader's [fn_call] is its own [SyncCall]; the cell holds [Unset] until
    the work function has been invoked, then what the [try] statement
    stored, and the event is set from line 57 on.  A leader that reaches
    line 59 has no exception in flight; one that has leaves [call] with it.
    A follower holds a reference to a cell that exists.  Holds for every
    pool of invocations. *)

Definition call_inv (h : gmap nat SyncCall) (t : nat)
    (key : option string) (fn : Fn) (args : A) (p : pc) : Prop :=
  let r := stored t (fn_body fn args) in
  match p with
  | Enter => h !! t = None
  | AtLock k => resolve_key key fn args = Returns k ∧ h !! t = None
  | AtWork k c =>
      c = t ∧ resolve_key key fn args = Returns k ∧
      h !! t = Some (MkCall Unset false)
  | AtErrInc k c _ _ =>
      c = t ∧ resolve_key key fn args = Returns k ∧
      caught (fn_body fn args) = true ∧ h !! t = Some (MkCall r false)
  | AtFinally k c =>
      c = t ∧ resolve_key key fn args = Returns k ∧
      h !! t = Some (MkCall r false)
  | AtSet c => c = t ∧ h !! t = Some (MkCall r false)
  | AtWait c true | AtUnwrap c true =>
      c = t ∧ h !! t = Some (MkCall r true) ∧
      escapes (fn_body fn args) = false
  | CallDone c true out =>
      c = t ∧ h !! t = Some (MkCall r true) ∧
      out = unwrap (result_of t (fn_body fn args))
  | AtWait c false => h !! t = None ∧ is_Some (h !! c)
  | AtUnwrap c false => h !! t = None ∧ ∃ r', h !! c = Some (MkCall r' true)
  | CallDone c false out =>
      h !! t = None ∧ ∃ r', h !! c = Some (MkCall r' true) ∧ out = unwrap r'
  | Done out =>
      h !! t = None ∧
      ∃ e, resolve_key key fn args = Raises e ∧ out = Raised t e
  end.

Definition thread_inv (h : gmap nat SyncCall) (t : nat) (th : thread) : Prop :=
  match t_op th with
  | OpCall key fn args => call_inv h t key fn args (t_pc th)
  | _ => h !! t = None ∧ (t_pc th = Enter ∨ ∃ out, t_pc th = Done out)
  end.

(** The leader of key [k] between registration and the end of its
    completion block. *)
Definition active_on (k : string) (c : nat) (p : pc) : Prop :=
  p = AtWork k c ∨ (∃ obj errors, p = AtErrInc k c obj errors) ∨
  p = AtFinally k c.

Record wf (w : world) : Prop := MkWf
  { wf_threads : forall t th,
      threads w !! t = Some th -> thread_inv (heap w) t th;
    wf_heap : forall c, is_Some (heap w !! c) -> is_Some (threads w !! c);
    wf_registry : forall k c,
      in_flight (self w) !! k = Some c ->
      ∃ th, threads w !! c = Some th ∧ active_on k c (t_pc th) }.

Lemma lookup_move t o p o' p' (w : world) t' th :
  at_pc w t o p ->
  move t o' p' w !! t' = Some th ->
  (t' = t ∧ th = MkThread o' p') ∨ (t' ≠ t ∧ threads w !! t' = Some th).
Proof.
  unfold at_pc, move. intros Ht Hl.
  destruct (decide (t' = t)) as [->|Hne].
  - left. split; [done|].
    rewrite list_lookup_insert_eq in Hl by (by eapply lookup_lt_Some).
    by injection Hl.
  - right. by rewrite list_lookup_insert_ne in Hl.
Qed.

Lemma lookup_move_eq t o p o' p' (w : world) :
  at_pc w t o p -> move t o' p' w !! t = Some (MkThread o' p').
Proof.
  unfold at_pc, move. intros Ht.
  apply list_lookup_insert_eq. by eapply lookup_lt_Some.
Qed.

Lemma lookup_move_ne t o' p' (w : world) t' :
  t' ≠ t -> move t o' p' w !! t' = threads w !! t'.
Proof. unfold move. intros. by apply list_lookup_insert_ne. Qed.

Lemma lookup_move_is_Some t o' p' (w : world) t' :
  is_Some (threads w !! t') -> is_Some (move t o' p' w !! t').
Proof.
  unfold move. rewrite !lookup_lt_is_Some, length_insert. done.
Qed.

(** A thread other than the one that moves keeps what it knows, as long as
    its own cell is untouched, cells stay, and cells whose event is set are
    frozen. *)
Definition heap_grows (h h' : gmap nat SyncCall) (t : nat) : Prop :=
  (forall t', t' ≠ t -> h' !! t' = h !! t') ∧
  (forall c, is_Some (h !! c) -> is_Some (h' !! c)) ∧
  (forall c r, h !! c = Some (MkCall r true) -> h' !! c = Some (MkCall r true)).

Lemma thread_inv_frame h h' t t' th :
  heap_grows h h' t -> t' ≠ t -> thread_inv h t' th -> thread_inv h' t' th.
Proof.
  intros (Hne & Hsome & Hset) Ht'. unfold thread_inv.
  destruct (t_op th) as [key fn args| | |k|]; rewrite ?(Hne _ Ht'); try done.
  unfold call_inv. destruct (t_pc th) as [| | | | | |c []|c []|c []|];
    rewrite ?(Hne _ Ht'); try done.
  - intros [? ?]. eauto.
  - intros [? [r' ?]]. eauto.
  - intros [? [r' [? ?]]]. eauto.
Qed.

Lemma heap_grows_refl h t : heap_grows h h t.
Proof. by repeat split. Qed.

Lemma heap_grows_insert h t cell cell' :
  h !! t = cell ->
  (forall r, cell ≠ Some (MkCall r true)) ->
  heap_grows h (<[t := cell']> h) t.
Proof.
  intros Hc Hnset. repeat split.
  - intros t' Hne. by rewrite lookup_insert_ne.
  - intros c Hs. rewrite lookup_insert_is_Some.
    destruct (decide (t = c)); auto.
  - intros c r Hr. destruct (decide (t = c)) as [<-|Hne].
    + exfalso. apply (Hnset r). congruence.
    + by rewrite lookup_insert_ne.
Qed.

Lemma wf_init ops : wf (init ops).
Proof.
  split; simpl.
  - intros t th Ht. rewrite list_lookup_fmap in Ht.
    destruct (ops !! t) as [o|]; [|done]. injection Ht as <-.
    unfold thread_inv. simpl. destruct o; simpl; eauto.
  - intros c [x Hx]. by rewrite lookup_empty in Hx.
  - intros k c Hk. by rewrite lookup_empty in Hk.
Qed.

Lemma active_on_at (w : world) t o p k :
  wf w -> at_pc w t o p -> in_flight (self w) !! k = Some t ->
  active_on k t p.
Proof.
  intros Hwf Hat Hk. destruct (wf_registry _ Hwf _ _ Hk) as (th & Hth & Hact).
  unfold at_pc in Hat. rewrite Hat in Hth. by injection Hth as <-.
Qed.

Lemma registry_step (w : world) t o p p' (reg' : gmap string nat) :
  wf w -> at_pc w t o p ->
  (forall k c, reg' !! k = Some c ->
     (c ≠ t ∧ in_flight (self w) !! k = Some c) ∨ (c = t ∧ active_on k t p')) ->
  forall k c, reg' !! k = Some c ->
    ∃ th, move t o p' w !! c = Some th ∧ active_on k c (t_pc th).
Proof.
  intros Hwf Hat Hsub k c Hk.
  destruct (Hsub _ _ Hk) as [[Hne Hold]|[-> Hact]].
  - destruct (wf_registry _ Hwf _ _ Hold) as (th & Hth & Hact).
    exists th. by rewrite lookup_move_ne.
  - eexists. split; [by eapply lookup_move_eq|done].
Qed.

(** An entry of the old registry, seen after thread [t] moved from [p] to
    [p']: either it belongs to another thread, or [t] was active on it. *)
Lemma registry_old (w : world) t o p p' k c :
  wf w -> at_pc w t o p ->
  in_flight (self w) !! k = Some c ->
  (active_on k t p -> active_on k t p') ->
  (c ≠ t ∧ in_flight (self w) !! k = Some c) ∨ (c = t ∧ active_on k t p').
Proof.
  intros Hwf Hat Hk Himp. destruct (decide (c = t)) as [->|Hne]; [|by left].
  right. split; [done|]. apply Himp. by eapply active_on_at.
Qed.

Lemma heap_dom_insert (w : world) t o p p' cell :
  wf w -> at_pc w t o p ->
  forall c, is_Some (<[t := cell]> (heap w) !! c) ->
    is_Some (move t o p' w !! c).
Proof.
  intros Hwf Hat c Hc. apply lookup_move_is_Some.
  rewrite lookup_insert_is_Some in Hc. destruct Hc as [<-|[_ Hc]].
  - unfold at_pc in Hat. by rewrite Hat.
  - by apply (wf_heap _ Hwf).
Qed.

(** A registered call has not been signalled: its leader has not reached
    line 57. *)
Lemma registry_cell (w : world) k c :
  wf w -> in_flight (self w) !! k = Some c ->
  ∃ r, heap w !! c = Some (MkCall r false).
Proof.
  intros Hwf Hk. destruct (wf_registry _ Hwf _ _ Hk) as (th & Hth & Hact).
  pose proof (wf_threads _ Hwf _ _ Hth) as Hinv.
  unfold thread_inv, call_inv in Hinv. destruct th as [o p]. simpl in *.
  destruct Hact as [-> | [(? & ? & ->) | ->]]; destruct o; naive_solver.
Qed.

Ltac not_active :=
  let H := fresh in
  intros H; unfold active_on in H;
  destruct H as [H|[(? & ? & H)|H]]; discriminate.

Lemma wf_step t (w w' : world) : wf w -> transition t w w' -> wf w'.
Proof.
  intros Hwf Htr. pose proof Hwf as [Hth Hheap Hreg].
  destruct Htr as [ | key fn args k Hat Hk | key fn args e Hat Hk
    | key fn args k Hat Hno | key fn args k c Hat Hc | key fn args k c Hat
    | key fn args k c obj errs Hat | key fn args k c Hat
    | key fn args c cell Hat Hc
    | key fn args c b cell Hat Hc Hev | key fn args c b cell Hat Hc
    | Hat | Hat | k Hat | Hat ]; [done|..].
  all: pose proof (Hth _ _ Hat) as Hme; unfold thread_inv, call_inv in Hme;
    simpl in Hme.
  all: split; simpl.
  all: try (intros t' th' Hl;
       apply (lookup_move _ _ _ _ _ _ _ _ Hat) in Hl as [[-> ->]|[Hne Hl]];
       [ unfold thread_inv, call_inv; simpl
       | eapply thread_inv_frame; [ | exact Hne | by apply Hth ] ]).
  all: try apply heap_grows_refl.
  all: try (intros c' Hc'; apply lookup_move_is_Some; by apply Hheap).
  all: try (eapply registry_step; [done..|]; intros k0 c0 Hk0).
  all: try (eapply registry_old; [done..|not_active]).
  - (* line 33, the key resolves *) done.
  - (* line 33 raises *) split; [done|]. by exists e.
  - (* registration, leader *) rewrite lookup_insert_eq. naive_solver.
  - eapply heap_grows_insert; [apply Hme|done].
  - by eapply heap_dom_insert.
  - unfold register in Hk0. rewrite Hno in Hk0. simpl in Hk0.
    apply lookup_insert_Some in Hk0 as [[<- <-]|[Hne Hk0]].
    + right. split; [done|]. by left.
    + eapply registry_old; [done..|not_active].
  - (* registration, follower *) destruct Hme as [_ Hme]. split; [done|].
    destruct (registry_cell _ _ _ Hwf Hc) as [r ->]. eauto.
  - unfold register in Hk0. rewrite Hc in Hk0. simpl in Hk0.
    eapply registry_old; [done..|not_active].
  - (* the work function *) destruct Hme as (-> & Hk & Hcell).
    unfold after_work, stored, caught, escapes.
    destruct (fn_body fn args) as [v|e] eqn:Hbody;
      [|destruct (is_exception e) eqn:He]; simpl;
      rewrite lookup_insert_eq; eauto 6.
  - destruct Hme as (-> & Hk & Hcell). by eapply heap_grows_insert.
  - destruct Hme as (-> & Hk & Hcell). by eapply heap_dom_insert.
  - eapply registry_old; [done..|].
    intros [Hact|[(? & ? & Hact)|Hact]]; try discriminate.
    injection Hact as -> ->. unfold after_work.
    destruct (caught (fn_body fn args)); [right; left; eauto|by right; right].
  - (* line 52, the write *) naive_solver.
  - unfold store_errors in Hk0.
    assert (in_flight (self w) !! k0 = Some c0) as Hk1
      by (by destruct (decide _)).
    eapply registry_old; [done..|].
    intros [Hact|[(? & ? & Hact)|Hact]]; try discriminate.
    injection Hact as -> ->. by right; right.
  - (* completion block *) naive_solver.
  - apply lookup_delete_Some in Hk0 as [Hne Hk0].
    eapply registry_old; [done..|].
    intros [Hact|[(? & ? & Hact)|Hact]]; try discriminate.
    by injection Hact as -> ->.
  - (* event.set() *) destruct Hme as (-> & Hcell). rewrite Hcell in Hc.
    injection Hc as <-. unfold after_set, stored, escapes in *.
    destruct (fn_body fn args) as [v|e]; [|destruct (is_exception e)];
      simpl; by rewrite lookup_insert_eq.
  - destruct Hme as (-> & Hcell). eapply heap_grows_insert; [done|].
    intros r. congruence.
  - destruct Hme as (-> & Hcell). by eapply heap_dom_insert.
  - (* event.wait() *) destruct b; [done|]. destruct Hme as [Hme _].
    split; [done|]. exists (result cell). destruct cell; simpl in *. by subst.
  - (* unwrap *) destruct b.
    + destruct Hme as (-> & Hcell & Hesc). rewrite Hcell in Hc.
      injection Hc as <-. repeat split; try done. simpl.
      by rewrite (stored_result _ _ Hesc).
    + destruct Hme as (Hnone & r' & Hcell). rewrite Hcell in Hc.
      injection Hc as <-. eauto.
  - (* get_stats *) destruct Hme as [Hme _]. eauto.
  - (* reset_stats *) destruct Hme as [Hme _]. eauto.
  - (* forget *) destruct Hme as [Hme _]. eauto.
  - apply lookup_delete_Some in Hk0 as [Hne Hk0].
    eapply registry_old; [done..|not_active].
  - (* forget_all *) destruct Hme as [Hme _]. eauto.
Qed.

(** ** The pool of invocations never changes *)

Definition ops_of (w : world) : list op := map t_op (threads w).

Lemma ops_of_init ops : ops_of (init ops) = ops.
Proof.
  unfold ops_of, init. simpl. rewrite map_map. simpl. apply map_id.
Qed.

Lemma ops_of_at (w : world) t o p : at_pc w t o p -> ops_of w !! t = Some o.
Proof.
  unfold at_pc, ops_of. intros Hat.
  change (map t_op (threads w)) with (t_op <$> threads w).
  by rewrite list_lookup_fmap, Hat.
Qed.

Lemma ops_of_move (w : world) t o p p' :
  at_pc w t o p -> map t_op (move t o p' w) = ops_of w.
Proof.
  intros Hat. unfold move.
  change (map t_op ?l) with (t_op <$> l).
  rewrite list_fmap_insert. simpl. apply list_insert_id.
  by apply ops_of_at in Hat.
Qed.

Lemma ops_of_step t (w w' : world) :
  transition t w w' -> ops_of w' = ops_of w.
Proof.
  destruct 1; try done; unfold ops_of at 1; simpl; by eapply ops_of_move.
Qed.

Lemma ops_of_exec sched (w : world) : ops_of (exec sched w) = ops_of w.
Proof.
  apply (exec_invariant (fun w' => ops_of w' = ops_of w)); [|done].
  intros t w1 w2 <- Htr. by eapply ops_of_step.
Qed.

Lemma at_pc_elem (w : world) t o p : at_pc w t o p -> o ∈ ops_of w.
Proof. intros Hat. eapply list_elem_of_lookup_2. by eapply ops_of_at. Qed.

(** ** Counting threads *)

Fixpoint count (f : thread -> bool) (l : list thread) : nat :=
  match l with
  | [] => 0
  | th :: l => (if f th then 1 else 0) + count f l
  end.

Definition b2n (b : bool) : nat := if b then 1 else 0.

Lemma count_insert f (l : list thread) i th th' :
  l !! i = Some th ->
  count f (<[i := th']> l) + b2n (f th) = count f l + b2n (f th').
Proof.
  revert i. induction l as [|x l IH]; intros [|i] Hl; simplify_eq/=.
  - unfold b2n. destruct (f th), (f th'); lia.
  - specialize (IH _ Hl). lia.
Qed.

Lemma count_move f (w : world) t o p p' :
  at_pc w t o p ->
  count f (move t o p' w) + b2n (f (MkThread o p))
  = count f (threads w) + b2n (f (MkThread o p')).
Proof. intros Hat. by apply count_insert. Qed.

Lemma count_zero f (l : list thread) :
  count f l = 0 <-> forall i th, l !! i = Some th -> f th = false.
Proof.
  induction l as [|x l IH]; simpl.
  - split; [intros _ i th Hi; by rewrite lookup_nil in Hi|done].
  - split.
    + intros Hc [|i] th Hi; simplify_eq/=.
      * destruct (f th); [lia|done].
      * apply (proj1 IH) with i; [|done]. destruct (f x); lia.
    + intros Hall. rewrite (Hall 0 x eq_refl). simpl. apply IH.
      intros i th Hi. by apply (Hall (S i)).
Qed.

(** ** The statistics as a ledger of thread positions

    Without [reset_stats] in the pool the counters that are written under
    the lock count threads: [hits] the followers, [misses] the leaders,
    [in_flight] the leaders that have not yet run their completion block.
    [errors] is bounded by the leaders whose work raised an [Exception] and
    that have passed line 52. *)

Definition is_follower (th : thread) : bool :=
  match t_pc th with
  | AtWait _ false | AtUnwrap _ false | CallDone _ false _ => true
  | _ => false
  end.

Definition is_leader (th : thread) : bool :=
  match t_pc th with
  | AtWork _ _ | AtErrInc _ _ _ _ | AtFinally _ _ | AtSet _
  | AtWait _ true | AtUnwrap _ true | CallDone _ true _ => true
  | _ => false
  end.

Definition is_active (th : thread) : bool :=
  match t_pc th with
  | AtWork _ _ | AtErrInc _ _ _ _ | AtFinally _ _ => true
  | _ => false
  end.

Definition has_worked (th : thread) : bool :=
  match t_pc th with
  | AtErrInc _ _ _ _ | AtFinally _ _ | AtSet _
  | AtWait _ true | AtUnwrap _ true | CallDone _ true _ => true
  | _ => false
  end.

Definition has_signalled (th : thread) : bool :=
  match t_pc th with
  | AtWait _ true | AtUnwrap _ true | CallDone _ true _ => true
  | _ => false
  end.

(** The work function raises an [Exception]: the [except] clause runs. *)
Definition work_raises (o : op) : bool :=
  match o with
  | OpCall _ fn args => caught (fn_body fn args)
  | _ => false
  end.

(** The leaders that have run the write of line 52. *)
Definition has_erred (th : thread) : bool :=
  work_raises (t_op th) &&
  match t_pc th with
  | AtFinally _ _ | AtSet _
  | AtWait _ true | AtUnwrap _ true | CallDone _ true _ => true
  | _ => false
  end.

(** [errors] is written outside the lock: an increment can overwrite
    another one.  What stays true: [errors] is at most the number of writes,
    at least 1 once there is one, and so is, plus 1, what any leader that
    stands in line 52 is about to write. *)
Definition errors_ledger (w : world) : Prop :=
  stats_id (self w) = None ∧
  (0 <= Stats.errors (stats (self w))
   <= Z.of_nat (count has_erred (threads w)))%Z ∧
  (1 <= count has_erred (threads w) ->
   (1 <= Stats.errors (stats (self w)))%Z) ∧
  forall t th k c obj v,
    threads w !! t = Some th -> t_pc th = AtErrInc k c obj v ->
    obj = None ∧ (0 <= v <= Z.of_nat (count has_erred (threads w)))%Z.

Record ledger (w : world) : Prop := MkLedger
  { ledger_hits :
      Stats.hits (stats (self w)) = Z.of_nat (count is_follower (threads w));
    ledger_misses :
      Stats.misses (stats (self w)) = Z.of_nat (count is_leader (threads w));
    ledger_errors : errors_ledger w;
    ledger_in_flight :
      Stats.in_flight (stats (self w))
      = Z.of_nat (count is_active (threads w)) }.

Lemma ledger_init ops : ledger (init ops).
Proof.
  assert (forall f : thread -> bool,
    (forall o, f (MkThread o Enter) = false) ->
    count f (map (fun o => MkThread o Enter) ops) = 0) as Hz.
  { intros f Hf. induction ops as [|o ops IH]; simpl; [done|].
    by rewrite Hf, IH. }
  assert (count has_erred (threads (init ops)) = 0) as Hzero.
  { simpl. apply Hz. intros o. unfold has_erred. simpl. apply andb_false_r. }
  split; simpl; rewrite ?Hz; try done.
  unfold errors_ledger. rewrite Hzero. simpl.
  split; [done|]. split; [lia|]. split; [lia|].
  intros t th k c obj v Hth Hp. rewrite list_lookup_fmap in Hth.
  destruct (ops !! t); simplify_eq/=.
Qed.

Lemma has_erred_eq o p :
  has_erred (MkThread o p)
  = work_raises o &&
    match p with
    | AtFinally _ _ | AtSet _
    | AtWait _ true | AtUnwrap _ true | CallDone _ true _ => true
    | _ => false
    end.
Proof. done. Qed.

Lemma stats_store_errors obj v (sc : SharedCall) :
  in_flight (store_errors obj v sc) = in_flight sc ∧
  stats_id (store_errors obj v sc) = stats_id sc ∧
  Stats.hits (stats (store_errors obj v sc)) = Stats.hits (stats sc) ∧
  Stats.misses (stats (store_errors obj v sc)) = Stats.misses (stats sc) ∧
  Stats.in_flight (stats (store_errors obj v sc))
  = Stats.in_flight (stats sc) ∧
  Stats.errors (stats (store_errors obj v sc))
  = if decide (stats_id sc = obj) then (v + 1)%Z
    else Stats.errors (stats sc).
Proof. unfold store_errors. by destruct (decide _). Qed.

Lemma in_flight_store_errors obj v (sc : SharedCall) :
  in_flight (store_errors obj v sc) = in_flight sc.
Proof. apply stats_store_errors. Qed.

Ltac count_moves Hat :=
  match goal with
  | |- context [move ?t ?o ?p' ?w] =>
      pose proof (count_move is_follower _ _ _ _ p' Hat);
      pose proof (count_move is_leader _ _ _ _ p' Hat);
      pose proof (count_move is_active _ _ _ _ p' Hat)
  end.

Lemma after_work_cases k c sc (r : completion V E) :
  (caught r = true ∧
   after_work k c sc r = AtErrInc k c (stats_id sc) (Stats.errors (stats sc)))
  ∨ (caught r = false ∧ after_work k c sc r = AtFinally k c).
Proof. unfold after_work. destruct (caught r); auto. Qed.

Lemma after_set_cases t c (r : completion V E) :
  (escapes r = false ∧ after_set t c r = AtWait c true) ∨
  (∃ e, r = Raises e ∧ escapes r = true ∧
        after_set t c r = CallDone c true (Raised t e)).
Proof.
  unfold after_set, escapes. destruct r as [v|e]; [by left|].
  destruct (is_exception e); [by left|right; eauto].
Qed.

Ltac next_pc_cases :=
  repeat match goal with
  | |- context [after_work ?k ?c ?sc ?r] =>
      destruct (after_work_cases k c sc r) as [[? ->]|[? ->]]
  | |- context [after_set ?t ?c ?r] =>
      destruct (after_set_cases t c r) as [[? ->]|(? & ? & ? & ->)]
  end.

(** The counters that are written under the lock count threads. *)
Lemma locked_counters_step t (w w' : world) :
  wf w -> OpResetStats ∉ ops_of w -> transition t w w' ->
  Stats.hits (stats (self w)) = Z.of_nat (count is_follower (threads w)) ->
  Stats.misses (stats (self w)) = Z.of_nat (count is_leader (threads w)) ->
  Stats.in_flight (stats (self w)) = Z.of_nat (count is_active (threads w)) ->
  Stats.hits (stats (self w')) = Z.of_nat (count is_follower (threads w')) ∧
  Stats.misses (stats (self w')) = Z.of_nat (count is_leader (threads w')) ∧
  Stats.in_flight (stats (self w')) = Z.of_nat (count is_active (threads w')).
Proof.
  intros Hwf Hnr Htr Hh Hm Hi.
  destruct Htr as [ | key fn args k Hat Hk | key fn args e Hat Hk
    | key fn args k Hat Hno | key fn args k c Hat Hc | key fn args k c Hat
    | key fn args k c obj errs Hat | key fn args k c Hat
    | key fn args c cell Hat Hc
    | key fn args c b cell Hat Hc Hev | key fn args c b cell Hat Hc
    | Hat | Hat | k Hat | Hat ]; [done|..].
  all: try (exfalso; apply Hnr; by eapply at_pc_elem).
  all: try (unfold register; rewrite ?Hno, ?Hc; simpl).
  all: try (destruct (after_work_cases k c (self w) (fn_body fn args))
              as [[_ ->]|[_ ->]]).
  all: try (destruct (after_set_cases t c (fn_body fn args))
              as [[_ ->]|(e & _ & _ & ->)]).
  all: try destruct b.
  all: count_moves Hat.
  all: try (destruct (stats_store_errors obj errs (self w))
              as (_ & _ & -> & -> & -> & _)).
  all: simpl in *; repeat split; lia.
Qed.

Lemma errors_ledger_step t (w w' : world) :
  wf w -> OpResetStats ∉ ops_of w -> errors_ledger w -> transition t w w' ->
  errors_ledger w'.
Proof.
  intros Hwf Hnr (Hid & Hb & Hone & Hreads) Htr.
  (* a thread that moves without writing [errors] *)
  assert (forall o p p' sc,
    at_pc w t o p ->
    has_erred (MkThread o p') = has_erred (MkThread o p) ->
    stats_id sc = stats_id (self w) ->
    Stats.errors (stats sc) = Stats.errors (stats (self w)) ->
    (forall k c obj v, p' = AtErrInc k c obj v ->
       (∃ k0 c0, p = AtErrInc k0 c0 obj v) ∨
       (obj = stats_id (self w) ∧ v = Stats.errors (stats (self w)))) ->
    errors_ledger (MkWorld sc (heap w) (move t o p' w) (trace w)) ∧
    forall h tr, errors_ledger (MkWorld sc h (move t o p' w) tr)) as Hkeep.
  { intros o p p' sc Hat Herr Hsid Hserr Hnew.
    assert (forall h tr, errors_ledger (MkWorld sc h (move t o p' w) tr));
      [|by split].
    intros h tr. pose proof (count_move has_erred _ _ _ _ p' Hat) as Hcnt.
    rewrite Herr in Hcnt. unfold errors_ledger. simpl.
    assert (count has_erred (move t o p' w) = count has_erred (threads w))
      as -> by lia.
    rewrite Hsid, Hserr. split; [done|]. split; [done|]. split; [done|].
    intros t' th' k' c' obj' v' Hl Hp.
    apply (lookup_move _ _ _ _ _ _ _ _ Hat) in Hl as [[-> ->]|[Hne Hl]];
      [|by eapply Hreads].
    simpl in Hp. destruct (Hnew _ _ _ _ Hp) as [(k0 & c0 & ->)|[-> ->]].
    - by eapply (Hreads _ _ _ _ _ _ Hat).
    - split; [done|lia]. }
  destruct Htr as [ | key fn args k Hat Hk | key fn args e Hat Hk
    | key fn args k Hat Hno | key fn args k c Hat Hc | key fn args k c Hat
    | key fn args k c obj errs Hat | key fn args k c Hat
    | key fn args c cell Hat Hc
    | key fn args c b cell Hat Hc Hev | key fn args c b cell Hat Hc
    | Hat | Hat | k Hat | Hat ]; [done|..].
  all: try (exfalso; apply Hnr; by eapply at_pc_elem).
  all: pose proof (wf_threads _ Hwf _ _ Hat) as Hme;
    unfold thread_inv, call_inv in Hme; simpl in Hme.
  - by apply (Hkeep _ _ _ _ Hat).
  - by apply (Hkeep _ _ _ _ Hat).
  - apply (Hkeep _ _ _ _ Hat); try done;
      unfold register; by rewrite Hno.
  - apply (Hkeep _ _ _ _ Hat); try done;
      unfold register; by rewrite Hc.
  - apply (Hkeep _ _ _ _ Hat); try done.
    + rewrite !has_erred_eq. simpl.
      destruct (after_work_cases k c (self w) (fn_body fn args))
        as [[_ ->]|[Hnc ->]]; by rewrite ?Hnc, ?andb_false_r.
    + intros k' c' obj' v'.
      destruct (after_work_cases k c (self w) (fn_body fn args))
        as [[_ ->]|[_ ->]]; intros; simplify_eq/=; auto.
  - (* the write of line 52 *)
    destruct Hme as (-> & _ & Hcaught & _).
    destruct (Hreads _ _ _ _ _ _ Hat eq_refl) as [-> Hv].
    pose proof (count_move has_erred _ _ _ _ (AtFinally k t) Hat) as Hcnt.
    rewrite !has_erred_eq in Hcnt. simpl in Hcnt. rewrite Hcaught in Hcnt.
    simpl in Hcnt.
    destruct (stats_store_errors None errs (self w))
      as (_ & Hsid & _ & _ & _ & Herrs).
    rewrite Hid in Herrs. rewrite decide_True in Herrs by done.
    unfold errors_ledger. simpl. rewrite Hsid, Herrs.
    split; [done|]. split; [lia|]. split; [lia|].
    intros t' th' k' c' obj' v' Hl Hp.
    apply (lookup_move _ _ _ _ _ _ _ _ Hat) in Hl as [[-> ->]|[Hne Hl]];
      [done|].
    destruct (Hreads _ _ _ _ _ _ Hl Hp) as [-> ?]. split; [done|lia].
  - by apply (Hkeep _ _ _ _ Hat).
  - apply (Hkeep _ _ _ _ Hat); try done.
    + rewrite !has_erred_eq.
      by destruct (after_set_cases t c (fn_body fn args))
        as [[_ ->]|(e & _ & _ & ->)].
    + intros k' c' obj' v'.
      by destruct (after_set_cases t c (fn_body fn args))
        as [[_ ->]|(e & _ & _ & ->)].
  - apply (Hkeep _ _ _ _ Hat); try done;
      rewrite !has_erred_eq; by destruct b.
  - apply (Hkeep _ _ _ _ Hat); try done;
      rewrite !has_erred_eq; by destruct b.
  - by apply (Hkeep _ _ _ _ Hat).
  - by apply (Hkeep _ _ _ _ Hat).
  - by apply (Hkeep _ _ _ _ Hat).
Qed.

Lemma ledger_step t (w w' : world) :
  wf w -> OpResetStats ∉ ops_of w -> ledger w -> transition t w w' -> ledger w'.
Proof.
  intros Hwf Hnr [Hh Hm He Hi] Htr.
  destruct (locked_counters_step t w w' Hwf Hnr Htr Hh Hm Hi) as (? & ? & ?).
  split; try done. by eapply errors_ledger_step.
Qed.

(** ** The trace: who invoked its work function, which events were set *)

Fixpoint works (tr : list event_log) : nat :=
  match tr with
  | [] => 0
  | EvWork _ :: tr => S (works tr)
  | EvSet _ :: tr => works tr
  end.

(** The tests' [call_count]: how often a work function has been invoked. *)
Definition call_count (w : world) : nat := works (trace w).

(** How often thread [t] has invoked its work function, and how often
    [event.set()] has been called on the call [c]. *)
Fixpoint works_of (t : nat) (tr : list event_log) : nat :=
  match tr with
  | [] => 0
  | EvWork t' :: tr => b2n (bool_decide (t' = t)) + works_of t tr
  | EvSet _ :: tr => works_of t tr
  end.

Fixpoint signals_of (c : nat) (tr : list event_log) : nat :=
  match tr with
  | [] => 0
  | EvSet c' :: tr => b2n (bool_decide (c' = c)) + signals_of c tr
  | EvWork _ :: tr => signals_of c tr
  end.

Definition flag (f : thread -> bool) (ths : list thread) (t : nat) : nat :=
  match ths !! t with
  | Some th => b2n (f th)
  | None => 0
  end.

Lemma flag_move f (w : world) t o p p' t' :
  at_pc w t o p ->
  flag f (move t o p' w) t'
  = if decide (t' = t) then b2n (f (MkThread o p')) else flag f (threads w) t'.
Proof.
  intros Hat. unfold flag. destruct (decide (t' = t)) as [->|Hne].
  - by rewrite (lookup_move_eq _ _ _ _ _ _ Hat).
  - by rewrite lookup_move_ne.
Qed.

Lemma flag_at f (w : world) t o p :
  at_pc w t o p -> flag f (threads w) t = b2n (f (MkThread o p)).
Proof. unfold at_pc, flag. by intros ->. Qed.

Record journal (w : world) : Prop := MkJournal
  { journal_total : call_count w = count has_worked (threads w);
    journal_work : forall t,
      works_of t (trace w) = flag has_worked (threads w) t;
    journal_set : forall c,
      signals_of c (trace w) = flag has_signalled (threads w) c }.

Lemma journal_init ops : journal (init ops).
Proof.
  split; simpl.
  - unfold call_count. simpl.
    induction ops as [|o ops IH]; simpl; [done|]. by rewrite <- IH.
  - intros t. unfold flag. rewrite list_lookup_fmap.
    by destruct (ops !! t).
  - intros t. unfold flag. rewrite list_lookup_fmap.
    by destruct (ops !! t).
Qed.

Lemma journal_step t (w w' : world) :
  wf w -> journal w -> transition t w w' -> journal w'.
Proof.
  intros Hwf [Htot Hwork Hset] Htr.
  destruct Htr as [ | key fn args k Hat Hk | key fn args e Hat Hk
    | key fn args k Hat Hno | key fn args k c Hat Hc | key fn args k c Hat
    | key fn args k c obj errs Hat | key fn args k c Hat
    | key fn args c cell Hat Hc
    | key fn args c b cell Hat Hc Hev | key fn args c b cell Hat Hc
    | Hat | Hat | k Hat | Hat ]; [done|..].
  all: pose proof (wf_threads _ Hwf _ _ Hat) as Hme;
    unfold thread_inv, call_inv in Hme; simpl in Hme.
  all: try destruct b.
  all: try (destruct Hme as [-> _]).
  all: next_pc_cases.
  all: split; unfold call_count in *; simpl.
  all: try (intros t'; rewrite (flag_move _ _ _ _ _ _ _ Hat);
            destruct (decide (t' = t)) as [->|Hne];
            [ rewrite ?Hwork, ?Hset, (flag_at _ _ _ _ _ Hat)
            | rewrite ?Hwork, ?Hset ]).
  all: try (match goal with
            | |- context [move ?t ?o ?p' ?w] =>
                pose proof (count_move has_worked _ _ _ _ p' Hat) as Hcnt
            end; simpl in Hcnt).
  all: rewrite ?bool_decide_eq_true_2 by done;
    rewrite ?bool_decide_eq_false_2 by done.
  all: try destruct (fn_body fn args); simpl in *; try done; try lia.
Qed.

(** ** Pools without [forget], [forget_all] or [reset_stats] *)

Definition is_forget (o : op) : bool :=
  match o with
  | OpForget _ | OpForgetAll => true
  | _ => false
  end.

Definition forget_free (ops : list op) : Prop :=
  forall o, o ∈ ops -> is_forget o = false.

Definition reset_free (ops : list op) : Prop := OpResetStats ∉ ops.

(** The key a leader is registered under, while it is. *)
Definition active_key (p : pc) : option string :=
  match p with
  | AtWork k _ | AtErrInc k _ _ _ | AtFinally k _ => Some k
  | _ => None
  end.

(** Invocations that would remove the entry of [K]. *)
Definition forgets (K : string) (o : op) : bool :=
  match o with
  | OpForget k => bool_decide (k = K)
  | OpForgetAll => true
  | _ => false
  end.

Definition spares (K : string) (ops : list op) : Prop :=
  forall o, o ∈ ops -> forgets K o = false.

Lemma forget_free_spares K ops : forget_free ops -> spares K ops.
Proof. intros Hff o Ho. specialize (Hff o Ho). by destruct o. Qed.

(** When nothing forgets [K], a leader on [K] stays registered until its
    completion block: the converse of [wf_registry]. *)
Definition registry_full_on (K : string) (w : world) : Prop :=
  forall t th,
    threads w !! t = Some th -> active_key (t_pc th) = Some K ->
    in_flight (self w) !! K = Some t.

Definition registry_full (w : world) : Prop :=
  forall t th k,
    threads w !! t = Some th -> active_key (t_pc th) = Some k ->
    in_flight (self w) !! k = Some t.

Lemma registry_full_init ops : registry_full (init ops).
Proof.
  intros t th k Ht. simpl in Ht. rewrite list_lookup_fmap in Ht.
  destruct (ops !! t); [|done]. by injection Ht as <-.
Qed.

Lemma registry_full_at (w : world) t o p k :
  registry_full w -> at_pc w t o p -> active_key p = Some k ->
  in_flight (self w) !! k = Some t.
Proof. intros Hfull Hat Hk. by eapply (Hfull t (MkThread o p)). Qed.

Lemma registry_full_on_step K t (w w' : world) :
  spares K (ops_of w) -> registry_full_on K w ->
  transition t w w' -> registry_full_on K w'.
Proof.
  intros Hsp Hfull Htr.
  destruct Htr as [ | key fn args k Hat Hk | key fn args e Hat Hk
    | key fn args k Hat Hno | key fn args k c Hat Hc | key fn args k c Hat
    | key fn args k c obj errs Hat | key fn args k c Hat
    | key fn args c cell Hat Hc
    | key fn args c b cell Hat Hc Hev | key fn args c b cell Hat Hc
    | Hat | Hat | k Hat | Hat ]; [done|..].
  all: pose proof (Hsp _ (at_pc_elem _ _ _ _ Hat)) as Hsp'; simpl in Hsp';
    try discriminate.
  all: next_pc_cases.
  all: intros t' th' Hl Hact; simpl in *.
  all: rewrite ?in_flight_store_errors.
  all: apply (lookup_move _ _ _ _ _ _ _ _ Hat) in Hl as [[-> ->]|[Hne Hl]];
    simpl in Hact; try discriminate.
  all: try (by eapply Hfull).
  all: try (injection Hact as <-; by apply (Hfull t _ Hat)).
  all: unfold register; rewrite ?Hno, ?Hc; simpl; try (by eapply Hfull).
  - (* registration, leader: its own entry *)
    injection Hact as <-. by rewrite lookup_insert_eq.
  - (* registration, leader: the others *)
    pose proof (Hfull _ _ Hl Hact) as Hold.
    rewrite lookup_insert_ne; [done|]. intros <-. congruence.
  - (* completion block: the others *)
    pose proof (Hfull _ _ Hl Hact) as Hold.
    rewrite lookup_delete_ne; [done|]. intros <-.
    pose proof (Hfull _ _ Hat eq_refl) as Hmine. congruence.
  - (* forget of another key *)
    apply bool_decide_eq_false_1 in Hsp'.
    rewrite lookup_delete_ne by done. by eapply Hfull.
Qed.

Lemma registry_full_step t (w w' : world) :
  forget_free (ops_of w) -> registry_full w ->
  transition t w w' -> registry_full w'.
Proof.
  intros Hff Hfull Htr t' th' k.
  apply (registry_full_on_step k t w w'); [by apply forget_free_spares| |done].
  intros t0 th0. apply Hfull.
Qed.

(** No forgetting, no reset: the counter is the size of the registry. *)
Definition in_flight_is_size (w : world) : Prop :=
  Stats.in_flight (stats (self w)) = Z.of_nat (size (in_flight (self w))).

Lemma in_flight_is_size_step t (w w' : world) :
  forget_free (ops_of w) -> reset_free (ops_of w) -> registry_full w ->
  in_flight_is_size w -> transition t w w' -> in_flight_is_size w'.
Proof.
  unfold in_flight_is_size. intros Hff Hrf Hfull Hsz Htr.
  destruct Htr as [ | key fn args k Hat Hk | key fn args e Hat Hk
    | key fn args k Hat Hno | key fn args k c Hat Hc | key fn args k c Hat
    | key fn args k c obj errs Hat | key fn args k c Hat
    | key fn args c cell Hat Hc
    | key fn args c b cell Hat Hc Hev | key fn args c b cell Hat Hc
    | Hat | Hat | k Hat | Hat ]; try done.
  all: try (by apply at_pc_elem, Hff in Hat).
  all: try (by apply at_pc_elem in Hat).
  all: try (destruct (stats_store_errors obj errs (self w))
              as (Hrg & _ & _ & _ & Hinf & _); simpl; by rewrite Hrg, Hinf).
  - unfold register. rewrite Hno. simpl.
    rewrite map_size_insert_None by done. lia.
  - unfold register. by rewrite Hc.
  - simpl.
    pose proof (registry_full_at _ _ _ _ k Hfull Hat eq_refl) as Hmine.
    rewrite map_size_delete_Some by eauto.
    assert (size (in_flight (self w)) ≠ 0%nat).
    { intros Hz. apply map_size_empty_inv in Hz. rewrite Hz in Hmine.
      by rewrite lookup_empty in Hmine. }
    lia.
Qed.

(** ** The invariants along schedules *)

Lemma exec_wf sched (w : world) : wf w -> wf (exec sched w).
Proof. apply exec_invariant. intros t w1 w2. apply wf_step. Qed.

Lemma exec_journal sched (w : world) :
  wf w -> journal w -> journal (exec sched w).
Proof.
  intros Hwf Hj.
  apply (exec_invariant (fun w => wf w ∧ journal w)); [|done].
  intros t w1 w2 [? ?] Htr. split; [by eapply wf_step|by eapply journal_step].
Qed.

Lemma exec_ledger sched (w : world) :
  wf w -> reset_free (ops_of w) -> ledger w -> ledger (exec sched w).
Proof.
  intros Hwf Hrf Hl.
  apply (exec_invariant
    (fun w' => wf w' ∧ ops_of w' = ops_of w ∧ ledger w')); [|done].
  intros t w1 w2 (? & Hops & ?) Htr. split; [by eapply wf_step|]. split.
  - by rewrite (ops_of_step _ _ _ Htr).
  - eapply ledger_step; [done| |done..]. unfold reset_free in *. by rewrite Hops.
Qed.

(** The same for one key, when only other keys are forgotten. *)
Lemma exec_registry_full_on K sched (w : world) :
  spares K (ops_of w) -> registry_full_on K w ->
  registry_full_on K (exec sched w).
Proof.
  intros Hsp Hfull.
  apply (exec_invariant
    (fun w' => ops_of w' = ops_of w ∧ registry_full_on K w')); [|done].
  intros t w1 w2 (Hops & ?) Htr. split.
  - by rewrite (ops_of_step _ _ _ Htr).
  - eapply registry_full_on_step; [|done..]. by rewrite Hops.
Qed.

Lemma reachable_registry_full_on K ops (w : world) :
  spares K ops -> reachable ops w -> registry_full_on K w.
Proof.
  intros Hsp [sched ->]. apply exec_registry_full_on.
  - by rewrite ops_of_init.
  - intros t th. apply registry_full_init.
Qed.

Lemma exec_in_flight_is_size sched (w : world) :
  wf w -> forget_free (ops_of w) -> reset_free (ops_of w) ->
  registry_full w -> in_flight_is_size w ->
  in_flight_is_size (exec sched w).
Proof.
  intros Hwf Hff Hrf Hfull Hsz.
  apply (exec_invariant
    (fun w' => wf w' ∧ ops_of w' = ops_of w ∧ registry_full w'
               ∧ in_flight_is_size w')); [|done].
  intros t w1 w2 (? & Hops & ? & ?) Htr. split; [by eapply wf_step|]. split.
  { by rewrite (ops_of_step _ _ _ Htr). }
  split.
  - eapply registry_full_step; [|done..]. by rewrite Hops.
  - eapply in_flight_is_size_step; [| |done..]; unfold reset_free in *;
      by rewrite Hops.
Qed.

Lemma reachable_wf ops (w : world) : reachable ops w -> wf w.
Proof. intros [sched ->]. apply exec_wf, wf_init. Qed.

Lemma reachable_journal ops (w : world) : reachable ops w -> journal w.
Proof. intros [sched ->]. apply exec_journal; [apply wf_init|apply journal_init]. Qed.

Lemma reachable_ledger ops (w : world) :
  reset_free ops -> reachable ops w -> ledger w.
Proof.
  intros Hrf [sched ->]. apply exec_ledger; [apply wf_init| |apply ledger_init].
  by rewrite ops_of_init.
Qed.

Lemma reachable_in_flight_is_size ops (w : world) :
  forget_free ops -> reset_free ops -> reachable ops w -> in_flight_is_size w.
Proof.
  intros Hff Hrf [sched ->].
  apply exec_in_flight_is_size;
    rewrite ?ops_of_init; try done;
    [apply wf_init|apply registry_full_init].
Qed.

Lemma reachable_ops ops (w : world) : reachable ops w -> ops_of w = ops.
Proof. intros [sched ->]. by rewrite ops_of_exec, ops_of_init. Qed.

Lemma reachable_exec ops sched (w : world) :
  reachable ops w -> reachable ops (exec sched w).
Proof. intros [s0 ->]. exists (s0 ++ sched). by rewrite exec_app. Qed.

(** ** What other threads cannot change *)

Lemma transition_other t t' (w w' : world) :
  transition t w w' -> t' ≠ t -> threads w' !! t' = threads w !! t'.
Proof. destruct 1; intros Hne; try done; simpl; by apply lookup_move_ne. Qed.

(** A thread that has returned stays where it is. *)
Definition returned (p : pc) : bool :=
  match p with
  | CallDone _ _ _ | Done _ => true
  | _ => false
  end.

Lemma transition_returned t t' o p (w w' : world) :
  transition t w w' -> at_pc w t' o p -> returned p = true ->
  at_pc w' t' o p.
Proof.
  intros Htr Hat Hret. unfold at_pc in *.
  destruct (decide (t' = t)) as [->|Hne];
    [|by rewrite (transition_other _ _ _ _ Htr Hne)].
  destruct Htr; try done;
    match goal with H : at_pc _ _ _ _ |- _ =>
      unfold at_pc in H; rewrite Hat in H; by simplify_eq/= end.
Qed.

Lemma exec_returned sched t o p (w : world) :
  at_pc w t o p -> returned p = true -> at_pc (exec sched w) t o p.
Proof.
  intros Hat Hret. apply (exec_invariant (fun w => at_pc w t o p)); [|done].
  intros t' w1 w2 Hat' Htr. by eapply transition_returned.
Qed.

Lemma count_only f (l : list thread) t0 th0 :
  l !! t0 = Some th0 ->
  (forall t th, l !! t = Some th -> f th = true -> t = t0) ->
  count f l = b2n (f th0).
Proof.
  revert t0. induction l as [|x l IH]; intros [|t0] Ht0 Honly; simplify_eq/=.
  - assert (count f l = 0) as ->; [|unfold b2n; destruct (f th0); lia].
    apply count_zero. intros i th Hi. destruct (f th) eqn:Hf; [|done].
    by specialize (Honly (S i) th Hi Hf).
  - destruct (f x) eqn:Hfx.
    { by specialize (Honly 0 x eq_refl Hfx). }
    simpl. apply (IH t0); [done|]. intros t th Ht Hf.
    specialize (Honly (S t) th Ht Hf). by injection Honly.
Qed.

Lemma count_split f g (l : list thread) :
  (forall t th, l !! t = Some th -> f th = negb (g th)) ->
  count f l + count g l = length l.
Proof.
  induction l as [|x l IH]; intros Hfg; simpl; [done|].
  rewrite (Hfg 0 x eq_refl).
  assert (count f l + count g l = length l) as <-.
  { apply IH. intros t th Ht. by apply (Hfg (S t)). }
  destruct (g x); simpl; lia.
Qed.

(** ** One outcome per [SyncCall]

    Whoever holds a reference to the call [c] and has returned, returned
    what the thread named [c], the leader, stored, and the leader itself
    what its work produced: in every pool, whatever is forgotten or reset
    meanwhile. *)

Definition fn_call_of (p : pc) : option nat :=
  match p with
  | AtWork _ c | AtErrInc _ c _ _ | AtFinally _ c | AtSet c
  | AtWait c _ | AtUnwrap c _ | CallDone c _ _ => Some c
  | _ => None
  end.

Lemma cell_owner (w : world) c cell :
  wf w -> heap w !! c = Some cell ->
  ∃ key fn args p,
    at_pc w c (OpCall key fn args) p ∧ is_leader (MkThread (OpCall key fn args) p) = true ∧
    fn_call_of p = Some c ∧
    (event cell = true ->
       cell = MkCall (stored c (fn_body fn args)) true ∧
       has_signalled (MkThread (OpCall key fn args) p) = true) ∧
    (event cell = false -> has_signalled (MkThread (OpCall key fn args) p) = false).
Proof.
  intros Hwf Hc.
  destruct (wf_heap _ Hwf c) as [[o p] Hth]; [by eexists|].
  pose proof (wf_threads _ Hwf _ _ Hth) as Hinv.
  unfold thread_inv, call_inv in Hinv. simpl in Hinv.
  destruct o as [key fn args| | |k|]; try (destruct Hinv; congruence).
  exists key, fn, args, p. split; [done|].
  destruct p as [| | | | | |c' []|c' []|c' []|]; simpl;
    try (destruct Hinv; congruence); destruct_and?; simplify_eq/=;
    repeat split; try done; try congruence; intros; simplify_eq/=; done.
Qed.

(** What a caller holding the call [c] gets back: the leader, what its own
    work produced; a follower, what the leader stored. *)
Definition outcome_for (b : bool) (c : nat) (r : completion V E) :=
  if b then unwrap (result_of c r) else unwrap (stored c r).

Lemma outcome_for_caught b c (r : completion V E) :
  escapes r = false -> outcome_for b c r = unwrap (result_of c r).
Proof. intros Hesc. unfold outcome_for. rewrite stored_result by done. by destruct b. Qed.

Lemma outcome_for_unset b c (r : completion V E) :
  outcome_for b c r = LogicError <-> b = false ∧ escapes r = true.
Proof.
  unfold outcome_for, stored, escapes.
  destruct b, r as [v|e]; simpl; try destruct (is_exception e); simpl;
    split; try done; by intros [? ?].
Qed.

Lemma shared_outcome (w : world) t o c b out :
  wf w -> at_pc w t o (CallDone c b out) ->
  ∃ key fn args p,
    at_pc w c (OpCall key fn args) p ∧
    out = outcome_for b c (fn_body fn args).
Proof.
  intros Hwf Hat. pose proof (wf_threads _ Hwf _ _ Hat) as Hinv.
  unfold thread_inv, call_inv in Hinv. simpl in Hinv.
  destruct o as [key fn args| | |k|];
    try (destruct Hinv as [_ [?|[? ?]]]; discriminate).
  destruct b.
  - destruct Hinv as (-> & _ & ->). by exists key, fn, args, (CallDone t true (unwrap (result_of t (fn_body fn args)))).
  - destruct Hinv as (_ & r' & Hcell & ->).
    destruct (cell_owner _ _ _ Hwf Hcell)
      as (key' & fn' & args' & p' & Hat' & _ & _ & Hset & _).
    destruct (Hset eq_refl) as [Heq _]. injection Heq as ->.
    by exists key', fn', args', p'.
Qed.

Lemma follower_cell (w : world) t th c :
  wf w -> threads w !! t = Some th -> is_follower th = true ->
  fn_call_of (t_pc th) = Some c ->
  heap w !! t = None ∧ is_Some (heap w !! c).
Proof.
  intros Hwf Hth Hfol Hc. pose proof (wf_threads _ Hwf _ _ Hth) as Hinv.
  destruct th as [o p]. unfold thread_inv, call_inv, is_follower in *.
  simpl in *.
  destruct p as [| | | | | |c' []|c' []|c' []|]; try discriminate;
    injection Hc as ->;
    (destruct o; [|by destruct Hinv as [_ [?|[? ?]]]..]).
  - done.
  - destruct Hinv as [? [r' ?]]. eauto.
  - destruct Hinv as [? [r' [? ?]]]. eauto.
Qed.

Lemma thread_op ops (w : world) t th :
  reachable ops w -> threads w !! t = Some th -> ops !! t = Some (t_op th).
Proof.
  intros Hr Hth. rewrite <- (reachable_ops _ _ Hr).
  destruct th as [o p]. by eapply ops_of_at.
Qed.

(** A thread that has returned from [call] with a reference to its own
    [SyncCall] was the leader, and returned what its own work produced. *)
Lemma returned_own (w : world) t th :
  wf w -> threads w !! t = Some th ->
  returned (t_pc th) = true -> fn_call_of (t_pc th) = Some t ->
  ∃ key fn args,
    th = MkThread (OpCall key fn args)
           (CallDone t true (unwrap (result_of t (fn_body fn args)))) ∧
    heap w !! t = Some (MkCall (stored t (fn_body fn args)) true).
Proof.
  intros Hwf Hth Hret Hc. pose proof (wf_threads _ Hwf _ _ Hth) as Hinv.
  destruct th as [o p]. unfold thread_inv, call_inv in Hinv. simpl in *.
  destruct p as [| | | | | | | |c b out|]; simplify_eq/=.
  destruct o as [key fn args| | |k|];
    [|by destruct Hinv as [_ [?|[? ?]]]..].
  destruct b.
  - destruct Hinv as (_ & Hcell & ->). by exists key, fn, args.
  - destruct Hinv as (Hnone & r' & Hcell & _). congruence.
Qed.

Lemma active_on_key k c (p : pc) : active_on k c p -> active_key p = Some k.
Proof. by intros [-> | [(? & ? & ->) | ->]]. Qed.

Lemma active_own (w : world) t th k :
  wf w -> threads w !! t = Some th -> active_key (t_pc th) = Some k ->
  fn_call_of (t_pc th) = Some t.
Proof.
  intros Hwf Hth Hk. pose proof (wf_threads _ Hwf _ _ Hth) as Hinv.
  destruct th as [o p]. unfold thread_inv, call_inv in Hinv. simpl in *.
  destruct p; simplify_eq/=;
    (destruct o; [|by destruct Hinv as [_ [?|[? ?]]]..]);
    by destruct Hinv as [-> _].
Qed.

(** ** Every invocation returns

    No reachable state is stuck: a thread that has not returned can move,
    or waits for a leader that can.  So every execution can be continued
    until all invocations have returned. *)

(** An upper bound on the transitions an invocation has left. *)
Definition rank (p : pc) : nat :=
  match p with
  | Enter => 8
  | AtLock _ => 7
  | AtWork _ _ => 6
  | AtErrInc _ _ _ _ => 5
  | AtFinally _ _ => 4
  | AtSet _ => 3
  | AtWait _ _ => 2
  | AtUnwrap _ _ => 1
  | CallDone _ _ _ | Done _ => 0
  end.

Fixpoint todo (l : list thread) : nat :=
  match l with
  | [] => 0
  | th :: l => rank (t_pc th) + todo l
  end.

Lemma todo_insert (l : list thread) i th th' :
  l !! i = Some th ->
  todo (<[i := th']> l) + rank (t_pc th) = todo l + rank (t_pc th').
Proof.
  revert i. induction l as [|x l IH]; intros [|i] Hl; simplify_eq/=; [lia|].
  specialize (IH _ Hl). lia.
Qed.

Lemma todo_move (w : world) t o p p' :
  at_pc w t o p -> rank p' < rank p -> todo (move t o p' w) < todo (threads w).
Proof.
  intros Hat Hlt. pose proof (todo_insert _ _ _ (MkThread o p') Hat) as Hins.
  unfold move. simpl in Hins. lia.
Qed.

(** Whether the thread can move: only [event.wait()] can block. *)
Definition blocked (w : world) (p : pc) : bool :=
  match p with
  | AtWait c _ =>
      match heap w !! c with
      | Some cell => negb (event cell)
      | None => true
      end
  | _ => false
  end.

Lemma step_decreases (w : world) t th :
  wf w -> threads w !! t = Some th ->
  returned (t_pc th) = false -> blocked w (t_pc th) = false ->
  todo (threads (step t w)) < todo (threads w).
Proof.
  intros Hwf Hth Hret Hblk. destruct th as [o p].
  pose proof (wf_threads _ Hwf _ _ Hth) as Hinv.
  unfold thread_inv, call_inv in Hinv. simpl in *.
  unfold step. rewrite Hth. simpl.
  destruct o as [key fn args| | |k|]; simpl.
  - destruct p as [|k|k c|k c obj errs|k c|c|c b|c b|c b out|out]; simpl in *;
      try discriminate; unfold goto; simpl;
      rewrite ?(set_pc_move _ _ _ _ _ Hth).
    + destruct (resolve_key key fn args); simpl;
        rewrite ?(set_pc_move _ _ _ _ _ Hth); eapply todo_move; eauto; simpl; lia.
    + unfold register. destruct (in_flight (self w) !! k); simpl;
        rewrite ?(set_pc_move _ _ _ _ _ Hth); eapply todo_move; eauto; simpl; lia.
    + eapply todo_move; eauto; next_pc_cases; simpl; lia.
    + eapply todo_move; eauto; simpl; lia.
    + eapply todo_move; eauto; simpl; lia.
    + destruct Hinv as [-> ->]. simpl.
      rewrite ?(set_pc_move _ _ _ _ _ Hth).
      eapply todo_move; eauto; next_pc_cases; simpl; lia.
    + destruct (heap w !! c) as [cell|]; [|done].
      destruct (event cell); [|done]. simpl.
      rewrite ?(set_pc_move _ _ _ _ _ Hth). eapply todo_move; eauto; simpl; lia.
    + assert (is_Some (heap w !! c)) as [cell ->].
      { destruct b; [destruct Hinv as (-> & -> & _)|destruct Hinv as [_ [r' ->]]];
          eauto. }
      simpl. rewrite ?(set_pc_move _ _ _ _ _ Hth).
      eapply todo_move; eauto; simpl; lia.
  - destruct Hinv as [_ [-> | [out ->]]]; [|done]. simpl. unfold goto. simpl.
    rewrite ?(set_pc_move _ _ _ _ _ Hth). eapply todo_move; eauto; simpl; lia.
  - destruct Hinv as [_ [-> | [out ->]]]; [|done]. simpl.
    rewrite ?(set_pc_move _ _ _ _ _ Hth). eapply todo_move; eauto; simpl; lia.
  - destruct Hinv as [_ [-> | [out ->]]]; [|done]. simpl.
    rewrite ?(set_pc_move _ _ _ _ _ Hth). eapply todo_move; eauto; simpl; lia.
  - destruct Hinv as [_ [-> | [out ->]]]; [|done]. simpl.
    rewrite ?(set_pc_move _ _ _ _ _ Hth). eapply todo_move; eauto; simpl; lia.
Qed.

(** A thread that is blocked waits for a leader that is not. *)
Lemma blocked_on_leader (w : world) t th :
  wf w -> threads w !! t = Some th -> blocked w (t_pc th) = true ->
  ∃ c thc, threads w !! c = Some thc ∧
    returned (t_pc thc) = false ∧ blocked w (t_pc thc) = false.
Proof.
  intros Hwf Hth Hblk. destruct th as [o p].
  pose proof (wf_threads _ Hwf _ _ Hth) as Hinv.
  unfold thread_inv, call_inv in Hinv. simpl in *.
  destruct p as [| | | | | |c b| | |]; try discriminate. simpl in Hblk.
  destruct o as [key fn args| | |k|];
    [|by destruct Hinv as [_ [?|[? ?]]]..].
  destruct b.
  { destruct Hinv as (-> & Hcell & _). by rewrite Hcell in Hblk. }
  destruct Hinv as [_ [cell Hcell]]. rewrite Hcell in Hblk.
  destruct (cell_owner _ _ _ Hwf Hcell)
    as (key' & fn' & args' & p' & Hat' & Hlead & _ & _ & Hunset).
  exists c, (MkThread (OpCall key' fn' args') p'). split; [done|].
  specialize (Hunset ltac:(by destruct (event cell))).
  unfold is_leader, has_signalled in *. simpl in *.
  by destruct p' as [| | | | | |? []|? []|? []|].
Qed.

Lemma all_returned_or_not (l : list thread) :
  (forall t th, l !! t = Some th -> returned (t_pc th) = true) ∨
  (∃ t th, l !! t = Some th ∧ returned (t_pc th) = false).
Proof.
  induction l as [|x l [IH|(t & th & Hth & Hret)]].
  - left. intros t th Hth. by rewrite lookup_nil in Hth.
  - destruct (returned (t_pc x)) eqn:Hx.
    + left. intros [|t] th Hth; simplify_eq/=; eauto.
    + right. by exists 0, x.
  - right. by exists (S t), th.
Qed.

Lemma returns_eventually (w : world) :
  wf w ->
  ∃ sched, forall t th,
    threads (exec sched w) !! t = Some th -> returned (t_pc th) = true.
Proof.
  intros Hwf. remember (todo (threads w)) as n eqn:Hn.
  revert w Hwf Hn. induction (lt_wf n) as [n _ IH]. intros w Hwf ->.
  destruct (all_returned_or_not (threads w)) as [Hall|(t & th & Hth & Hret)].
  { by exists []. }
  assert (∃ t', todo (threads (step t' w)) < todo (threads w)) as [t' Hlt].
  { destruct (blocked w (t_pc th)) eqn:Hblk.
    - destruct (blocked_on_leader _ _ _ Hwf Hth Hblk)
        as (c & thc & Hthc & Hretc & Hblkc).
      exists c. by eapply step_decreases.
    - exists t. by eapply step_decreases. }
  destruct (IH _ Hlt (step t' w)) as [sched Hsched]; [|done|].
  { eapply wf_step; [done|]. apply step_transition. }
  by exists (t' :: sched).
Qed.

(** ** Calls on one key, amid other traffic *)

(** The key an invocation registers under, if it gets that far. *)
Definition key_of (o : op) : option string :=
  match o with
  | OpCall key fn args =>
      match resolve_key key fn args with
      | Returns k => Some k
      | Raises _ => None
      end
  | _ => None
  end.

(** The reference a follower holds. *)
Definition follows (p : pc) : option nat :=
  match p with
  | AtWait c false | AtUnwrap c false | CallDone c false _ => Some c
  | _ => None
  end.

(** A follower holds the call of a thread with its own key. *)
Definition attached_keys (w : world) : Prop :=
  forall t th c, threads w !! t = Some th -> follows (t_pc th) = Some c ->
    ∃ thc, threads w !! c = Some thc ∧ key_of (t_op thc) = key_of (t_op th).

Lemma key_of_active (w : world) t th k :
  wf w -> threads w !! t = Some th -> active_key (t_pc th) = Some k ->
  key_of (t_op th) = Some k.
Proof.
  intros Hwf Hth Hk. pose proof (wf_threads _ Hwf _ _ Hth) as Hinv.
  destruct th as [o p]. unfold thread_inv, call_inv in Hinv. simpl in *.
  destruct p; simplify_eq/=;
    (destruct o; [|by destruct Hinv as [_ [?|[? ?]]]..]);
    destruct Hinv as (_ & Hres & _); simpl; by rewrite Hres.
Qed.

Lemma move_same_op (w : world) t o p p' c thc :
  at_pc w t o p -> threads w !! c = Some thc ->
  ∃ thc', move t o p' w !! c = Some thc' ∧ t_op thc' = t_op thc.
Proof.
  intros Hat Hc. destruct (decide (c = t)) as [->|Hne].
  - exists (MkThread o p'). split; [by eapply lookup_move_eq|].
    unfold at_pc in Hat. rewrite Hat in Hc. by injection Hc as <-.
  - exists thc. by rewrite lookup_move_ne.
Qed.

Lemma attached_keys_init ops : attached_keys (init ops).
Proof.
  intros t th c Hth. simpl in Hth. rewrite list_lookup_fmap in Hth.
  destruct (ops !! t); [|done]. by injection Hth as <-.
Qed.

Lemma attached_keys_step t (w w' : world) :
  wf w -> attached_keys w -> transition t w w' -> attached_keys w'.
Proof.
  intros Hwf Hatt Htr.
  (* a thread that keeps its reference keeps what it is attached to *)
  assert (forall o p p' t' th' c,
    at_pc w t o p ->
    (follows p' = Some c -> follows p = Some c) ->
    move t o p' w !! t' = Some th' -> follows (t_pc th') = Some c ->
    ∃ thc, move t o p' w !! c = Some thc ∧ key_of (t_op thc) = key_of (t_op th'))
    as Hkeep.
  { intros o p p' t' th' c Hat Himp Hl Hfol.
    apply (lookup_move _ _ _ _ _ _ _ _ Hat) in Hl as [[-> ->]|[Hne Hl]].
    - destruct (Hatt _ _ _ Hat (Himp Hfol)) as (thc & Hthc & Hkey).
      destruct (move_same_op _ _ _ _ p' _ _ Hat Hthc) as (thc' & ? & Hop).
      exists thc'. by rewrite Hop.
    - destruct (Hatt _ _ _ Hl Hfol) as (thc & Hthc & Hkey).
      destruct (move_same_op _ _ _ _ p' _ _ Hat Hthc) as (thc' & ? & Hop).
      exists thc'. by rewrite Hop. }
  destruct Htr as [ | key fn args k Hat Hk | key fn args e Hat Hk
    | key fn args k Hat Hno | key fn args k c Hat Hc | key fn args k c Hat
    | key fn args k c obj errs Hat | key fn args k c Hat
    | key fn args c cell Hat Hc
    | key fn args c b cell Hat Hc Hev | key fn args c b cell Hat Hc
    | Hat | Hat | k Hat | Hat ]; [done|..].
  all: next_pc_cases.
  all: intros t' th' c' Hl Hfol; simpl in Hl.
  all: try (by eapply (Hkeep _ _ _ _ _ _ Hat); [|done..];
              simpl; try destruct b).
  (* registration as a follower *)
  apply (lookup_move _ _ _ _ _ _ _ _ Hat) in Hl as [[-> ->]|[Hne Hl]].
  - simpl in Hfol. injection Hfol as <-.
    destruct (wf_registry _ Hwf _ _ Hc) as (thc & Hthc & Hact).
    apply active_on_key in Hact.
    pose proof (key_of_active _ _ _ _ Hwf Hthc Hact) as Hkc.
    pose proof (wf_threads _ Hwf _ _ Hat) as Hme.
    unfold thread_inv, call_inv in Hme. simpl in Hme. destruct Hme as [Hres _].
    destruct (move_same_op _ _ _ _ (AtWait c false) _ _ Hat Hthc)
      as (thc' & ? & Hop).
    exists thc'. split; [done|]. rewrite Hop, Hkc. simpl. by rewrite Hres.
  - destruct (Hatt _ _ _ Hl Hfol) as (thc & Hthc & Hkey).
    destruct (move_same_op _ _ _ _ (AtWait c false) _ _ Hat Hthc)
      as (thc' & ? & Hop).
    exists thc'. by rewrite Hop.
Qed.

Lemma reachable_attached_keys ops (w : world) :
  reachable ops w -> attached_keys w.
Proof.
  intros [sched ->].
  apply (exec_invariant (fun w => wf w ∧ attached_keys w));
    [|split; [apply wf_init|apply attached_keys_init]].
  intros t w1 w2 [? ?] Htr.
  split; [by eapply wf_step|by eapply attached_keys_step].
Qed.

(** [overlapping_on K] is the moment the calls on [K] are concurrent: every
    one of them has registered, and no leader among them has run its
    completion block yet. *)
Definition overlapping_on (K : string) (w : world) : Prop :=
  forall t th, threads w !! t = Some th -> key_of (t_op th) = Some K ->
    is_active th = true ∨ is_follower th = true.

Definition returned_on (K : string) (w : world) : Prop :=
  forall t th, threads w !! t = Some th -> key_of (t_op th) = Some K ->
    returned (t_pc th) = true.

(** Every call on [K] holds a reference to the call of thread [t0]. *)
Definition led_by_on (K : string) (t0 : nat) (w : world) : Prop :=
  forall t th, threads w !! t = Some th -> key_of (t_op th) = Some K ->
    fn_call_of (t_pc th) = Some t0.

Lemma led_by_on_step K t0 t (w w' : world) :
  led_by_on K t0 w -> transition t w w' -> led_by_on K t0 w'.
Proof.
  intros Hled Htr.
  destruct Htr as [ | key fn args k Hat Hk | key fn args e Hat Hk
    | key fn args k Hat Hno | key fn args k c Hat Hc | key fn args k c Hat
    | key fn args k c obj errs Hat | key fn args k c Hat
    | key fn args c cell Hat Hc
    | key fn args c b cell Hat Hc Hev | key fn args c b cell Hat Hc
    | Hat | Hat | k Hat | Hat ]; [done|..].
  all: intros t' th' Hl HK; simpl in Hl.
  all: apply (lookup_move _ _ _ _ _ _ _ _ Hat) in Hl as [[-> ->]|[Hne Hl]];
    [|by eapply Hled].
  all: pose proof (Hled _ _ Hat HK) as Hme; simpl in Hme; try discriminate.
  all: next_pc_cases; simpl; done.
Qed.

Lemma exec_led_by_on K t0 sched (w : world) :
  led_by_on K t0 w -> led_by_on K t0 (exec sched w).
Proof. apply exec_invariant. intros t w1 w2. apply led_by_on_step. Qed.

Lemma follows_fn_call (th : thread) c :
  is_follower th = true -> fn_call_of (t_pc th) = Some c ->
  follows (t_pc th) = Some c.
Proof.
  unfold is_follower.
  by destruct (t_pc th) as [| | | | | |? []|? []|? []|].
Qed.

Lemma is_active_key (th : thread) :
  is_active th = true -> ∃ k, active_key (t_pc th) = Some k.
Proof. unfold is_active. destruct (t_pc th); intros; simplify_eq/=; eauto. Qed.

Lemma is_follower_fn_call (th : thread) :
  is_follower th = true -> ∃ c, fn_call_of (t_pc th) = Some c.
Proof.
  unfold is_follower.
  destruct (t_pc th) as [| | | | | |? []|? []|? []|]; intros;
    simplify_eq/=; eauto.
Qed.

(** At a moment of overlap, one leader is in flight on [K], and all calls
    on [K] hold its call. *)
Lemma overlap_led_on K ops (w : world) t1 th1 :
  spares K ops -> reachable ops w -> overlapping_on K w ->
  threads w !! t1 = Some th1 -> key_of (t_op th1) = Some K ->
  ∃ t0 th0,
    threads w !! t0 = Some th0 ∧ active_key (t_pc th0) = Some K ∧
    led_by_on K t0 w.
Proof.
  intros Hsp Hreach Hov Hth1 HK1.
  pose proof (reachable_wf _ _ Hreach) as Hwf.
  pose proof (reachable_attached_keys _ _ Hreach) as Hatt.
  pose proof (reachable_registry_full_on _ _ _ Hsp Hreach) as Hfull.
  (* a call on [K] in flight as a leader is registered under [K] *)
  assert (forall t th, threads w !! t = Some th -> key_of (t_op th) = Some K ->
            is_active th = true ->
            active_key (t_pc th) = Some K ∧ fn_call_of (t_pc th) = Some t)
    as Hactive.
  { intros t th Hth HK Hact. destruct (is_active_key _ Hact) as [k Hk].
    pose proof (key_of_active _ _ _ _ Hwf Hth Hk) as Hkey.
    split; [congruence|]. by eapply active_own. }
  (* the call a follower on [K] waits for belongs to a leader in flight *)
  assert (forall t th c, threads w !! t = Some th -> key_of (t_op th) = Some K ->
            is_follower th = true -> fn_call_of (t_pc th) = Some c ->
            ∃ thc, threads w !! c = Some thc ∧ active_key (t_pc thc) = Some K)
    as Hfollow.
  { intros t th c Hth HK Hfol Hc.
    destruct (Hatt _ _ _ Hth (follows_fn_call _ _ Hfol Hc))
      as (thc & Hthc & Hkey).
    exists thc. split; [done|].
    destruct (follower_cell _ _ _ _ Hwf Hth Hfol Hc) as [_ [cell Hcell]].
    destruct (cell_owner _ _ _ Hwf Hcell)
      as (key & fn & args & pc' & Hat & Hlead & _).
    unfold at_pc in Hat. rewrite Hat in Hthc. injection Hthc as <-.
    destruct (Hov _ _ Hat) as [Hact|Hfol']; [congruence| |].
    - by apply (Hactive _ _ Hat); [congruence|].
    - unfold is_leader, is_follower in *. simpl in *.
      by destruct pc' as [| | | | | |? []|? []|? []|]. }
  assert (∃ t0 th0, threads w !! t0 = Some th0 ∧
            active_key (t_pc th0) = Some K) as (t0 & th0 & Ht0 & HK).
  { destruct (Hov _ _ Hth1 HK1) as [Hact|Hfol].
    - exists t1, th1. split; [done|]. by apply (Hactive _ _ Hth1).
    - destruct (is_follower_fn_call _ Hfol) as [c Hc].
      destruct (Hfollow _ _ _ Hth1 HK1 Hfol Hc) as (thc & ? & ?). eauto. }
  exists t0, th0. split; [done|]. split; [done|].
  intros t th Hth HKt. destruct (Hov _ _ Hth HKt) as [Hact|Hfol].
  - destruct (Hactive _ _ Hth HKt Hact) as [Hk ->].
    pose proof (Hfull _ _ Hth Hk) as H1.
    pose proof (Hfull _ _ Ht0 HK) as H2. congruence.
  - destruct (is_follower_fn_call _ Hfol) as [c Hc]. rewrite Hc. f_equal.
    destruct (Hfollow _ _ _ Hth HKt Hfol Hc) as (thc & Hthc & HKc).
    pose proof (Hfull _ _ Hthc HKc) as H1.
    pose proof (Hfull _ _ Ht0 HK) as H2. congruence.
Qed.

(** When every call on [K] holds the call of [t0], itself a call on [K],
    and all of them have returned: [t0] was the leader, it alone invoked
    its work function, once; it returned what its work produced, and the
    others what it stored. *)
Lemma led_by_on_returned K ops (w : world) t0 th0 :
  reachable ops w -> led_by_on K t0 w -> returned_on K w ->
  threads w !! t0 = Some th0 -> key_of (t_op th0) = Some K ->
  ∃ key fn args,
    t_op th0 = OpCall key fn args ∧
    forall t th, threads w !! t = Some th -> key_of (t_op th) = Some K ->
      t_pc th = CallDone t0 (bool_decide (t = t0))
                  (outcome_for (bool_decide (t = t0)) t0 (fn_body fn args)) ∧
      works_of t (trace w) = b2n (bool_decide (t = t0)).
Proof.
  intros Hr Hled Hret Ht0 HK0.
  pose proof (reachable_wf _ _ Hr) as Hwf.
  destruct (returned_own _ _ _ Hwf Ht0 (Hret _ _ Ht0 HK0) (Hled _ _ Ht0 HK0))
    as (key & fn & args & -> & Hcell0).
  exists key, fn, args. split; [done|].
  intros t [o p] Hth HK.
  pose proof (Hled _ _ Hth HK) as Hc. pose proof (Hret _ _ Hth HK) as Hrt.
  simpl in Hc, Hrt.
  rewrite (journal_work _ (reachable_journal _ _ Hr)).
  unfold flag. rewrite Hth.
  case_bool_decide as Heq.
  - subst t. rewrite Ht0 in Hth. by simplify_eq.
  - pose proof (wf_threads _ Hwf _ _ Hth) as Hinv.
    unfold thread_inv, call_inv in Hinv. simpl in *.
    destruct p as [| | | | | | | |c b out|]; simplify_eq/=.
    destruct o; [|by destruct Hinv as [_ [?|[? ?]]]..].
    destruct b; [by destruct Hinv as [? _]|].
    destruct Hinv as (_ & r' & Hr' & ->). split; [|done]. congruence.
Qed.

(** ** Single flight: a pool of calls on one key

    [overlapping] is the moment the calls are concurrent: every one of them
    has registered, and no leader has run its completion block yet. *)

Definition overlapping (w : world) : Prop :=
  forall t th, threads w !! t = Some th ->
    is_active th = true ∨ is_follower th = true.

Definition all_returned (w : world) : Prop :=
  forall t th, threads w !! t = Some th -> returned (t_pc th) = true.

Definition same_key (K : string) (ops : list op) : Prop :=
  forall o, o ∈ ops ->
    ∃ key fn args, o = OpCall key fn args ∧ resolve_key key fn args = Returns K.

Lemma same_key_forget_free K ops : same_key K ops -> forget_free ops.
Proof. intros Hk o Ho. by destruct (Hk o Ho) as (? & ? & ? & -> & _). Qed.

Lemma same_key_reset_free K ops : same_key K ops -> reset_free ops.
Proof. intros Hk Ho. by destruct (Hk _ Ho) as (? & ? & ? & ? & _). Qed.

Lemma same_key_key_of K ops (w : world) t th :
  same_key K ops -> reachable ops w -> threads w !! t = Some th ->
  key_of (t_op th) = Some K.
Proof.
  intros Hsame Hr Hth.
  assert (t_op th ∈ ops) as Ho
    by (eapply list_elem_of_lookup_2; by eapply thread_op).
  destruct (Hsame _ Ho) as (key & fn & args & -> & Hres). simpl.
  by rewrite Hres.
Qed.

Lemma thread_at ops (w : world) t o :
  reachable ops w -> ops !! t = Some o -> ∃ p, at_pc w t o p.
Proof.
  intros Hr Ho. rewrite <- (reachable_ops _ _ Hr) in Ho. unfold ops_of in Ho.
  change (map t_op (threads w)) with (t_op <$> threads w) in Ho.
  rewrite list_lookup_fmap in Ho.
  destruct (threads w !! t) as [[o' p]|] eqn:Hth; simplify_eq/=. by exists p.
Qed.

Lemma returned_counts (w : world) t0 key fn args out :
  at_pc w t0 (OpCall key fn args) (CallDone t0 true (out true)) ->
  (forall t th, threads w !! t = Some th ->
     t_pc th = CallDone t0 (bool_decide (t = t0))
                 (out (bool_decide (t = t0)))) ->
  count is_leader (threads w) = 1 ∧
  count has_worked (threads w) = 1 ∧
  count has_erred (threads w) = b2n (work_raises (OpCall key fn args)) ∧
  count is_active (threads w) = 0 ∧
  count is_follower (threads w) + 1 = length (threads w).
Proof.
  intros Hat0 Hall.
  assert (forall f : thread -> bool,
    (forall o c out, f (MkThread o (CallDone c false out)) = false) ->
    count f (threads w)
    = b2n (f (MkThread (OpCall key fn args) (CallDone t0 true (out true)))))
    as Honly.
  { intros f Hf. apply (count_only _ _ t0); [done|].
    intros t [o p] Hth Hft. specialize (Hall _ _ Hth). simpl in Hall. subst p.
    case_bool_decide; [done|]. by rewrite Hf in Hft. }
  rewrite (Honly is_leader), (Honly has_worked), (Honly has_erred); try done.
  2:{ intros. unfold has_erred. simpl. apply andb_false_r. }
  repeat split.
  - rewrite has_erred_eq. by rewrite andb_true_r.
  - apply count_zero. intros t th Hth. specialize (Hall _ _ Hth).
    unfold is_active. by rewrite Hall.
  - rewrite <- (count_split is_follower is_leader).
    + by rewrite (Honly is_leader).
    + intros t th Hth. specialize (Hall _ _ Hth).
      unfold is_follower, is_leader. rewrite Hall. by case_bool_decide.
Qed.

(** The common part of the single-flight claims: from a moment at which
    all calls of the pool are in flight, to a state in which all have
    returned. *)
Lemma single_flight K ops s1 s2 :
  same_key K ops -> ops ≠ [] ->
  overlapping (exec s1 (init ops)) ->
  all_returned (exec s2 (exec s1 (init ops))) ->
  ∃ t0 key fn args p,
    at_pc (exec s1 (init ops)) t0 (OpCall key fn args) p ∧
    active_key p = Some K ∧
    led_by_on K t0 (exec s1 (init ops)) ∧
    at_pc (exec s2 (exec s1 (init ops))) t0 (OpCall key fn args)
      (CallDone t0 true (unwrap (result_of t0 (fn_body fn args)))) ∧
    forall t th, threads (exec s2 (exec s1 (init ops))) !! t = Some th ->
      t_pc th = CallDone t0 (bool_decide (t = t0))
                  (outcome_for (bool_decide (t = t0)) t0 (fn_body fn args)).
Proof.
  intros Hsame Hne Hov Hret.
  set (w1 := exec s1 (init ops)) in *. set (w := exec s2 w1) in *.
  assert (reachable ops w1) as Hr1 by (by exists s1).
  assert (reachable ops w) as Hr by (by apply reachable_exec).
  destruct ops as [|o1 ops'] eqn:Hops; [done|]. rewrite <- Hops in *.
  assert (ops !! 0 = Some o1) as Ho1 by (by rewrite Hops).
  destruct (thread_at _ _ _ _ Hr1 Ho1) as [p1 Hat1].
  destruct (overlap_led_on K ops w1 0 _
              (forget_free_spares _ _ (same_key_forget_free _ _ Hsame)) Hr1
              ltac:(intros t th Hth _; by apply (Hov t)) Hat1
              (same_key_key_of _ _ _ _ _ Hsame Hr1 Hat1))
    as (t0 & [o0 p0] & Ht0 & HK & Hled).
  pose proof (thread_op _ _ _ _ Hr1 Ht0) as Hop0. simpl in Hop0.
  destruct (thread_at _ _ _ _ Hr Hop0) as [q0 Hq0].
  destruct (led_by_on_returned K ops w t0 _ Hr (exec_led_by_on _ _ _ _ Hled)
              ltac:(intros t th Hth _; by apply (Hret t)) Hq0
              (same_key_key_of _ _ _ _ _ Hsame Hr Hq0))
    as (key & fn & args & Hop & Hall).
  simpl in Hop. subst o0.
  exists t0, key, fn, args, p0. repeat split; try done.
  - destruct (Hall _ _ Hq0 (same_key_key_of _ _ _ _ _ Hsame Hr Hq0))
      as [Hp _].
    simpl in Hp. rewrite bool_decide_eq_true_2 in Hp by done.
    by rewrite Hp in Hq0.
  - intros t th Hth.
    by destruct (Hall _ _ Hth (same_key_key_of _ _ _ _ _ Hsame Hr Hth)).
Qed.

(** The statistics of a pool of calls that have all returned through the
    call of [t0]. *)
Lemma single_flight_stats K ops (w : world) t0 key fn args out :
  same_key K ops -> reachable ops w ->
  at_pc w t0 (OpCall key fn args) (CallDone t0 true (out true)) ->
  (forall t th, threads w !! t = Some th ->
     t_pc th = CallDone t0 (bool_decide (t = t0))
                 (out (bool_decide (t = t0)))) ->
  get_stats (self w)
  = Stats.Build (Z.of_nat (length ops) - 1) 1
      (Z.of_nat (b2n (work_raises (OpCall key fn args)))) 0 ∧
  call_count w = 1 ∧
  in_flight (self w) = ∅.
Proof.
  intros Hsame Hr Hat Hall.
  destruct (returned_counts _ _ _ _ _ _ Hat Hall)
    as (Hlead & Hwork & Herr & Hact & Hfol).
  destruct (reachable_ledger _ _ (same_key_reset_free _ _ Hsame) Hr)
    as [Hh Hm (_ & He & He1 & _) Hi].
  pose proof (reachable_in_flight_is_size _ _
    (same_key_forget_free _ _ Hsame) (same_key_reset_free _ _ Hsame) Hr) as Hsz.
  pose proof (journal_total _ (reachable_journal _ _ Hr)) as Htot.
  assert (length (threads w) = length ops) as Hlen.
  { rewrite <- (reachable_ops _ _ Hr). unfold ops_of. by rewrite length_map. }
  repeat split.
  - unfold get_stats. destruct (stats (self w)) as [h m e i].
    destruct (work_raises (OpCall key fn args)); simpl in *; f_equal; lia.
  - lia.
  - apply map_size_empty_inv. unfold in_flight_is_size in Hsz. lia.
Qed.

(** C1 (coalescing), as the code has it.  A fresh coordinator and any pool of
    invocations in which at least one call is on the key [K] and nothing
    forgets [K] (calls on other keys, [get_stats], [reset_stats] and
    [forget] of other keys may run alongside).  Suppose that at some moment
    all calls on [K] are in flight together (registered, and no leader among
    them past its completion block).  Then the execution can be continued
    until every invocation has returned; and exactly one call on [K], [t0],
    is leader: whenever the calls on [K] have returned, [t0] has invoked its
    work function exactly once, the others never invoked theirs, [t0]
    returned the outcome of that one execution, and so did every one of
    them (the same value, or the same failure instance) when the work
    function returned or raised an [Exception]; if the pool holds nothing
    but these calls, the tests' [call_count] is 1.  At no moment are two
    leaders in flight on [K]. *)
Theorem coalescing_single_flight K ops s1 t1 o1 :
  spares K ops ->
  ops !! t1 = Some o1 -> key_of o1 = Some K ->
  overlapping_on K (exec s1 (init ops)) ->
  (∃ s, all_returned (exec s (exec s1 (init ops)))) ∧
  (∃ t0 key fn args,
     ops !! t0 = Some (OpCall key fn args) ∧
     key_of (OpCall key fn args) = Some K ∧
     forall s2, returned_on K (exec s2 (exec s1 (init ops))) ->
       (forall t th,
          threads (exec s2 (exec s1 (init ops))) !! t = Some th ->
          key_of (t_op th) = Some K ->
          (∃ out,
             t_pc th = CallDone t0 (bool_decide (t = t0)) out ∧
             (t = t0 ∨ escapes (fn_body fn args) = false ->
              out = unwrap (result_of t0 (fn_body fn args)))) ∧
          works_of t (trace (exec s2 (exec s1 (init ops))))
          = if bool_decide (t = t0) then 1 else 0) ∧
       (same_key K ops -> call_count (exec s2 (exec s1 (init ops))) = 1)) ∧
  (forall sched t2 t3 th2 th3,
     threads (exec sched (init ops)) !! t2 = Some th2 ->
     threads (exec sched (init ops)) !! t3 = Some th3 ->
     active_key (t_pc th2) = Some K -> active_key (t_pc th3) = Some K ->
     t2 = t3).
Proof.
  intros Hsp Ho1 HK1 Hov.
  set (w1 := exec s1 (init ops)) in *.
  assert (reachable ops w1) as Hr1 by (by exists s1).
  split; [apply returns_eventually, (reachable_wf ops), Hr1|].
  destruct (thread_at _ _ _ _ Hr1 Ho1) as [p1 Hat1].
  destruct (overlap_led_on K ops w1 t1 _ Hsp Hr1 Hov Hat1 HK1)
    as (t0 & [o0 p0] & Ht0 & HK & Hled).
  pose proof (thread_op _ _ _ _ Hr1 Ht0) as Hop0. simpl in Hop0.
  pose proof (key_of_active _ _ _ _ (reachable_wf _ _ Hr1) Ht0 HK) as HK0.
  simpl in HK0.
  destruct o0 as [key fn args| | |k|]; try discriminate.
  split.
  - exists t0, key, fn, args. split; [done|]. split; [done|].
    intros s2 Hret. set (w := exec s2 w1) in *.
    assert (reachable ops w) as Hr by (by apply reachable_exec).
    destruct (thread_at _ _ _ _ Hr Hop0) as [q0 Hq0].
    destruct (led_by_on_returned K ops w t0 _ Hr (exec_led_by_on _ _ _ _ Hled)
                Hret Hq0 HK0) as (key' & fn' & args' & Hop & Hall).
    simpl in Hop. injection Hop as <- <- <-.
    split.
    { intros t th Hth HKt. destruct (Hall _ _ Hth HKt) as [Hp Hw].
      split; [|done]. eexists. split; [done|].
      intros [->|Hesc].
      - by rewrite bool_decide_eq_true_2.
      - by apply outcome_for_caught. }
    intros Hsame.
    assert (forall t th, threads w !! t = Some th ->
              t_pc th = CallDone t0 (bool_decide (t = t0))
                          (outcome_for (bool_decide (t = t0)) t0
                             (fn_body fn args))) as Hall'.
    { intros t th Hth.
      by destruct (Hall _ _ Hth (same_key_key_of _ _ _ _ _ Hsame Hr Hth)). }
    pose proof (Hall' _ _ Hq0) as Hp0. simpl in Hp0.
    rewrite bool_decide_eq_true_2 in Hp0 by done. subst q0.
    by destruct (single_flight_stats _ _ _ _ _ _ _
                   (fun b => outcome_for b t0 (fn_body fn args))
                   Hsame Hr Hq0 Hall')
      as (_ & ? & _).
  - intros sched t2 t3 th2 th3 Ht2 Ht3 Hk2 Hk3.
    assert (reachable ops (exec sched (init ops))) as Hrs by (by exists sched).
    pose proof (reachable_registry_full_on _ _ _ Hsp Hrs) as Hfull.
    pose proof (Hfull _ _ Ht2 Hk2). pose proof (Hfull _ _ Ht3 Hk3).
    congruence.
Qed.

(** C2 (stats accounting).  In the scenario of C1 with N = [length ops]
    calls that all returned a value, [get_stats] yields [hits = N - 1],
    [misses = 1], [errors = 0] and [in_flight = 0]. *)
Theorem stats_after_single_flight K ops s1 s2 :
  same_key K ops -> ops ≠ [] ->
  overlapping (exec s1 (init ops)) ->
  (forall t th, threads (exec s2 (exec s1 (init ops))) !! t = Some th ->
     ∃ c b v, t_pc th = CallDone c b (Returned v)) ->
  get_stats (self (exec s2 (exec s1 (init ops))))
  = {| Stats.hits := Z.of_nat (length ops) - 1; Stats.misses := 1;
       Stats.errors := 0; Stats.in_flight := 0 |}.
Proof.
  intros Hsame Hne Hov Hvals.
  assert (all_returned (exec s2 (exec s1 (init ops)))) as Hret.
  { intros t th Hth. by destruct (Hvals _ _ Hth) as (c & b & v & ->). }
  destruct (single_flight _ _ _ _ Hsame Hne Hov Hret)
    as (t0 & key & fn & args & p & Hat1 & HK & Hled & Hat & Hall).
  assert (reachable ops (exec s2 (exec s1 (init ops)))) as Hr.
  { apply reachable_exec. by exists s1. }
  destruct (single_flight_stats _ _ _ _ _ _ _
              (fun b => outcome_for b t0 (fn_body fn args)) Hsame Hr Hat Hall)
    as (-> & _ & _).
  destruct (Hvals _ _ Hat) as (c & b & v & Hv). simpl in Hv.
  injection Hv as _ _ Hv. unfold work_raises, caught.
  by destruct (fn_body fn args).
Qed.

(** C3 (error propagation), as the code has it.  In the scenario of C1, with a
    pool of nothing but calls on [K]: if the work of the leader in flight,
    [t0], raises [e], an instance of [Exception], the execution can be
    continued until all have returned, and whenever all have returned,
    every invocation, leader and followers alike, has raised the failure
    instance created in [t0]'s execution; [errors] is 1 whatever the number
    of followers; and the key is no longer registered, so that the
    registration block of any later call elects a new leader. *)
Theorem failure_shared_and_counted_once K ops s1 t0 key fn args p e :
  same_key K ops ->
  overlapping (exec s1 (init ops)) ->
  at_pc (exec s1 (init ops)) t0 (OpCall key fn args) p ->
  active_key p = Some K ->
  fn_body fn args = Raises e ->
  is_exception e = true ->
  (∃ s, all_returned (exec s (exec s1 (init ops)))) ∧
  forall s2, all_returned (exec s2 (exec s1 (init ops))) ->
    (forall t th, threads (exec s2 (exec s1 (init ops))) !! t = Some th ->
       t_pc th = CallDone t0 (bool_decide (t = t0)) (Raised t0 e)) ∧
    Stats.errors (get_stats (self (exec s2 (exec s1 (init ops))))) = 1%Z ∧
    in_flight (self (exec s2 (exec s1 (init ops)))) !! K = None ∧
    (forall t', (register K t' (self (exec s2 (exec s1 (init ops))))).2 = true).
Proof.
  intros Hsame Hov Hat0 HK0 Hbody Hexc.
  assert (reachable ops (exec s1 (init ops))) as Hr1 by (by exists s1).
  split; [apply returns_eventually, (reachable_wf ops), Hr1|].
  intros s2 Hret.
  assert (ops ≠ []) as Hne.
  { intros ->. apply at_pc_elem in Hat0.
    rewrite ops_of_exec, ops_of_init in Hat0. by apply elem_of_nil in Hat0. }
  destruct (single_flight _ _ _ _ Hsame Hne Hov Hret)
    as (t0' & key' & fn' & args' & p' & Hat1 & HK & Hled & Hat & Hall).
  assert (reachable ops (exec s2 (exec s1 (init ops)))) as Hr
    by (by apply reachable_exec).
  (* the leader in flight is unique *)
  assert (t0' = t0) as ->.
  { pose proof (Hled _ _ Hat0 (same_key_key_of _ _ _ _ _ Hsame Hr1 Hat0))
      as H1.
    pose proof (active_own _ _ _ _ (reachable_wf _ _ Hr1) Hat0 HK0) as H2.
    simpl in H1, H2. congruence. }
  unfold at_pc in Hat0, Hat1. rewrite Hat0 in Hat1. simplify_eq.
  assert (escapes (fn_body fn' args') = false) as Hesc.
  { rewrite Hbody. simpl. by rewrite Hexc. }
  destruct (single_flight_stats _ _ _ _ _ _ _
              (fun b => outcome_for b t0 (fn_body fn' args')) Hsame Hr Hat Hall)
    as (Hstats & _ & Hempty).
  split.
  { intros t th Hth. rewrite (Hall _ _ Hth).
    rewrite outcome_for_caught by done. by rewrite Hbody. }
  split.
  { rewrite Hstats. simpl. by rewrite Hbody; simpl; rewrite Hexc. }
  assert (in_flight (self (exec s2 (exec s1 (init ops)))) !! K = None) as Hnone
    by (by rewrite Hempty, lookup_empty).
  split; [done|]. intros t'. unfold register. by rewrite Hnone.
Qed.

(** ** Key resolution *)

Lemma resolve_key_falsy key fn args :
  key_is_falsy key = true -> resolve_key key fn args = derive_key fn args.
Proof. unfold resolve_key. by intros ->. Qed.

Lemma resolve_key_explicit k fn args :
  k ≠ "" -> resolve_key (Some k) fn args = Returns k.
Proof.
  intros Hk. unfold resolve_key, key_is_falsy.
  by rewrite bool_decide_eq_false_2.
Qed.

Lemma step_at_enter (w : world) t key fn args :
  at_pc w t (OpCall key fn args) Enter ->
  step t w =
  match resolve_key key fn args with
  | Returns k =>
      MkWorld (self w) (heap w) (move t (OpCall key fn args) (AtLock k) w)
        (trace w)
  | Raises e =>
      MkWorld (self w) (heap w)
        (move t (OpCall key fn args) (Done (Raised t e)) w) (trace w)
  end.
Proof.
  intros Hat. unfold step. unfold at_pc in Hat. rewrite Hat. simpl.
  destruct (resolve_key key fn args); unfold goto;
    by rewrite (set_pc_move _ _ _ _ _ Hat).
Qed.

Lemma step_at_lock (w : world) t key fn args k :
  at_pc w t (OpCall key fn args) (AtLock k) ->
  step t w =
  match in_flight (self w) !! k with
  | Some c =>
      MkWorld (register k t (self w)).1.1 (heap w)
        (move t (OpCall key fn args) (AtWait c false) w) (trace w)
  | None =>
      MkWorld (register k t (self w)).1.1
        (<[t := MkCall Unset false]> (heap w))
        (move t (OpCall key fn args) (AtWork k t) w) (trace w)
  end.
Proof.
  intros Hat. unfold step. unfold at_pc in Hat. rewrite Hat. simpl.
  unfold register. destruct (in_flight (self w) !! k); simpl;
    by rewrite (set_pc_move _ _ _ _ _ Hat).
Qed.

Lemma step_at_work (w : world) t key fn args k c :
  at_pc w t (OpCall key fn args) (AtWork k c) ->
  step t w =
  MkWorld (self w)
    (<[c := MkCall (stored t (fn_body fn args)) false]> (heap w))
    (move t (OpCall key fn args)
       (after_work k c (self w) (fn_body fn args)) w)
    (EvWork t :: trace w).
Proof.
  intros Hat. unfold step. unfold at_pc in Hat. rewrite Hat. simpl.
  by rewrite (set_pc_move _ _ _ _ _ Hat).
Qed.

Lemma step_at_finally (w : world) t key fn args k c :
  at_pc w t (OpCall key fn args) (AtFinally k c) ->
  step t w =
  MkWorld (complete k (self w)) (heap w)
    (move t (OpCall key fn args) (AtSet c) w) (trace w).
Proof.
  intros Hat. unfold step. unfold at_pc in Hat. rewrite Hat. simpl.
  by rewrite (set_pc_move _ _ _ _ _ Hat).
Qed.

Lemma step_at_set (w : world) t key fn args c cell :
  at_pc w t (OpCall key fn args) (AtSet c) ->
  heap w !! c = Some cell ->
  step t w =
  MkWorld (self w) (<[c := MkCall (result cell) true]> (heap w))
    (move t (OpCall key fn args) (after_set t c (fn_body fn args)) w)
    (EvSet c :: trace w).
Proof.
  intros Hat Hc. unfold step. unfold at_pc in Hat. rewrite Hat. simpl.
  by rewrite Hc, (set_pc_move _ _ _ _ _ Hat).
Qed.

(** C4 (explicit keys), as the code has it.  An explicit key that is not
    the empty string is the key of the call, unchanged: the registration
    block looks it up and, if it is free, registers the call under it.
    With no key, or with the empty string, the key is derived:
    [module.name:fingerprint]. *)
Theorem explicit_key_used_unless_empty (w : world) t key fn args :
  at_pc w t (OpCall key fn args) Enter ->
  (forall k, key = Some k -> k ≠ "" ->
     resolve_key key fn args = Returns k ∧
     at_pc (step t w) t (OpCall key fn args) (AtLock k) ∧
     match in_flight (self w) !! k with
     | Some c =>
         at_pc (exec [t; t] w) t (OpCall key fn args) (AtWait c false) ∧
         in_flight (self (exec [t; t] w)) = in_flight (self w)
     | None =>
         at_pc (exec [t; t] w) t (OpCall key fn args) (AtWork k t) ∧
         in_flight (self (exec [t; t] w)) = <[k := t]> (in_flight (self w))
     end) ∧
  (key = None ∨ key = Some "" ->
     resolve_key key fn args =
     match generate_key args with
     | Returns fingerprint =>
         Returns (fn_module fn +:+ "." +:+ fn_name fn +:+ ":" +:+ fingerprint)
     | Raises e => Raises e
     end).
Proof.
  intros Hat. split.
  - intros k -> Hk. pose proof (resolve_key_explicit k fn args Hk) as Hres.
    split; [done|].
    pose proof (step_at_enter _ _ _ _ _ Hat) as Hstep. rewrite Hres in Hstep.
    assert (at_pc (step t w) t (OpCall (Some k) fn args) (AtLock k)) as Hat'.
    { rewrite Hstep. unfold at_pc. simpl. by eapply lookup_move_eq. }
    split; [done|]. simpl.
    assert (self (step t w) = self w) as Hself by (by rewrite Hstep).
    rewrite (step_at_lock _ _ _ _ _ _ Hat'), Hself.
    unfold register.
    destruct (in_flight (self w) !! k) as [c|]; simpl; (split; [|done]);
      unfold at_pc; by eapply lookup_move_eq.
  - intros [->| ->]; reflexivity.
Qed.

(** C9 (key derivation raises).  When no usable key is given and
    [generate_key] raises, the exception goes to that caller alone; the
    coordinator, the heap and every other thread are as before, and the
    caller's work function is not invoked, then or later. *)
Theorem key_derivation_failure ops (w : world) t key fn args e sched :
  reachable ops w ->
  at_pc w t (OpCall key fn args) Enter ->
  key_is_falsy key = true ->
  generate_key args = Raises e ->
  self (step t w) = self w ∧
  heap (step t w) = heap w ∧
  trace (step t w) = trace w ∧
  (forall t', t' ≠ t -> threads (step t w) !! t' = threads w !! t') ∧
  at_pc (exec sched (step t w)) t (OpCall key fn args) (Done (Raised t e)) ∧
  works_of t (trace (exec sched (step t w))) = 0.
Proof.
  intros Hr Hat Hfalsy Hgen.
  pose proof (step_at_enter _ _ _ _ _ Hat) as Hstep.
  rewrite (resolve_key_falsy _ _ _ Hfalsy) in Hstep.
  unfold derive_key in Hstep. rewrite Hgen in Hstep.
  assert (at_pc (exec sched (step t w)) t (OpCall key fn args)
            (Done (Raised t e))) as Hdone.
  { apply exec_returned; [|done]. rewrite Hstep. unfold at_pc. simpl.
    by eapply lookup_move_eq. }
  repeat split; try done; try (by rewrite Hstep).
  - intros t' Hne. rewrite Hstep. simpl. by apply lookup_move_ne.
  - assert (reachable ops (exec sched (step t w))) as Hr'.
    { apply (reachable_exec ops (t :: sched)) in Hr. exact Hr. }
    rewrite (journal_work _ (reachable_journal _ _ Hr')).
    by rewrite (flag_at _ _ _ _ _ Hdone).
Qed.

(** ** Completion of a leader *)

(** A call whose event is set never changes again. *)
Lemma frozen_step t (w w' : world) c r :
  wf w -> heap w !! c = Some (MkCall r true) -> transition t w w' ->
  heap w' !! c = Some (MkCall r true).
Proof.
  intros Hwf Hc Htr.
  destruct Htr as [ | key fn args k Hat Hk | key fn args e Hat Hk
    | key fn args k Hat Hno | key fn args k c' Hat Hc' | key fn args k c' Hat
    | key fn args k c' obj errs Hat | key fn args k c' Hat
    | key fn args c' cell Hat Hc'
    | key fn args c' b cell Hat Hc' Hev | key fn args c' b cell Hat Hc'
    | Hat | Hat | k Hat | Hat ]; try done; simpl.
  all: pose proof (wf_threads _ Hwf _ _ Hat) as Hme;
    unfold thread_inv, call_inv in Hme; simpl in Hme; destruct_and?; subst.
  all: rewrite lookup_insert_ne; [done|]; intros <-; congruence.
Qed.

Lemma exec_frozen sched (w : world) c r :
  wf w -> heap w !! c = Some (MkCall r true) ->
  heap (exec sched w) !! c = Some (MkCall r true).
Proof.
  intros Hwf Hc.
  apply (exec_invariant
    (fun w' => wf w' ∧ heap w' !! c = Some (MkCall r true))); [|done].
  intros t w1 w2 [? ?] Htr. split; [by eapply wf_step|by eapply frozen_step].
Qed.

(** A set event has been set exactly once. *)
Lemma signalled_once ops (w : world) c r :
  reachable ops w -> heap w !! c = Some (MkCall r true) ->
  signals_of c (trace w) = 1.
Proof.
  intros Hr Hc.
  destruct (cell_owner _ _ _ (reachable_wf _ _ Hr) Hc)
    as (key & fn & args & p & Hat & _ & _ & Hset & _).
  destruct (Hset eq_refl) as [_ Hsig].
  rewrite (journal_set _ (reachable_journal _ _ Hr)).
  by rewrite (flag_at _ _ _ _ _ Hat), Hsig.
Qed.

(** C6 (the in-flight counter), as the code has it.  As long as
    [reset_stats] is not invoked, [in_flight] is the number of leaders that
    have registered and not yet run their completion block, so it is never
    negative; if moreover nothing is forgotten, it is the number of keys in
    the registry. *)
Theorem in_flight_counts_registry ops (w : world) :
  reset_free ops -> reachable ops w ->
  Stats.in_flight (get_stats (self w))
  = Z.of_nat (count is_active (threads w)) ∧
  (0 <= Stats.in_flight (get_stats (self w)))%Z ∧
  (forget_free ops ->
   Stats.in_flight (get_stats (self w))
   = Z.of_nat (size (in_flight (self w)))).
Proof.
  intros Hrf Hr.
  pose proof (ledger_in_flight _ (reachable_ledger _ _ Hrf Hr)) as Hi.
  unfold get_stats. split; [done|]. split; [lia|].
  intros Hff. by apply (reachable_in_flight_is_size ops).
Qed.

(** C8 (no attaching after resolution).  In every reachable state: a call
    that registers either finds an entry, and then the call it attaches to
    has not been signalled, or finds none, becomes the leader of a call of
    its own and invokes its work function.  And a leader's completion block
    leaves its key unregistered while its event is still unset. *)
Theorem no_attach_after_resolution ops (w : world) :
  reachable ops w ->
  (forall t key fn args k,
     at_pc w t (OpCall key fn args) (AtLock k) ->
     match in_flight (self w) !! k with
     | Some c =>
         at_pc (step t w) t (OpCall key fn args) (AtWait c false) ∧
         ∃ r, heap w !! c = Some (MkCall r false)
     | None =>
         at_pc (step t w) t (OpCall key fn args) (AtWork k t) ∧
         call_count (exec [t; t] w) = S (call_count w)
     end) ∧
  (forall t key fn args k c,
     at_pc w t (OpCall key fn args) (AtFinally k c) ->
     in_flight (self (step t w)) !! k = None ∧
     ∃ r, heap (step t w) !! c = Some (MkCall r false)).
Proof.
  intros Hr. pose proof (reachable_wf _ _ Hr) as Hwf. split.
  - intros t key fn args k Hat.
    pose proof (step_at_lock _ _ _ _ _ _ Hat) as Hstep.
    destruct (in_flight (self w) !! k) as [c|] eqn:Hk.
    + split; [|by eapply registry_cell].
      rewrite Hstep. unfold at_pc. simpl. by eapply lookup_move_eq.
    + assert (at_pc (step t w) t (OpCall key fn args) (AtWork k t)) as Hat1.
      { rewrite Hstep. unfold at_pc. simpl. by eapply lookup_move_eq. }
      split; [done|]. simpl.
      rewrite (step_at_work _ _ _ _ _ _ _ Hat1). unfold call_count. simpl.
      by rewrite Hstep.
  - intros t key fn args k c Hat.
    pose proof (step_at_finally _ _ _ _ _ _ _ Hat) as Hstep.
    rewrite Hstep. simpl. split; [by rewrite lookup_delete_eq|].
    pose proof (wf_threads _ Hwf _ _ Hat) as Hinv.
    unfold thread_inv, call_inv in Hinv. simpl in Hinv.
    destruct Hinv as (-> & _ & Hcell). eauto.
Qed.

(** ** [reset_stats] while a call is in flight *)





(** ** Forgetting a key in mid-flight

    The pool of the forget scenario: thread 0 is the long-running leader,
    thread 1 forgets the key, thread 2 is the call issued after that, and
    the threads from 3 on are followers of thread 0. *)

Definition forget_pool (K : string) (call1 call2 : op) (followers : list op)
  : list op :=
  call1 :: OpForget K :: call2 :: followers.

(** The state of affairs once the key has been forgotten. *)
Record forgotten (K : string) (call2 : op) (w : world) : Prop := MkForgotten
  { fg_leader : ∃ th, threads w !! 0 = Some th ∧ fn_call_of (t_pc th) = Some 0;
    fg_forget : ∃ th, threads w !! 1 = Some th ∧ returned (t_pc th) = true;
    fg_second : ∃ p, at_pc w 2 call2 p ∧
      (p = Enter ∨ p = AtLock K ∨ fn_call_of p = Some 2);
    fg_followers : forall t th, 3 <= t -> threads w !! t = Some th ->
      fn_call_of (t_pc th) = Some 0 ∧ is_follower th = true;
    fg_registry : forall k c, in_flight (self w) !! k = Some c -> c = 2 }.

Lemma forgotten_step K key2 fn2 args2 t (w w' : world) :
  resolve_key key2 fn2 args2 = Returns K ->
  forgotten K (OpCall key2 fn2 args2) w -> transition t w w' ->
  forgotten K (OpCall key2 fn2 args2) w'.
Proof.
  intros Hres [(th0 & Hth0 & Hc0) (th1 & Hth1 & Hr1) (p2 & Hat2 & Hp2) Hfol Hreg]
    Htr.
  destruct Htr as [ | key fn args k Hat Hk | key fn args e Hat Hk
    | key fn args k Hat Hno | key fn args k c Hat Hc | key fn args k c Hat
    | key fn args k c obj errs Hat | key fn args k c Hat
    | key fn args c cell Hat Hc
    | key fn args c b cell Hat Hc Hev | key fn args c b cell Hat Hc
    | Hat | Hat | k Hat | Hat ]; [by split; eauto|..].
  all: unfold at_pc in Hat, Hat2.
  (* which thread moves *)
  all: assert (t = 0 ∨ t = 1 ∨ t = 2 ∨ 3 <= t) as Ht by lia.
  all: destruct Ht as [-> | [-> | [-> | Ht]]].
  all: try (rewrite Hth0 in Hat; simplify_eq/=).
  all: try (rewrite Hth1 in Hat; simplify_eq/=).
  all: try (rewrite Hat2 in Hat; simplify_eq/=;
            destruct Hp2 as [?|[?|?]]; simplify_eq/=).
  all: try (destruct (Hfol _ _ Ht Hat) as [Hcf Hff];
            unfold is_follower in Hff; simpl in Hcf, Hff; simplify_eq/=).
  all: try (rewrite Hres in Hk; simplify_eq).
  all: try (pose proof (Hreg _ _ Hc); subst).
  all: next_pc_cases.
  all: split; unfold at_pc, move; simpl; rewrite ?in_flight_store_errors;
    rewrite ?list_lookup_insert_ne by lia;
    rewrite ?list_lookup_insert_eq by (by eapply lookup_lt_Some); eauto.
  all: try (intros t' th' Ht' Hl';
            destruct (decide (t' = t)) as [->|Hne];
            [ rewrite list_lookup_insert_eq in Hl' by (by eapply lookup_lt_Some);
              simplify_eq/=; try lia; eauto
            | rewrite list_lookup_insert_ne in Hl' by done; eauto ]).
  all: try (intros t' th' Ht' Hl';
            rewrite list_lookup_insert_ne in Hl' by lia; eauto).
  all: try (eexists; split; [done|]; simpl; try destruct (fn_body _ _); eauto).
  all: try (intros k' c'; unfold register; rewrite ?Hno, ?Hc; simpl;
            rewrite ?lookup_insert, ?lookup_delete; repeat case_decide;
            intros; simplify_eq/=; eauto).
  all: try (by rewrite lookup_empty in *).
Qed.

Lemma exec_forgotten K key2 fn2 args2 sched (w : world) :
  resolve_key key2 fn2 args2 = Returns K ->
  forgotten K (OpCall key2 fn2 args2) w ->
  forgotten K (OpCall key2 fn2 args2) (exec sched w).
Proof.
  intros Hres. apply exec_invariant. intros t w1 w2.
  by apply forgotten_step.
Qed.

(** C7 (forget), as the code has it.  In any state, [forget K] removes the
    entry of [K], if there is one, and nothing else: the entries of the
    other keys, the counters, the [Stats] object, the calls in flight, the
    trace and all other threads are as before; and a call on [K] that
    registers next finds no entry and leads.  In the forget scenario
    (thread 0 leads a call on [K] and is in flight, the threads from 3 on
    wait for it, thread 1 forgets [K], and thread 2 calls on [K] only after
    that) the execution can be continued until all have returned, and
    whenever they have: thread 0 has the outcome of its own work, and so
    have its followers when that work returned or raised an [Exception];
    thread 2 has led a call of its own and has the outcome of its own work;
    and a work function has been invoked exactly twice. *)
Theorem forget_mid_flight (w1 : world) r K :
  at_pc w1 r (OpForget K) Enter ->
  (in_flight (self (step r w1)) = delete K (in_flight (self w1)) ∧
   in_flight (self (step r w1)) !! K = None ∧
   (forall k, k ≠ K ->
      in_flight (self (step r w1)) !! k = in_flight (self w1) !! k) ∧
   stats (self (step r w1)) = stats (self w1) ∧
   stats_id (self (step r w1)) = stats_id (self w1) ∧
   heap (step r w1) = heap w1 ∧
   trace (step r w1) = trace w1 ∧
   at_pc (step r w1) r (OpForget K) (Done NoValue) ∧
   forall t, t ≠ r -> threads (step r w1) !! t = threads w1 !! t) ∧
  (forall t key fn args,
     at_pc (step r w1) t (OpCall key fn args) (AtLock K) ->
     at_pc (step t (step r w1)) t (OpCall key fn args) (AtWork K t)) ∧
  forall key1 fn1 args1 key2 fn2 args2 followers p0 p2,
    r = 1 ->
    reachable
      (forget_pool K (OpCall key1 fn1 args1) (OpCall key2 fn2 args2)
         followers) w1 ->
    resolve_key key2 fn2 args2 = Returns K ->
    at_pc w1 0 (OpCall key1 fn1 args1) p0 -> active_key p0 = Some K ->
    at_pc w1 2 (OpCall key2 fn2 args2) p2 -> p2 = Enter ∨ p2 = AtLock K ->
    (forall t th, 3 <= t -> threads w1 !! t = Some th ->
       t_pc th = AtWait 0 false) ->
    (∃ s, all_returned (exec s (step 1 w1))) ∧
    forall s2, all_returned (exec s2 (step 1 w1)) ->
      at_pc (exec s2 (step 1 w1)) 0 (OpCall key1 fn1 args1)
        (CallDone 0 true (unwrap (result_of 0 (fn_body fn1 args1)))) ∧
      at_pc (exec s2 (step 1 w1)) 2 (OpCall key2 fn2 args2)
        (CallDone 2 true (unwrap (result_of 2 (fn_body fn2 args2)))) ∧
      (forall t th, 3 <= t -> threads (exec s2 (step 1 w1)) !! t = Some th ->
         ∃ out,
           t_pc th = CallDone 0 false out ∧
           (escapes (fn_body fn1 args1) = false ->
            out = unwrap (result_of 0 (fn_body fn1 args1)))) ∧
      call_count (exec s2 (step 1 w1)) = 2.
Proof.
  intros Hatr.
  assert (step r w1 = MkWorld (forget K (self w1)) (heap w1)
            (move r (OpForget K) (Done NoValue) w1) (trace w1)) as Hstep.
  { unfold step. unfold at_pc in Hatr. rewrite Hatr. simpl.
    by rewrite (set_pc_move _ _ _ _ _ Hatr). }
  assert (in_flight (self (step r w1)) !! K = None) as Hgone.
  { rewrite Hstep. simpl. by rewrite lookup_delete_eq. }
  split.
  { split; [by rewrite Hstep|]. split; [done|].
    rewrite Hstep. simpl. repeat split.
    - intros k Hne. by rewrite lookup_delete_ne.
    - unfold at_pc. simpl. by eapply lookup_move_eq.
    - intros t Hne. by apply lookup_move_ne. }
  split.
  { intros t key fn args Hat.
    rewrite (step_at_lock _ _ _ _ _ _ Hat), Hgone.
    unfold at_pc. simpl. by eapply lookup_move_eq. }
  intros key1 fn1 args1 key2 fn2 args2 followers p0 p2
    -> Hr1 Hres Hat0 HK0 Hat2 Hp2 Hfol.
  rename Hatr into Hat1.
  pose proof (reachable_wf _ _ Hr1) as Hwf1.
  (* the state right after the forget *)
  assert (forgotten K (OpCall key2 fn2 args2) (step 1 w1)) as Hfg.
  { rewrite Hstep. split; simpl; unfold at_pc; simpl.
    - eexists. rewrite lookup_move_ne by done. split; [exact Hat0|].
      by apply (active_own _ _ _ _ Hwf1 Hat0 HK0).
    - eexists. split; [by eapply lookup_move_eq|done].
    - exists p2. rewrite lookup_move_ne by done. split; [done|].
      destruct Hp2; auto.
    - intros t th Ht Hl. rewrite lookup_move_ne in Hl by lia.
      unfold is_follower. by rewrite (Hfol _ _ Ht Hl).
    - intros k c Hk. apply lookup_delete_Some in Hk as [Hne Hk].
      destruct (wf_registry _ Hwf1 _ _ Hk) as (th & Hth & Hact).
      apply active_on_key in Hact. exfalso.
      assert (c = 0 ∨ c = 1 ∨ c = 2 ∨ 3 <= c) as [-> | [-> | [-> | Hc]]] by lia.
      + unfold at_pc in Hat0. rewrite Hat0 in Hth. by simplify_eq/=.
      + unfold at_pc in Hat1. rewrite Hat1 in Hth. by simplify_eq/=.
      + unfold at_pc in Hat2. rewrite Hat2 in Hth.
        by destruct Hp2; simplify_eq/=.
      + by rewrite (Hfol _ _ Hc Hth) in Hact. }
  split.
  { apply returns_eventually, (reachable_wf _ _ (reachable_exec _ [1] _ Hr1)). }
  (* the final state *)
  intros s2 Hret.
  pose proof (exec_forgotten _ _ _ _ s2 _ Hres Hfg) as Hfin.
  set (w := exec s2 (step 1 w1)) in *.
  assert (reachable
    (forget_pool K (OpCall key1 fn1 args1) (OpCall key2 fn2 args2) followers)
    w) as Hr.
  { apply (reachable_exec _ (1 :: s2)) in Hr1. exact Hr1. }
  pose proof (reachable_wf _ _ Hr) as Hwf.
  destruct Hfin as [(th0 & Hth0 & Hc0) (th1 & Hth1 & Hret1)
                      (q2 & Hq2 & Hq2') Hfol' _].
  destruct (returned_own _ _ _ Hwf Hth0 (Hret _ _ Hth0) Hc0)
    as (key & fn & args & -> & Hcell0).
  pose proof (thread_op _ _ _ _ Hr Hth0) as Hop0. simpl in Hop0.
  injection Hop0 as <- <- <-.
  assert (fn_call_of q2 = Some 2) as Hc2.
  { pose proof (Hret _ _ Hq2) as Hret2. simpl in Hret2.
    by destruct Hq2' as [-> | [-> | ?]]. }
  destruct (returned_own _ _ _ Hwf Hq2 (Hret _ _ Hq2) Hc2)
    as (key & fn & args & Heq & _).
  injection Heq as <- <- <- ->.
  assert (forall t th, 3 <= t -> threads w !! t = Some th ->
            t_pc th = CallDone 0 false (unwrap (stored 0 (fn_body fn1 args1))))
    as Hfollowers.
  { intros t [o p] Ht Hth. destruct (Hfol' _ _ Ht Hth) as [Hc Hf].
    pose proof (Hret _ _ Hth) as Hrt.
    pose proof (wf_threads _ Hwf _ _ Hth) as Hinv.
    unfold thread_inv, call_inv, is_follower in *. simpl in *.
    destruct p as [| | | | | | | |c [] out|]; simplify_eq/=.
    destruct o; [|by destruct Hinv as [_ [?|[? ?]]]..].
    destruct Hinv as (_ & r' & Hr' & ->). congruence. }
  assert (has_worked th1 = false) as Hw1.
  { pose proof (thread_op _ _ _ _ Hr Hth1) as Hop1. simpl in Hop1.
    injection Hop1 as Hop1.
    pose proof (wf_threads _ Hwf _ _ Hth1) as Hinv1.
    unfold thread_inv in Hinv1. rewrite <- Hop1 in Hinv1.
    unfold has_worked. by destruct Hinv1 as [_ [-> | [out ->]]]. }
  split; [done|]. split; [done|].
  split.
  { intros t th Ht Hth. eexists. split; [by apply (Hfollowers t)|].
    intros Hesc. by rewrite stored_result. }
  (* two invocations *)
  rewrite (journal_total _ (reachable_journal _ _ Hr)).
  unfold at_pc in *.
  destruct (threads w) as [|a [|b [|c rest]]] eqn:Hths; simplify_eq/=.
  assert (count has_worked rest = 0) as ->.
  { apply count_zero. intros i th Hi.
    assert (t_pc th = CallDone 0 false (unwrap (stored 0 (fn_body fn1 args1))))
      as Hp by (apply (Hfollowers (3 + i)); [lia|done]).
    unfold has_worked. by rewrite Hp. }
  by rewrite Hw1.
Qed.

(** ** Deciding the hypotheses on concrete worlds *)

Definition has_key (K : string) (o : op) : bool :=
  match o with
  | OpCall key fn args =>
      match resolve_key key fn args with
      | Returns k => bool_decide (k = K)
      | Raises _ => false
      end
  | _ => false
  end.

Lemma same_key_check K ops : forallb (has_key K) ops = true -> same_key K ops.
Proof.
  intros Hall o Ho. apply list_elem_of_In in Ho.
  rewrite forallb_forall in Hall. specialize (Hall _ Ho).
  destruct o as [key fn args| | |k|]; try discriminate. simpl in Hall.
  exists key, fn, args. split; [done|].
  destruct (resolve_key key fn args); [|done].
  by apply bool_decide_eq_true_1 in Hall as ->.
Qed.

Lemma threads_check (f : thread -> bool) (w : world) :
  forallb f (threads w) = true ->
  forall t th, threads w !! t = Some th -> f th = true.
Proof.
  intros Hall t th Hth. rewrite forallb_forall in Hall. apply Hall.
  apply list_elem_of_In. by eapply list_elem_of_lookup_2.
Qed.

Lemma overlapping_check (w : world) :
  forallb (fun th => is_active th || is_follower th) (threads w) = true ->
  overlapping w.
Proof.
  intros Hall t th Hth. apply orb_true_iff.
  by apply (threads_check _ _ Hall t).
Qed.

Lemma all_returned_check (w : world) :
  forallb (fun th => returned (t_pc th)) (threads w) = true -> all_returned w.
Proof. intros Hall t th Hth. by apply (threads_check _ _ Hall t). Qed.

Lemma has_key_key_of K o : key_of o = Some K -> has_key K o = true.
Proof.
  destruct o as [key fn args| | |k|]; try done. simpl.
  destruct (resolve_key key fn args); [|done].
  intros [= ->]. by apply bool_decide_eq_true_2.
Qed.

Lemma spares_check K ops :
  forallb (fun o => negb (forgets K o)) ops = true -> spares K ops.
Proof.
  intros Hall o Ho. apply list_elem_of_In in Ho.
  rewrite forallb_forall in Hall. specialize (Hall _ Ho).
  by destruct (forgets K o).
Qed.

Lemma overlapping_on_check K (w : world) :
  forallb (fun th => negb (has_key K (t_op th)) || is_active th || is_follower th)
    (threads w) = true ->
  overlapping_on K w.
Proof.
  intros Hall t th Hth HK. apply (threads_check _ _ Hall) in Hth.
  rewrite (has_key_key_of _ _ HK) in Hth. simpl in Hth.
  by apply orb_true_iff.
Qed.

Lemma returned_on_check K (w : world) :
  forallb (fun th => negb (has_key K (t_op th)) || returned (t_pc th))
    (threads w) = true ->
  returned_on K w.
Proof.
  intros Hall t th Hth HK. apply (threads_check _ _ Hall) in Hth.
  by rewrite (has_key_key_of _ _ HK) in Hth.
Qed.

Definition is_reset (o : op) : bool :=
  match o with
  | OpResetStats => true
  | _ => false
  end.

Lemma reset_free_check ops :
  forallb (fun o => negb (is_reset o)) ops = true -> reset_free ops.
Proof.
  intros Hall Ho. apply list_elem_of_In in Ho.
  rewrite forallb_forall in Hall. by specialize (Hall _ Ho).
Qed.

Lemma forget_free_check ops :
  forallb (fun o => negb (is_forget o)) ops = true -> forget_free ops.
Proof.
  intros Hall o Ho. apply list_elem_of_In in Ho.
  rewrite forallb_forall in Hall. specialize (Hall _ Ho).
  by destruct (is_forget o).
Qed.

(** * Further properties

    What the code shows beyond the scenarios above: every invocation
    returns, under every fair scheduler; every returned outcome comes from
    one execution under the same key; the work function is invoked at most
    once per invocation; the statistics and the registry, at rest and in
    flight; calls that do not overlap; the decorator [group]; automatic
    keys; the laws of [forget] and [forget_all]; and the cooperative variant
    of [src/_async.py]. *)

(** ** No deadlock, and a bound on the number of transitions *)

(** A thread that has returned, or that waits for an event that is not
    set, does not move. *)
Lemma step_stutters (w : world) t :
  (forall th, threads w !! t = Some th ->
     returned (t_pc th) = true ∨ blocked w (t_pc th) = true) ->
  step t w = w.
Proof.
  intros Hstuck. unfold step.
  destruct (threads w !! t) as [[o p]|] eqn:Hth; [|done].
  destruct (Hstuck _ eq_refl) as [Hret|Hblk]; simpl in *.
  - destruct p; try discriminate; by destruct o.
  - destruct p as [| | | | | |c b| | |]; try discriminate.
    unfold blocked in Hblk. destruct o; [|done..]. simpl.
    destruct (heap w !! c) as [cell|]; [|done].
    by destruct (event cell).
Qed.

Lemma step_stutters_or_decreases (w : world) t :
  wf w -> step t w = w ∨ todo (threads (step t w)) < todo (threads w).
Proof.
  intros Hwf. destruct (threads w !! t) as [th|] eqn:Hth.
  - destruct (returned (t_pc th)) eqn:Hret.
    { left. apply step_stutters. intros th' Hth'. left. congruence. }
    destruct (blocked w (t_pc th)) eqn:Hblk.
    { left. apply step_stutters. intros th' Hth'. right. congruence. }
    right. by eapply step_decreases.
  - left. apply step_stutters. intros th' Hth'. congruence.
Qed.

Lemma todo_init ops : todo (threads (init ops)) = 8 * length ops.
Proof. induction ops as [|o ops IH]; simpl in *; lia. Qed.

Lemma todo_exec sched (w : world) :
  wf w -> todo (threads (exec sched w)) <= todo (threads w).
Proof.
  revert w. induction sched as [|t sched IH]; intros w Hwf; simpl; [done|].
  assert (wf (step t w)) as Hwf'
    by (eapply wf_step; [done|apply step_transition]).
  specialize (IH _ Hwf').
  destruct (step_stutters_or_decreases w t Hwf) as [Heq|Hlt];
    [rewrite Heq in IH |- *|]; lia.
Qed.

Lemma someone_can_move (w : world) :
  wf w -> all_returned w ∨ ∃ t, todo (threads (step t w)) < todo (threads w).
Proof.
  intros Hwf.
  destruct (all_returned_or_not (threads w)) as [Hall|(t & th & Hth & Hret)];
    [by left|right].
  destruct (blocked w (t_pc th)) eqn:Hblk.
  - destruct (blocked_on_leader _ _ _ Hwf Hth Hblk)
      as (c & thc & Hthc & Hretc & Hblkc).
    exists c. by eapply step_decreases.
  - exists t. by eapply step_decreases.
Qed.

Lemma returns_within (w : world) :
  wf w ->
  ∃ sched, length sched <= todo (threads w) ∧ all_returned (exec sched w).
Proof.
  intros Hwf. remember (todo (threads w)) as n eqn:Hn.
  revert w Hwf Hn. induction (lt_wf n) as [n _ IH]. intros w Hwf ->.
  destruct (someone_can_move w Hwf) as [Hall|[t Hlt]].
  { exists []. split; [simpl; lia|done]. }
  destruct (IH _ Hlt (step t w)) as (sched & Hlen & Hsched); [|done|].
  { eapply wf_step; [done|]. apply step_transition. }
  exists (t :: sched). split; [simpl; lia|done].
Qed.

(** X1 (no deadlock).
    Every invocation returns.  In every reachable state a transition
    either leaves the system as it is (the thread has returned or waits) or
    brings it closer to the end; unless all invocations have returned, some
    thread can move; and the execution can be continued so that all have
    returned, in no more transitions than are left of the 8 per invocation. *)
Theorem every_invocation_returns ops (w : world) :
  reachable ops w ->
  (forall t, step t w = w ∨ todo (threads (step t w)) < todo (threads w)) ∧
  (all_returned w ∨ ∃ t, todo (threads (step t w)) < todo (threads w)) ∧
  todo (threads w) <= 8 * length ops ∧
  ∃ sched, length sched <= todo (threads w) ∧ all_returned (exec sched w).
Proof.
  intros Hr. pose proof (reachable_wf _ _ Hr) as Hwf.
  split; [intros t; by apply step_stutters_or_decreases|].
  split; [by apply someone_can_move|].
  split; [|by apply returns_within].
  destruct Hr as [s ->]. rewrite <- todo_init. apply todo_exec, wf_init.
Qed.

(** ** Where an outcome comes from *)

Lemma key_of_call key fn args k :
  key_of (OpCall key fn args) = Some k <-> resolve_key key fn args = Returns k.
Proof.
  simpl. destruct (resolve_key key fn args); split; intros; by simplify_eq.
Qed.

(** An invocation that holds a [SyncCall] has resolved its key. *)
Definition keyed (w : world) : Prop :=
  forall t th c, threads w !! t = Some th -> fn_call_of (t_pc th) = Some c ->
    is_Some (key_of (t_op th)).

Lemma keyed_init ops : keyed (init ops).
Proof.
  intros t th c Hth. simpl in Hth. rewrite list_lookup_fmap in Hth.
  destruct (ops !! t); [|done]. by injection Hth as <-.
Qed.

Lemma keyed_step t (w w' : world) :
  wf w -> keyed w -> transition t w w' -> keyed w'.
Proof.
  intros Hwf Hk Htr.
  destruct Htr as [ | key fn args k Hat Hres | key fn args e Hat Hres
    | key fn args k Hat Hno | key fn args k c Hat Hc | key fn args k c Hat
    | key fn args k c obj errs Hat | key fn args k c Hat
    | key fn args c cell Hat Hc
    | key fn args c b cell Hat Hc Hev | key fn args c b cell Hat Hc
    | Hat | Hat | k Hat | Hat ]; [done|..].
  all: intros t' th' c' Hl Hc'; simpl in Hl.
  all: apply (lookup_move _ _ _ _ _ _ _ _ Hat) in Hl as [[-> ->]|[Hne Hl]];
    [|by eapply Hk].
  all: simpl in Hc' |- *; try discriminate.
  all: try (by eapply (Hk _ _ _ Hat)).
  all: pose proof (wf_threads _ Hwf _ _ Hat) as Hme;
    unfold thread_inv, call_inv in Hme; simpl in Hme;
    destruct Hme as [Hres _]; by rewrite Hres.
Qed.

Lemma reachable_keyed ops (w : world) : reachable ops w -> keyed w.
Proof.
  intros [sched ->].
  apply (exec_invariant (fun w => wf w ∧ keyed w));
    [|split; [apply wf_init|apply keyed_init]].
  intros t w1 w2 [? ?] Htr.
  split; [by eapply wf_step|by eapply keyed_step].
Qed.

(** X2 (provenance of outcomes).
    Every outcome that [call] hands back comes from exactly one execution
    of a work function: that of the invocation [c] whose [SyncCall] the
    caller holds.  [c] is a call with the same key; it has invoked its work
    function once and set its event once; the caller is the leader exactly
    when it is [c] itself, and a follower never invokes its own work
    function.  The leader has the outcome of that execution, a follower
    what the leader stored of it: a follower unwraps an unset result
    exactly when the leader's work raised outside [Exception].  This holds
    in every pool, whatever is forgotten or reset meanwhile. *)
Theorem outcome_of_one_execution ops (w : world) t key fn args c b out :
  reachable ops w ->
  at_pc w t (OpCall key fn args) (CallDone c b out) ->
  ∃ key' fn' args' k,
    ops !! c = Some (OpCall key' fn' args') ∧
    resolve_key key' fn' args' = Returns k ∧
    resolve_key key fn args = Returns k ∧
    out = (if b then unwrap (result_of c (fn_body fn' args'))
           else unwrap (stored c (fn_body fn' args'))) ∧
    (out = LogicError <-> b = false ∧ escapes (fn_body fn' args') = true) ∧
    works_of c (trace w) = 1 ∧
    signals_of c (trace w) = 1 ∧
    (b = true <-> c = t) ∧
    works_of t (trace w) = (if b then 1 else 0).
Proof.
  intros Hr Hat. pose proof (reachable_wf _ _ Hr) as Hwf.
  pose proof (reachable_journal _ _ Hr) as Hj.
  destruct (reachable_keyed _ _ Hr _ _ c Hat eq_refl) as [k Hk].
  apply key_of_call in Hk.
  pose proof (wf_threads _ Hwf _ _ Hat) as Hinv.
  unfold thread_inv, call_inv in Hinv. simpl in Hinv.
  destruct b.
  - destruct Hinv as (-> & Hcell & ->).
    exists key, fn, args, k.
    split; [by apply (thread_op _ _ _ _ Hr Hat)|].
    split; [done|]. split; [done|]. split; [done|].
    split; [apply (outcome_for_unset true)|].
    split; [by rewrite (journal_work _ Hj), (flag_at _ _ _ _ _ Hat)|].
    split; [by eapply signalled_once|]. split; [done|].
    by rewrite (journal_work _ Hj), (flag_at _ _ _ _ _ Hat).
  - destruct Hinv as (Hnone & r' & Hcell & ->).
    destruct (cell_owner _ _ _ Hwf Hcell)
      as (key' & fn' & args' & p' & Hat' & _ & _ & Hev & _).
    destruct (Hev eq_refl) as [Heq Hsig]. injection Heq as ->.
    destruct (reachable_attached_keys _ _ Hr _ _ c Hat eq_refl)
      as (thc & Hthc & Hkey).
    unfold at_pc in Hat'. rewrite Hat' in Hthc. injection Hthc as <-.
    cbn [t_op] in Hkey.
    exists key', fn', args', k.
    split; [by apply (thread_op _ _ _ _ Hr Hat')|].
    split; [apply key_of_call; rewrite Hkey; by apply key_of_call|].
    split; [done|]. split; [done|].
    split; [apply (outcome_for_unset false)|].
    split.
    { rewrite (journal_work _ Hj), (flag_at _ _ _ _ _ Hat').
      unfold has_worked, has_signalled in *. simpl in *.
      by destruct p' as [| | | | | |? []|? []|? []|]. }
    split; [by eapply signalled_once|].
    split; [split; [done|intros ->; congruence]|].
    by rewrite (journal_work _ Hj), (flag_at _ _ _ _ _ Hat).
Qed.

(** X3 (keys are independent).
    A call whose key no other invocation of the pool resolves to never
    coalesces: it never holds another invocation's [SyncCall], and when it
    has returned, it returned the outcome of its own work function, invoked
    once. *)
Theorem lone_key_always_leads ops (w : world) t key fn args p K :
  reachable ops w ->
  at_pc w t (OpCall key fn args) p ->
  resolve_key key fn args = Returns K ->
  (forall t' o', ops !! t' = Some o' -> key_of o' = Some K -> t' = t) ->
  (forall c, fn_call_of p = Some c -> c = t) ∧
  is_follower (MkThread (OpCall key fn args) p) = false ∧
  (returned p = true ->
   p = CallDone t true (unwrap (result_of t (fn_body fn args))) ∧
   works_of t (trace w) = 1).
Proof.
  intros Hr Hat HK Hlone. pose proof (reachable_wf _ _ Hr) as Hwf.
  assert (is_follower (MkThread (OpCall key fn args) p) = false) as Hnf.
  { destruct (is_follower (MkThread (OpCall key fn args) p)) eqn:Hfol; [|done].
    destruct (is_follower_fn_call _ Hfol) as [c Hc].
    destruct (reachable_attached_keys _ _ Hr _ _ c Hat
                (follows_fn_call _ _ Hfol Hc)) as (thc & Hthc & Hkey).
    assert (c = t) as ->.
    { apply (Hlone c (t_op thc)); [by eapply thread_op|].
      rewrite Hkey. by apply key_of_call. }
    destruct (follower_cell _ _ _ _ Hwf Hat Hfol Hc) as [Hnone [cell Hcell]].
    congruence. }
  pose proof (wf_threads _ Hwf _ _ Hat) as Hinv.
  unfold thread_inv, call_inv in Hinv. simpl in Hinv.
  unfold is_follower in Hnf. simpl in Hnf.
  split; [|split; [done|]].
  - intros c Hc.
    destruct p as [| | | | | |? []|? []|? []|]; simplify_eq/=;
      by destruct Hinv as [-> _].
  - intros Hret.
    destruct p as [| | | | | | | |c [] out|out]; simplify_eq/=.
    + destruct Hinv as (-> & _ & ->). split; [done|].
      by rewrite (journal_work _ (reachable_journal _ _ Hr)),
        (flag_at _ _ _ _ _ Hat).
    + destruct Hinv as (_ & e & Hres & _). congruence.
Qed.

(** ** Counting, once more *)

Lemma count_le f g (l : list thread) :
  (forall t th, l !! t = Some th -> f th = true -> g th = true) ->
  count f l <= count g l.
Proof.
  induction l as [|x l IH]; intros Himp; simpl; [done|].
  assert (count f l <= count g l) as Hle.
  { apply IH. intros t th Ht. by apply (Himp (S t)). }
  pose proof (Himp 0 x eq_refl) as Hx.
  destruct (f x); [rewrite Hx by done|destruct (g x)]; lia.
Qed.

Lemma count_le_sum f g h (l : list thread) :
  (forall t th, l !! t = Some th -> f th = true -> g th = true ∨ h th = true) ->
  count f l <= count g l + count h l.
Proof.
  induction l as [|x l IH]; intros Himp; simpl; [done|].
  assert (count f l <= count g l + count h l) as Hle.
  { apply IH. intros t th Ht. by apply (Himp (S t)). }
  pose proof (Himp 0 x eq_refl) as Hx.
  destruct (f x); [|destruct (g x), (h x); lia].
  destruct (Hx eq_refl) as [-> | ->]; [destruct (h x)|destruct (g x)]; lia.
Qed.

Lemma count_ext f g (l : list thread) :
  (forall t th, l !! t = Some th -> f th = g th) -> count f l = count g l.
Proof.
  induction l as [|x l IH]; intros Heq; simpl; [done|].
  rewrite (Heq 0 x eq_refl). f_equal. apply IH.
  intros t th Ht. by apply (Heq (S t)).
Qed.

Lemma count_length f (l : list thread) : count f l <= length l.
Proof. induction l as [|x l IH]; simpl; [done|]. destruct (f x); lia. Qed.

(** The invocations of the pool that get as far as the registration
    block: the calls whose key resolves. *)
Definition registers (o : op) : bool :=
  match key_of o with
  | Some _ => true
  | None => false
  end.

Lemma count_filter (g : op -> bool) (l : list thread) :
  count (fun th => g (t_op th)) l = length (List.filter g (map t_op l)).
Proof.
  induction l as [|x l IH]; simpl; [done|]. rewrite IH.
  by destruct (g (t_op x)).
Qed.

Lemma count_registers ops (w : world) :
  reachable ops w ->
  count (fun th => registers (t_op th)) (threads w)
  = length (List.filter registers ops).
Proof.
  intros Hr. rewrite count_filter.
  by rewrite <- (reachable_ops _ _ Hr).
Qed.

Lemma holds_registers ops (w : world) t th c :
  reachable ops w -> threads w !! t = Some th ->
  fn_call_of (t_pc th) = Some c -> registers (t_op th) = true.
Proof.
  intros Hr Hth Hc. unfold registers.
  by destruct (reachable_keyed _ _ Hr _ _ _ Hth Hc) as [k ->].
Qed.

Lemma count_followers_leaders (l : list thread) :
  count (fun th => is_follower th || is_leader th) l
  = count is_follower l + count is_leader l.
Proof.
  induction l as [|x l IH]; simpl; [done|].
  rewrite IH. unfold is_follower, is_leader.
  destruct (t_pc x) as [| | | | | |? []|? []|? []|]; simpl; lia.
Qed.

Lemma registered_fn_call (th : thread) :
  is_follower th || is_leader th = true -> ∃ c, fn_call_of (t_pc th) = Some c.
Proof.
  unfold is_follower, is_leader.
  destruct (t_pc th) as [| | | | | |? []|? []|? []|]; intros;
    simplify_eq/=; eauto.
Qed.

(** A registry whose entries name distinct threads that satisfy [f] has
    at most as many entries as there are such threads. *)
Lemma size_le_count (m : gmap string nat) (l : list thread)
    (f : thread -> bool) (d : thread) :
  f d = false ->
  (forall k c, m !! k = Some c -> ∃ th, l !! c = Some th ∧ f th = true) ->
  (forall k k' c, m !! k = Some c -> m !! k' = Some c -> k = k') ->
  size m <= count f l.
Proof.
  intros Hd. revert l.
  induction m as [|k c m Hk IH] using map_ind; intros l Hran Hinj.
  { rewrite map_size_empty. lia. }
  rewrite map_size_insert_None by done.
  destruct (Hran k c) as (th & Hth & Hf); [by rewrite lookup_insert_eq|].
  pose proof (count_insert f l c th d Hth) as Hc.
  rewrite Hd, Hf in Hc. simpl in Hc.
  assert (size m <= count f (<[c := d]> l)); [|lia].
  apply IH.
  - intros k' c' Hk'.
    assert (k' ≠ k) as Hne by (intros ->; congruence).
    assert (c' ≠ c) as Hnc.
    { intros ->. apply Hne. apply (Hinj k' k c).
      - by rewrite lookup_insert_ne.
      - by rewrite lookup_insert_eq. }
    destruct (Hran k' c') as (th' & Hth' & Hf');
      [by rewrite lookup_insert_ne|].
    exists th'. by rewrite list_lookup_insert_ne.
  - intros k1 k2 c' H1 H2.
    assert (k1 ≠ k) by (intros ->; congruence).
    assert (k2 ≠ k) by (intros ->; congruence).
    apply (Hinj k1 k2 c'); by rewrite lookup_insert_ne.
Qed.

(** ** The work function is invoked at most once *)

(** X4 (no retry).
    An invocation never invokes its work function twice (there is no
    retry, also not after a failure), sets its event only after the work
    function has been invoked, and at most once; only a call whose key
    resolved invokes its work function at all; so the work functions are
    invoked at most as often as there are such calls. *)
Theorem work_invoked_at_most_once ops s t :
  works_of t (trace (exec s (init ops))) <= 1 ∧
  signals_of t (trace (exec s (init ops)))
  <= works_of t (trace (exec s (init ops))) ∧
  (works_of t (trace (exec s (init ops))) = 1 ->
   ∃ key fn args k,
     ops !! t = Some (OpCall key fn args) ∧
     resolve_key key fn args = Returns k) ∧
  call_count (exec s (init ops)) <= length (List.filter registers ops).
Proof.
  set (w := exec s (init ops)).
  assert (reachable ops w) as Hr by (by exists s).
  pose proof (reachable_journal _ _ Hr) as [Htot Hwork Hset].
  rewrite Hwork, Hset. unfold flag.
  split; [|split; [|split]].
  - destruct (threads w !! t) as [th|]; [|lia].
    destruct (has_worked th); simpl; lia.
  - destruct (threads w !! t) as [[o p]|]; [|lia].
    unfold has_signalled, has_worked. simpl.
    destruct p as [| | | | | |? []|? []|? []|]; simpl; lia.
  - destruct (threads w !! t) as [[o p]|] eqn:Hth; [|done].
    intros Hone.
    assert (∃ c, fn_call_of p = Some c) as [c Hc].
    { unfold has_worked in Hone. simpl in Hone.
      destruct p as [| | | | | |? []|? []|? []|]; simplify_eq/=; eauto. }
    destruct (reachable_keyed _ _ Hr _ _ _ Hth Hc) as [k Hk]. simpl in Hk.
    pose proof (thread_op _ _ _ _ Hr Hth) as Hop. simpl in Hop.
    destruct o as [key fn args| | |?|]; try discriminate.
    exists key, fn, args, k. split; [done|]. by apply key_of_call.
  - rewrite Htot, <- (count_registers _ _ Hr). apply count_le.
    intros t' [o p] Hth Hw.
    assert (∃ c, fn_call_of p = Some c) as [c Hc].
    { unfold has_worked in Hw. simpl in Hw.
      destruct p as [| | | | | |? []|? []|? []|]; simplify_eq/=; eauto. }
    by eapply holds_registers.
Qed.

(** ** The statistics at rest and in flight *)

(** A leader whose work function raised an [Exception]. *)
Definition leader_failed (th : thread) : bool :=
  is_leader th && work_raises (t_op th).

(** X5 (statistics at rest).
    When all invocations have returned and [reset_stats] was not among
    them: [misses] is the number of executions of work functions, [hits]
    the number of calls served by another call's execution, so that
    [hits + misses] is the number of calls whose key resolved; [errors] is
    at most the number of executions that raised an [Exception], and at
    least 1 if there is one (the increment of line 52 is not under the lock:
    one can overwrite another, and an exception outside [Exception] is not
    counted); [in_flight] is 0. *)
Theorem stats_at_rest ops s :
  reset_free ops ->
  all_returned (exec s (init ops)) ->
  Stats.misses (get_stats (self (exec s (init ops))))
  = Z.of_nat (call_count (exec s (init ops))) ∧
  (Stats.hits (get_stats (self (exec s (init ops))))
   + Stats.misses (get_stats (self (exec s (init ops)))))%Z
  = Z.of_nat (length (List.filter registers ops)) ∧
  Stats.hits (get_stats (self (exec s (init ops))))
  = Z.of_nat (count is_follower (threads (exec s (init ops)))) ∧
  (0 <= Stats.errors (get_stats (self (exec s (init ops))))
   <= Z.of_nat (count leader_failed (threads (exec s (init ops)))))%Z ∧
  (1 <= count leader_failed (threads (exec s (init ops))) ->
   (1 <= Stats.errors (get_stats (self (exec s (init ops)))))%Z) ∧
  Stats.in_flight (get_stats (self (exec s (init ops)))) = 0%Z.
Proof.
  set (w := exec s (init ops)). intros Hrf Hret.
  assert (reachable ops w) as Hr by (by exists s).
  pose proof (reachable_wf _ _ Hr) as Hwf.
  destruct (reachable_ledger _ _ Hrf Hr) as [Hh Hm (_ & He & He1 & _) Hi].
  pose proof (journal_total _ (reachable_journal _ _ Hr)) as Htot.
  unfold get_stats. rewrite Hh, Hm, Hi, Htot.
  assert (forall t o p, threads w !! t = Some (MkThread o p) ->
            (∃ c b out, p = CallDone c b out) ∨ (∃ out, p = Done out)) as Hpc.
  { intros t o p Hth. specialize (Hret _ _ Hth). simpl in Hret.
    destruct p; try discriminate; eauto. }
  assert (count leader_failed (threads w) = count has_erred (threads w))
    as Hfailed.
  { apply count_ext. intros t [o p] Hth.
    unfold leader_failed. rewrite has_erred_eq. simpl.
    rewrite andb_comm. f_equal.
    by destruct (Hpc _ _ _ Hth) as [(c & [] & out & ->)|(out & ->)]. }
  rewrite Hfailed.
  split; [|split; [|split; [|split; [|split]]]].
  - f_equal. apply count_ext. intros t [o p] Hth.
    by destruct (Hpc _ _ _ Hth) as [(c & [] & out & ->)|(out & ->)].
  - rewrite <- (count_registers _ _ Hr), <- Nat2Z.inj_add. f_equal.
    pose proof (count_followers_leaders (threads w)) as Hsum.
    assert (count (fun th => is_follower th || is_leader th) (threads w)
            = count (fun th => registers (t_op th)) (threads w)) as Heq.
    { apply count_ext. intros t [o p] Hth. simpl.
      pose proof (wf_threads _ Hwf _ _ Hth) as Hinv.
      unfold thread_inv, call_inv in Hinv. simpl in Hinv.
      destruct (Hpc _ _ _ Hth) as [(c & b & out & ->)|(out & ->)].
      - pose proof (holds_registers _ _ _ _ c Hr Hth eq_refl) as Hreg.
        simpl in Hreg. rewrite Hreg.
        unfold is_follower, is_leader. simpl. by destruct b.
      - unfold is_follower, is_leader, registers. simpl.
        destruct o as [key fn args| | |?|]; try done. simpl.
        destruct Hinv as (_ & e & -> & _). done. }
    lia.
  - done.
  - done.
  - done.
  - assert (count is_active (threads w) = 0) as ->; [|done].
    apply count_zero. intros t [o p] Hth.
    by destruct (Hpc _ _ _ Hth) as [(c & b & out & ->)|(out & ->)].
Qed.

(** ** The registry *)

Lemma registry_inj (w : world) k k' c :
  wf w ->
  in_flight (self w) !! k = Some c -> in_flight (self w) !! k' = Some c ->
  k = k'.
Proof.
  intros Hwf Hk Hk'.
  destruct (wf_registry _ Hwf _ _ Hk) as (th & Hth & Hact).
  destruct (wf_registry _ Hwf _ _ Hk') as (th' & Hth' & Hact').
  rewrite Hth in Hth'. injection Hth' as <-.
  apply active_on_key in Hact, Hact'. congruence.
Qed.

Lemma registry_active (w : world) k c :
  wf w -> in_flight (self w) !! k = Some c ->
  ∃ th, threads w !! c = Some th ∧ is_active th = true.
Proof.
  intros Hwf Hk. destruct (wf_registry _ Hwf _ _ Hk) as (th & Hth & Hact).
  exists th. split; [done|]. unfold is_active.
  by destruct Hact as [-> | [(? & ? & ->) | ->]].
Qed.

Lemma registry_size_bound (w : world) :
  wf w -> size (in_flight (self w)) <= count is_active (threads w).
Proof.
  intros Hwf. apply (size_le_count _ _ _ (MkThread OpGetStats Enter)).
  - done.
  - intros k c. by apply registry_active.
  - intros k k' c. by apply registry_inj.
Qed.

(** X6 (the registry).
    Every entry of the registry is the [SyncCall] of a leader in flight: a
    call with that key, between its registration and its completion block,
    whose event is not set.  No call is registered under two keys; there
    are at most as many entries as leaders in flight; and once all
    invocations have returned the registry is empty: nothing is left
    behind, whatever was forgotten or reset.  *)
Theorem registry_holds_leaders_in_flight ops s :
  (forall k c, in_flight (self (exec s (init ops))) !! k = Some c ->
     ∃ key fn args p,
       at_pc (exec s (init ops)) c (OpCall key fn args) p ∧
       resolve_key key fn args = Returns k ∧
       active_key p = Some k ∧ fn_call_of p = Some c ∧
       ∃ r, heap (exec s (init ops)) !! c = Some (MkCall r false)) ∧
  (forall k k' c,
     in_flight (self (exec s (init ops))) !! k = Some c ->
     in_flight (self (exec s (init ops))) !! k' = Some c -> k = k') ∧
  size (in_flight (self (exec s (init ops))))
  <= count is_active (threads (exec s (init ops))) ∧
  (all_returned (exec s (init ops)) ->
   in_flight (self (exec s (init ops))) = ∅).
Proof.
  set (w := exec s (init ops)).
  assert (reachable ops w) as Hr by (by exists s).
  pose proof (reachable_wf _ _ Hr) as Hwf.
  split; [|split; [|split]].
  - intros k c Hk.
    destruct (wf_registry _ Hwf _ _ Hk) as ([o p] & Hth & Hact).
    pose proof (active_on_key _ _ _ Hact) as Hkey. simpl in Hact, Hkey.
    pose proof (key_of_active _ _ _ _ Hwf Hth Hkey) as Hres. simpl in Hres.
    destruct o as [key fn args| | |?|]; try discriminate.
    exists key, fn, args, p. split; [done|]. split; [by apply key_of_call|].
    split; [done|]. split; [|by eapply registry_cell].
    by destruct Hact as [-> | [(? & ? & ->) | ->]].
  - intros k k' c. by apply registry_inj.
  - by apply registry_size_bound.
  - intros Hret. apply map_empty. intros k.
    destruct (in_flight (self w) !! k) as [c|] eqn:Hk; [|done].
    destruct (registry_active _ _ _ Hwf Hk) as ([o p] & Hth & Hact).
    specialize (Hret _ _ Hth). unfold is_active in Hact. simpl in *.
    by destruct p.
Qed.

(** X7 (statistics in flight).
    As long as [reset_stats] is not invoked, at every moment:
    [errors <= executions <= misses <= executions + in_flight], [hits] and
    [misses] together count no more calls than there are, and the registry
    has at most [in_flight] entries ([forget] may leave it fewer). *)
Theorem stats_bounds ops s :
  reset_free ops ->
  (0 <= Stats.hits (get_stats (self (exec s (init ops)))))%Z ∧
  (0 <= Stats.errors (get_stats (self (exec s (init ops)))))%Z ∧
  (Stats.errors (get_stats (self (exec s (init ops))))
   <= Z.of_nat (call_count (exec s (init ops))))%Z ∧
  (Z.of_nat (call_count (exec s (init ops)))
   <= Stats.misses (get_stats (self (exec s (init ops)))))%Z ∧
  (Stats.misses (get_stats (self (exec s (init ops))))
   <= Z.of_nat (call_count (exec s (init ops)))
      + Stats.in_flight (get_stats (self (exec s (init ops)))))%Z ∧
  (Stats.hits (get_stats (self (exec s (init ops))))
   + Stats.misses (get_stats (self (exec s (init ops))))
   <= Z.of_nat (length (List.filter registers ops)))%Z ∧
  (Z.of_nat (size (in_flight (self (exec s (init ops)))))
   <= Stats.in_flight (get_stats (self (exec s (init ops)))))%Z.
Proof.
  set (w := exec s (init ops)). intros Hrf.
  assert (reachable ops w) as Hr by (by exists s).
  destruct (reachable_ledger _ _ Hrf Hr) as [Hh Hm (_ & He & _) Hi].
  pose proof (journal_total _ (reachable_journal _ _ Hr)) as Htot.
  unfold get_stats. rewrite Hh, Hm, Hi, Htot.
  assert (count has_erred (threads w) <= count has_worked (threads w)) as H1.
  { apply count_le. intros t [o p] _. rewrite has_erred_eq.
    unfold has_worked. simpl. intros [_ Hp]%andb_true_iff.
    by destruct p as [| | | | | |? []|? []|? []|]. }
  assert (count has_worked (threads w) <= count is_leader (threads w)) as H2.
  { apply count_le. intros t [o p] _. unfold has_worked, is_leader. simpl.
    by destruct p as [| | | | | |? []|? []|? []|]. }
  assert (count is_leader (threads w)
          <= count has_worked (threads w) + count is_active (threads w)) as H3.
  { apply count_le_sum. intros t [o p] _.
    unfold has_worked, is_leader, is_active. simpl.
    destruct p as [| | | | | |? []|? []|? []|]; intros; simplify_eq/=; eauto. }
  assert (count is_follower (threads w) + count is_leader (threads w)
          <= length (List.filter registers ops)) as H4.
  { rewrite <- count_followers_leaders, <- (count_registers _ _ Hr).
    apply count_le. intros t th Hth Hreg.
    destruct (registered_fn_call _ Hreg) as [c Hc].
    by eapply holds_registers. }
  pose proof (registry_size_bound _ (reachable_wf _ _ Hr)) as H5.
  repeat split; lia.
Qed.

(** ** Calls that do not overlap *)

(** One invocation run to its end while nobody else moves: no invocation
    has more than 8 transitions. *)
Definition run_alone (t : nat) : list nat := replicate 8 t.

(** The first [n] invocations of the pool, one after the other. *)
Definition sequential (n : nat) : list nat := flat_map run_alone (seq 0 n).

(** What a call that leads its own execution hands back. *)
Definition own_outcome (t : nat) (key : option string) (fn : Fn) (args : A)
  : pc :=
  match resolve_key key fn args with
  | Returns _ => CallDone t true (unwrap (result_of t (fn_body fn args)))
  | Raises e => Done (Raised t e)
  end.

(** Not started, or returned. *)
Definition quiet (th : thread) : bool :=
  match t_pc th with
  | Enter | CallDone _ _ _ | Done _ => true
  | _ => false
  end.

(** While every other invocation is quiet, a thread that moves gets closer
    to its end and does not become a follower. *)
Lemma alone_transition t (w w' : world) o p :
  wf w -> transition t w w' ->
  (forall t' th', threads w !! t' = Some th' -> t' ≠ t -> quiet th' = true) ->
  at_pc w t o p -> is_follower (MkThread o p) = false ->
  w' = w ∨
  ∃ p', threads w' = move t o p' w ∧
        is_follower (MkThread o p') = false ∧ rank p' < rank p.
Proof.
  intros Hwf Htr Hquiet Hme Hnf.
  destruct Htr as [ | key fn args k Hat Hk | key fn args e Hat Hk
    | key fn args k Hat Hno | key fn args k c Hat Hc | key fn args k c Hat
    | key fn args k c obj errs Hat | key fn args k c Hat
    | key fn args c cell Hat Hc
    | key fn args c b cell Hat Hc Hev | key fn args c b cell Hat Hc
    | Hat | Hat | k Hat | Hat ]; [by left|right..].
  all: unfold at_pc in Hme, Hat; rewrite Hme in Hat; injection Hat as -> ->.
  all: next_pc_cases.
  all: try (eexists; split; [reflexivity|]; split; [done|simpl; lia]).
  (* registration as a follower: there is nobody to follow *)
  exfalso. destruct (registry_active _ _ _ Hwf Hc) as (thc & Hthc & Hact).
  destruct (decide (c = t)) as [->|Hne].
  - rewrite Hme in Hthc. by injection Hthc as <-.
  - specialize (Hquiet _ _ Hthc Hne). unfold quiet, is_active in *.
    by destruct (t_pc thc).
Qed.

Lemma rank_returned (p : pc) : rank p = 0 <-> returned p = true.
Proof. destruct p; simpl; split; intros; try done; lia. Qed.

Lemma alone_run ops t o n : forall (w : world) p,
  reachable ops w ->
  (forall t' th', threads w !! t' = Some th' -> t' ≠ t -> quiet th' = true) ->
  at_pc w t o p -> is_follower (MkThread o p) = false -> rank p <= n ->
  (forall t', t' ≠ t ->
     threads (exec (replicate n t) w) !! t' = threads w !! t') ∧
  ∃ p', at_pc (exec (replicate n t) w) t o p' ∧
        returned p' = true ∧ is_follower (MkThread o p') = false.
Proof.
  induction n as [|n IH]; intros w p Hr Hquiet Hat Hnf Hrank.
  { split; [done|]. exists p. split; [done|]. split; [|done].
    apply rank_returned. lia. }
  simpl.
  destruct (alone_transition t w (step t w) o p (reachable_wf _ _ Hr)
              (step_transition t w) Hquiet Hat Hnf)
    as [Heq|(p' & Hths & Hnf' & Hlt)].
  - rewrite Heq.
    destruct (returned p) eqn:Hret.
    + apply (IH w p); try done. apply rank_returned in Hret. lia.
    + exfalso.
      assert (blocked w p = false) as Hblk.
      { pose proof (wf_threads _ (reachable_wf _ _ Hr) _ _ Hat) as Hinv.
        unfold thread_inv, call_inv, is_follower in *. simpl in *.
        destruct p as [| | | | | |c []| | |]; try done.
        destruct o; [|by destruct Hinv as [_ [?|[? ?]]]..].
        destruct Hinv as (-> & Hcell & _). simpl. by rewrite Hcell. }
      pose proof (step_decreases w t _ (reachable_wf _ _ Hr) Hat Hret Hblk).
      rewrite Heq in *. lia.
  - assert (reachable ops (step t w)) as Hr'
      by (apply (reachable_exec ops [t]) in Hr; exact Hr).
    assert (at_pc (step t w) t o p') as Hat'.
    { unfold at_pc. rewrite Hths. by eapply lookup_move_eq. }
    assert (forall t', t' ≠ t -> threads (step t w) !! t' = threads w !! t')
      as Hsame.
    { intros t' Hne. rewrite Hths. by apply lookup_move_ne. }
    destruct (IH (step t w) p' Hr') as (Hothers & p'' & ? & ? & ?);
      try done; [| lia |].
    + intros t' th' Hth' Hne. rewrite Hsame in Hth' by done. by eapply Hquiet.
    + split; [|by exists p''].
      intros t' Hne. by rewrite Hothers, Hsame.
Qed.

(** The state after the first [i] invocations have run, each alone. *)
Definition served (i : nat) (w : world) : Prop :=
  forall t th, threads w !! t = Some th ->
    (t < i -> returned (t_pc th) = true ∧ is_follower th = false) ∧
    (i <= t -> t_pc th = Enter).

Lemma served_next ops i (w : world) :
  reachable ops w -> served i w -> served (S i) (exec (run_alone i) w).
Proof.
  intros Hr Hserved.
  destruct (threads w !! i) as [[o p]|] eqn:Hi.
  - assert (p = Enter) as -> by (apply (proj2 (Hserved _ _ Hi)); lia).
    destruct (alone_run ops i o 8 w Enter Hr) as (Hothers & p' & Hat' & ? & ?);
      [|done|done|simpl; lia|].
    { intros t' th' Hth' Hne. unfold quiet.
      destruct (Hserved _ _ Hth') as [Hlt Hge].
      destruct (decide (t' < i)) as [Hl|Hl].
      - destruct (Hlt Hl) as [Hret _]. by destruct (t_pc th').
      - by rewrite Hge by lia. }
    intros t th Hth. destruct (decide (t = i)) as [->|Hne].
    + unfold run_alone, at_pc in *. rewrite Hat' in Hth. injection Hth as <-.
      split; [done|lia].
    + unfold run_alone in Hth. rewrite Hothers in Hth by done.
      destruct (Hserved _ _ Hth) as [Hlt Hge].
      split; intros; [apply Hlt|apply Hge]; lia.
  - assert (exec (run_alone i) w = w) as ->.
    { unfold run_alone. generalize 8. intros n.
      induction n as [|n IH]; simpl; [done|].
      rewrite step_stutters; [done|]. intros th Hth. congruence. }
    intros t th Hth. destruct (Hserved _ _ Hth) as [Hlt Hge].
    assert (t ≠ i) by congruence.
    split; intros; [apply Hlt|apply Hge]; lia.
Qed.

Lemma sequential_S n : sequential (S n) = sequential n ++ run_alone n.
Proof.
  unfold sequential. by rewrite seq_S, flat_map_app.
Qed.

Lemma served_sequential ops n : served n (exec (sequential n) (init ops)).
Proof.
  induction n as [|n IH].
  - intros t th Hth. split; [lia|]. intros _. simpl in Hth.
    rewrite list_lookup_fmap in Hth. destruct (ops !! t); [|done].
    by injection Hth as <-.
  - rewrite sequential_S, exec_app. apply (served_next ops); [|done].
    by exists (sequential n).
Qed.

(** What an invocation that returned without following anybody holds. *)
Lemma returned_leader (w : world) t key fn args p :
  wf w -> keyed w -> at_pc w t (OpCall key fn args) p ->
  returned p = true -> is_follower (MkThread (OpCall key fn args) p) = false ->
  p = own_outcome t key fn args.
Proof.
  intros Hwf Hkeyed Hat Hret Hnf.
  pose proof (wf_threads _ Hwf _ _ Hat) as Hinv.
  unfold thread_inv, call_inv, is_follower, own_outcome in *. simpl in *.
  destruct p as [| | | | | | | |c [] out|out]; try done.
  - destruct (Hkeyed _ _ c Hat eq_refl) as [k Hk]. apply key_of_call in Hk.
    rewrite Hk. by destruct Hinv as (-> & _ & ->).
  - by destruct Hinv as (_ & e & -> & ->).
Qed.

(** X8 (no caching).
    Calls that do not overlap never coalesce: the coordinator is no cache.
    When the invocations of any pool run one after the other, each to its
    end before the next begins, every call is the leader of its own
    execution and returns the outcome of its own work function (or raises
    what key derivation raised); the work functions are invoked once per
    call whose key resolves; the registry is empty at the end; and, if
    [reset_stats] is not among the invocations, [hits] is 0 and [misses] is
    the number of those calls. *)
Theorem sequential_calls_each_execute ops :
  all_returned (exec (sequential (length ops)) (init ops)) ∧
  (forall t key fn args,
     ops !! t = Some (OpCall key fn args) ->
     at_pc (exec (sequential (length ops)) (init ops)) t
       (OpCall key fn args) (own_outcome t key fn args)) ∧
  call_count (exec (sequential (length ops)) (init ops))
  = length (List.filter registers ops) ∧
  in_flight (self (exec (sequential (length ops)) (init ops))) = ∅ ∧
  (reset_free ops ->
   Stats.hits (get_stats (self (exec (sequential (length ops)) (init ops))))
   = 0%Z ∧
   Stats.misses (get_stats (self (exec (sequential (length ops)) (init ops))))
   = Z.of_nat (length (List.filter registers ops))).
Proof.
  set (w := exec (sequential (length ops)) (init ops)).
  assert (reachable ops w) as Hr by (by exists (sequential (length ops))).
  pose proof (reachable_wf _ _ Hr) as Hwf.
  pose proof (reachable_keyed _ _ Hr) as Hkeyed.
  pose proof (served_sequential ops (length ops)) as Hserved. fold w in Hserved.
  assert (forall t th, threads w !! t = Some th ->
            returned (t_pc th) = true ∧ is_follower th = false) as Hdone.
  { intros t th Hth. apply (Hserved _ _ Hth).
    apply lookup_lt_Some in Hth.
    replace (length ops) with (length (threads w)); [done|].
    rewrite <- (reachable_ops _ _ Hr). unfold ops_of. by rewrite length_map. }
  assert (forall t key fn args p,
            at_pc w t (OpCall key fn args) p -> p = own_outcome t key fn args)
    as Hown.
  { intros t key fn args p Hat. destruct (Hdone _ _ Hat).
    by eapply returned_leader. }
  assert (count is_follower (threads w) = 0) as Hfol.
  { apply count_zero. intros t th Hth. by destruct (Hdone _ _ Hth). }
  assert (forall f : thread -> bool,
            (forall t c out, f (MkThread t (CallDone c true out)) = true) ->
            (forall o out, f (MkThread o (Done out)) = false) ->
            count f (threads w) = length (List.filter registers ops)) as Hcount.
  { intros f Hlead Hnone. rewrite <- (count_registers _ _ Hr).
    apply count_ext. intros t [o p] Hth.
    destruct (Hdone _ _ Hth) as [Hret Hnf]. simpl in *.
    destruct o as [key fn args| | |?|].
    - rewrite (Hown _ _ _ _ _ Hth). unfold own_outcome, registers. simpl.
      by destruct (resolve_key key fn args).
    - pose proof (wf_threads _ Hwf _ _ Hth) as Hinv.
      destruct Hinv as [_ [Hp|[out Hp]]]; simpl in Hp; subst p; [done|].
      by rewrite Hnone.
    - pose proof (wf_threads _ Hwf _ _ Hth) as Hinv.
      destruct Hinv as [_ [Hp|[out Hp]]]; simpl in Hp; subst p; [done|].
      by rewrite Hnone.
    - pose proof (wf_threads _ Hwf _ _ Hth) as Hinv.
      destruct Hinv as [_ [Hp|[out Hp]]]; simpl in Hp; subst p; [done|].
      by rewrite Hnone.
    - pose proof (wf_threads _ Hwf _ _ Hth) as Hinv.
      destruct Hinv as [_ [Hp|[out Hp]]]; simpl in Hp; subst p; [done|].
      by rewrite Hnone. }
  split; [|split; [|split; [|split]]].
  - intros t th Hth. by destruct (Hdone _ _ Hth).
  - intros t key fn args Hop.
    destruct (thread_at _ _ _ _ Hr Hop) as [p Hat].
    by rewrite (Hown _ _ _ _ _ Hat) in Hat.
  - rewrite (journal_total _ (reachable_journal _ _ Hr)). by apply Hcount.
  - apply map_empty. intros k.
    destruct (in_flight (self w) !! k) as [c|] eqn:Hk; [|done].
    destruct (registry_active _ _ _ Hwf Hk) as ([o p] & Hth & Hact).
    destruct (Hdone _ _ Hth) as [Hret _]. unfold is_active in Hact.
    simpl in *. by destruct p.
  - intros Hrf. destruct (reachable_ledger _ _ Hrf Hr) as [Hh Hm _ _].
    unfold get_stats. rewrite Hh, Hm, Hfol. split; [done|].
    f_equal. by apply Hcount.
Qed.

(** ** The decorator [group] (lines 82-113)

    [group(key_fn)] returns [decorator], and [decorator(fn)] returns
    [wrapper].  An invocation [wrapper(args)] computes [custom_key] (line
    108) and is then the invocation [self.call(custom_key, fn, args)] (line
    109), unless [key_fn] raised.  [key_fn], like [generate_key], returns a
    string or raises. *)

(** Line 108: [custom_key = key_fn(args) if key_fn else None]. *)
Definition custom_key (key_fn : option (A -> completion string E)) (args : A)
  : completion (option string) E :=
  match key_fn with
  | Some f =>
      match f args with
      | Returns k => Returns (Some k)
      | Raises e => Raises e
      end
  | None => Returns None
  end.

(** Lines 106-109: the invocation of [call] that [wrapper(args)] makes, or
    the exception that [key_fn] raised before it. *)
Definition wrapper (key_fn : option (A -> completion string E)) (fn : Fn)
    (args : A) : completion op E :=
  match custom_key key_fn args with
  | Returns key => Returns (OpCall key fn args)
  | Raises e => Raises e
  end.

Definition decorator (key_fn : option (A -> completion string E)) (fn : Fn)
  : A -> completion op E :=
  wrapper key_fn fn.

Definition group (key_fn : option (A -> completion string E))
  : Fn -> A -> completion op E :=
  decorator key_fn.

(** The invocations of [call] made by invoking a decorated function on
    each of [argss]; an invocation whose [key_fn] raises makes none. *)
Definition invocations (key_fn : option (A -> completion string E)) (fn : Fn)
    (argss : list A) : list op :=
  omap (fun args =>
          match group key_fn fn args with
          | Returns o => Some o
          | Raises _ => None
          end) argss.

(** X9 (the decorator's key).
    Where a decorated function registers.  With a [key_fn] that returns a
    non-empty string, under that string, and [generate_key] plays no part
    (its failure included); with a [key_fn] that returns the empty string,
    or without [key_fn], under the automatic key; and when [key_fn] raises,
    the wrapper raises before [call] is entered. *)
Theorem group_key key_fn fn args :
  (forall f k, key_fn = Some f -> f args = Returns k -> k ≠ "" ->
     group key_fn fn args = Returns (OpCall (Some k) fn args) ∧
     resolve_key (Some k) fn args = Returns k) ∧
  (forall f, key_fn = Some f -> f args = Returns "" ->
     group key_fn fn args = Returns (OpCall (Some "") fn args) ∧
     resolve_key (Some "") fn args = derive_key fn args) ∧
  (key_fn = None ->
   group key_fn fn args = Returns (OpCall None fn args) ∧
   resolve_key None fn args = derive_key fn args) ∧
  (forall f e, key_fn = Some f -> f args = Raises e ->
     group key_fn fn args = Raises e) ∧
  (forall o, group key_fn fn args = Returns o ->
     ∃ key, o = OpCall key fn args).
Proof.
  unfold group, decorator, wrapper, custom_key.
  split; [|split; [|split; [|split]]].
  - intros f k -> -> Hk. split; [done|]. by apply resolve_key_explicit.
  - by intros f -> ->.
  - by intros ->.
  - by intros f e -> ->.
  - intros o Ho. destruct key_fn as [f|]; [destruct (f args)|];
      simplify_eq/=; eauto.
Qed.

Lemma invocations_const f fn argss K :
  (forall args, args ∈ argss -> f args = Returns K) ->
  invocations (Some f) fn argss = map (fun args => OpCall (Some K) fn args) argss.
Proof.
  induction argss as [|a argss IH]; intros Hf; [done|].
  unfold invocations in *. simpl.
  unfold group, decorator, wrapper, custom_key in *.
  rewrite (Hf a) by left. simpl. f_equal. apply IH.
  intros args Hargs. apply Hf. by right.
Qed.

(** X10 (the decorator coalesces).
    A decorated function whose [key_fn] maps all the given arguments to one
    key: when the invocations overlap, the work function is invoked once,
    with the arguments of the leader; the leader returns the outcome of
    that execution and the others what the leader stored of it, whatever
    their own arguments were: that same outcome, when the work function
    returned or raised an [Exception]. *)
Theorem group_coalesces_by_key_fn f fn argss K s1 s2 :
  K ≠ "" -> argss ≠ [] ->
  (forall args, args ∈ argss -> f args = Returns K) ->
  overlapping (exec s1 (init (invocations (Some f) fn argss))) ->
  all_returned (exec s2 (exec s1 (init (invocations (Some f) fn argss)))) ->
  ∃ t0 args0,
    argss !! t0 = Some args0 ∧
    (forall t th,
       threads (exec s2 (exec s1 (init (invocations (Some f) fn argss)))) !! t
       = Some th ->
       t_pc th = CallDone t0 (bool_decide (t = t0))
                   (if bool_decide (t = t0)
                    then unwrap (result_of t0 (fn_body fn args0))
                    else unwrap (stored t0 (fn_body fn args0)))) ∧
    (escapes (fn_body fn args0) = false ->
     unwrap (stored t0 (fn_body fn args0))
     = unwrap (result_of t0 (fn_body fn args0))) ∧
    call_count (exec s2 (exec s1 (init (invocations (Some f) fn argss)))) = 1.
Proof.
  intros HK Hne Hf. rewrite (invocations_const _ _ _ _ Hf).
  set (ops := map (fun args => OpCall (Some K) fn args) argss).
  intros Hov Hret.
  assert (same_key K ops) as Hsame.
  { intros o Ho. apply list_elem_of_fmap in Ho as (a & -> & Ha).
    exists (Some K), fn, a. split; [done|]. by apply resolve_key_explicit. }
  assert (ops ≠ []) as Hne' by (unfold ops; by destruct argss).
  destruct (single_flight _ _ _ _ Hsame Hne' Hov Hret)
    as (t0 & key & fn0 & args0 & p & Hat1 & _ & _ & Hat & Hall).
  assert (reachable ops (exec s2 (exec s1 (init ops)))) as Hr.
  { apply reachable_exec. by exists s1. }
  pose proof (thread_op _ _ _ _ Hr Hat) as Hop. simpl in Hop.
  unfold ops in Hop. change (map ?g ?l) with (g <$> l) in Hop.
  rewrite list_lookup_fmap in Hop.
  destruct (argss !! t0) as [a0|] eqn:Ha0; [|done].
  simpl in Hop. injection Hop as <- <- <-.
  exists t0, a0. split; [done|]. split; [done|].
  split; [intros Hesc; by rewrite stored_result|].
  by destruct (single_flight_stats _ _ _ _ _ _ _
                 (fun b => outcome_for b t0 (fn_body fn a0)) Hsame Hr Hat Hall)
    as (_ & ? & _).
Qed.

(** ** Automatic keys *)

(** X11 (automatic keys).
    The automatic key names the work function by its module and its name
    only, and for one function it is the same for two argument tuples
    exactly when [generate_key] does the same on both. *)
Theorem automatic_key_separates fn fn' args1 args2 :
  (resolve_key None fn args1 = resolve_key None fn args2
   <-> generate_key args1 = generate_key args2) ∧
  (fn_module fn = fn_module fn' -> fn_name fn = fn_name fn' ->
   resolve_key None fn args1 = resolve_key None fn' args1).
Proof.
  unfold resolve_key, derive_key. simpl. split; [split|].
  - unfold auto_key.
    destruct (generate_key args1), (generate_key args2); intros Heq;
      by simplify_eq/=.
  - by intros ->.
  - intros Hm Hn. unfold auto_key. by rewrite Hm, Hn.
Qed.

(** X12 (functions of one name).
    Two different work functions with the same module and name (two
    lambdas, or two nested functions of the same name), called without an
    explicit key on arguments with the same fingerprint, share a key: when
    the two calls overlap, one work function is invoked; the leader gets
    its outcome and the other caller what the leader stored of it: that
    same outcome, when the work function returned or raised an
    [Exception]. *)
Theorem same_name_functions_coalesce fn1 fn2 args1 args2 fp s1 s2 :
  fn_module fn1 = fn_module fn2 -> fn_name fn1 = fn_name fn2 ->
  generate_key args1 = Returns fp -> generate_key args2 = Returns fp ->
  overlapping (exec s1 (init [OpCall None fn1 args1; OpCall None fn2 args2])) ->
  all_returned
    (exec s2 (exec s1 (init [OpCall None fn1 args1; OpCall None fn2 args2]))) ->
  ∃ t0 fn0 args0,
    [OpCall None fn1 args1; OpCall None fn2 args2] !! t0
    = Some (OpCall None fn0 args0) ∧
    (forall t th,
       threads (exec s2 (exec s1 (init [OpCall None fn1 args1;
                                        OpCall None fn2 args2]))) !! t
       = Some th ->
       t_pc th = CallDone t0 (bool_decide (t = t0))
                   (if bool_decide (t = t0)
                    then unwrap (result_of t0 (fn_body fn0 args0))
                    else unwrap (stored t0 (fn_body fn0 args0)))) ∧
    (escapes (fn_body fn0 args0) = false ->
     unwrap (stored t0 (fn_body fn0 args0))
     = unwrap (result_of t0 (fn_body fn0 args0))) ∧
    call_count
      (exec s2 (exec s1 (init [OpCall None fn1 args1; OpCall None fn2 args2])))
    = 1.
Proof.
  intros Hm Hn Hfp1 Hfp2.
  set (ops := [OpCall None fn1 args1; OpCall None fn2 args2]).
  intros Hov Hret.
  assert (same_key (auto_key fn1 fp) ops) as Hsame.
  { intros o Ho. unfold ops in Ho.
    apply elem_of_cons in Ho as [->|Ho];
      [|apply elem_of_cons in Ho as [->|Ho]; [|by apply elem_of_nil in Ho]].
    - exists None, fn1, args1. split; [done|].
      unfold resolve_key, derive_key. simpl. by rewrite Hfp1.
    - exists None, fn2, args2. split; [done|].
      unfold resolve_key, derive_key, auto_key. simpl.
      by rewrite Hfp2, Hm, Hn. }
  destruct (single_flight _ _ _ _ Hsame ltac:(done) Hov Hret)
    as (t0 & key & fn0 & args0 & p & Hat1 & _ & _ & Hat & Hall).
  assert (reachable ops (exec s2 (exec s1 (init ops)))) as Hr.
  { apply reachable_exec. by exists s1. }
  pose proof (thread_op _ _ _ _ Hr Hat) as Hop. simpl in Hop.
  assert (key = None) as ->.
  { unfold ops in Hop. destruct t0 as [|[|t0]]; by simplify_eq/=. }
  exists t0, fn0, args0. split; [done|]. split; [done|].
  split; [intros Hesc; by rewrite stored_result|].
  by destruct (single_flight_stats _ _ _ _ _ _ _
                 (fun b => outcome_for b t0 (fn_body fn0 args0))
                 Hsame Hr Hat Hall)
    as (_ & ? & _).
Qed.

(** ** [forget] and [forget_all] *)

(** X13 (forgetting).
    [forget] removes the entry of its key and nothing else: the other
    entries and the statistics stay; forgetting a key that is not
    registered changes nothing (and does not raise); forgetting twice is
    forgetting once.  After it, a registration under that key elects a
    leader, and a registration under another key goes as before.
    [forget_all] does as much for every key. *)
Theorem forget_laws key sc :
  in_flight (forget key sc) !! key = None ∧
  (forall k, k ≠ key -> in_flight (forget key sc) !! k = in_flight sc !! k) ∧
  stats (forget key sc) = stats sc ∧
  (in_flight sc !! key = None -> forget key sc = sc) ∧
  forget key (forget key sc) = forget key sc ∧
  (forall t, (register key t (forget key sc)).2 = true) ∧
  (forall k t, k ≠ key ->
     (register k t (forget key sc)).2 = (register k t sc).2 ∧
     (register k t (forget key sc)).1.2 = (register k t sc).1.2) ∧
  in_flight (forget_all sc) = ∅ ∧
  stats (forget_all sc) = stats sc ∧
  (forall k t, (register k t (forget_all sc)).2 = true) ∧
  forget_all (forget key sc) = forget_all sc ∧
  forget key (forget_all sc) = forget_all sc.
Proof.
  destruct sc as [reg st sid]. unfold forget, forget_all, register. simpl.
  repeat split.
  - apply lookup_delete_eq.
  - intros k Hk. by apply lookup_delete_ne.
  - intros Hnone. f_equal. by apply delete_id.
  - f_equal. apply delete_id, lookup_delete_eq.
  - intros t. by rewrite lookup_delete_eq.
  - rewrite lookup_delete_ne by done. by destruct (reg !! k).
  - rewrite lookup_delete_ne by done. by destruct (reg !! k).
Qed.

(** ** The counters only grow *)

(** [errors] is not among them: its increment is not under the lock, and
    a leader can write a count that is older than the one it overwrites. *)
Definition counters_le (a b : Stats.t) : Prop :=
  (Stats.hits a <= Stats.hits b)%Z ∧
  (Stats.misses a <= Stats.misses b)%Z.

Lemma counters_le_step t (w w' : world) :
  OpResetStats ∉ ops_of w -> transition t w w' ->
  counters_le (stats (self w)) (stats (self w')).
Proof.
  intros Hnr Htr. unfold counters_le.
  destruct Htr as [ | key fn args k Hat Hk | key fn args e Hat Hk
    | key fn args k Hat Hno | key fn args k c Hat Hc | key fn args k c Hat
    | key fn args k c obj errs Hat | key fn args k c Hat
    | key fn args c cell Hat Hc
    | key fn args c b cell Hat Hc Hev | key fn args c b cell Hat Hc
    | Hat | Hat | k Hat | Hat ]; simpl;
    try (unfold register; rewrite ?Hno, ?Hc; simpl);
    try (destruct (stats_store_errors obj errs (self w))
           as (_ & _ & -> & -> & _));
    try lia.
  exfalso. apply Hnr. by eapply at_pc_elem.
Qed.

(** X14 (monotone counters).
    As long as [reset_stats] is not invoked, [hits] and [misses], which
    are written under the lock, never decrease: whatever runs between two
    observations, the later one shows counters at least as large. *)
Theorem counters_only_grow ops s s' :
  reset_free ops ->
  counters_le (get_stats (self (exec s (init ops))))
    (get_stats (self (exec s' (exec s (init ops))))).
Proof.
  intros Hrf. unfold get_stats. set (w0 := exec s (init ops)).
  assert (ops_of w0 = ops) as Hops0
    by (unfold w0; by rewrite ops_of_exec, ops_of_init).
  apply (exec_invariant
    (fun w' => ops_of w' = ops ∧
               counters_le (stats (self w0)) (stats (self w')))).
  - intros t w1 w2 [Hops Hle] Htr. split.
    + by rewrite (ops_of_step _ _ _ Htr).
    + pose proof (counters_le_step t w1 w2) as Hstep.
      rewrite Hops in Hstep. specialize (Hstep Hrf Htr).
      unfold counters_le in *. lia.
  - split; [done|]. unfold counters_le. lia.
Qed.

(** ** The cooperative variant ([src/_async.py])

    Under [asyncio] a task runs until it suspends, and [call] can suspend at
    three places only: [async with self.lock] (lines 35 and 55), [await
    fn(...)] (line 49) and [await fn_call.event.wait()] (line 60).  The lock
    is never held across a suspension (its blocks contain no [await]), so it
    is free whenever a task reaches it, and acquiring a free [asyncio.Lock]
    does not suspend; waiting for an [asyncio.Event] that is set does not
    suspend either.  So a task gives way only inside its work function and,
    as a follower, while the event is unset.  One _turn_ of a task is the
    run of transitions between two such points; a work function that never
    suspends makes the two turns of its leader follow one another. *)

Definition turn (t : nat) (w : world) : world :=
  match threads w !! t with
  | Some th =>
      match t_pc th with
      | Enter => exec [t; t] w                (* lines 32-45, to an [await] *)
      | AtWork _ _ => exec (replicate 6 t) w  (* lines 49-61: the work ends *)
      | AtWait _ false => exec [t; t] w       (* lines 60-61: a follower *)
      | _ => w
      end
  | None => w
  end.

(** A cooperative schedule: the tasks that get a turn, in order. *)
Definition coop (sched : list nat) (w : world) : world :=
  fold_left (fun w t => turn t w) sched w.

(** Where a task can be when another task runs. *)
Definition suspended (th : thread) : bool :=
  match t_pc th with
  | Enter | AtWork _ _ | AtWait _ false | CallDone _ _ _ | Done _ => true
  | _ => false
  end.

(** The program points that can follow one another. *)
Definition next_pc (t : nat) (p p' : pc) : Prop :=
  match p, p' with
  | Enter, AtLock _ | Enter, Done _ => True
  | AtLock k, AtWork k' c => k' = k ∧ c = t
  | AtLock _, AtWait _ false => True
  | AtWork k c, AtErrInc k' c' _ _ | AtWork k c, AtFinally k' c'
  | AtErrInc k c _ _, AtFinally k' c' => k' = k ∧ c' = c
  | AtFinally _ c, AtSet c' | AtSet c, AtWait c' true
  | AtSet c, CallDone c' true _ => c' = c
  | AtWait c b, AtUnwrap c' b' | AtUnwrap c b, CallDone c' b' _ =>
      c' = c ∧ b' = b
  | _, _ => False
  end.

(** A thread that has not returned and is not blocked moves on. *)
Lemma step_advances (w : world) t o p :
  wf w -> at_pc w t o p -> returned p = false -> blocked w p = false ->
  ∃ p', threads (step t w) = move t o p' w ∧ next_pc t p p'.
Proof.
  intros Hwf Hme Hret Hblk.
  pose proof (step_decreases w t _ Hwf Hme Hret Hblk) as Hlt.
  pose proof (step_transition t w) as Htr.
  destruct Htr as [ | key fn args k Hat Hk | key fn args e Hat Hk
    | key fn args k Hat Hno | key fn args k c Hat Hc | key fn args k c Hat
    | key fn args k c obj errs Hat | key fn args k c Hat
    | key fn args c cell Hat Hc
    | key fn args c b cell Hat Hc Hev | key fn args c b cell Hat Hc
    | Hat | Hat | k Hat | Hat ]; [lia|..].
  all: unfold at_pc in Hme, Hat; rewrite Hme in Hat; injection Hat as -> ->.
  all: next_pc_cases.
  all: eexists; split; [reflexivity|]; simpl; done.
Qed.

Lemma at_pc_moved (w w' : world) t o p p' :
  at_pc w t o p -> threads w' = move t o p' w -> at_pc w' t o p'.
Proof.
  intros Hat Hths. unfold at_pc. rewrite Hths. by eapply lookup_move_eq.
Qed.

Lemma exec_own_thread n t t' (w : world) :
  t' ≠ t -> threads (exec (replicate n t) w) !! t' = threads w !! t'.
Proof.
  intros Hne. revert w. induction n as [|n IH]; intros w; simpl; [done|].
  rewrite IH. apply (transition_other t t' w (step t w)); [|done].
  apply step_transition.
Qed.

Lemma turn_exec t (w : world) : ∃ n, turn t w = exec (replicate n t) w.
Proof.
  unfold turn. destruct (threads w !! t) as [[o p]|]; [|by exists 0].
  destruct p as [| | | | | |c []| | |]; simpl;
    first [by exists 2|by exists 6|by exists 0].
Qed.

(** A leader runs to its end without waiting for anybody. *)
Lemma leader_run t o n : forall (w : world) p,
  wf w -> at_pc w t o p -> is_leader (MkThread o p) = true -> rank p <= n ->
  ∃ p', at_pc (exec (replicate n t) w) t o p' ∧ returned p' = true.
Proof.
  induction n as [|n IH]; intros w p Hwf Hat Hlead Hrank.
  { exists p. split; [done|]. apply rank_returned. lia. }
  destruct (returned p) eqn:Hret.
  { exists p. split; [|done]. by apply exec_returned. }
  assert (blocked w p = false) as Hblk.
  { pose proof (wf_threads _ Hwf _ _ Hat) as Hinv.
    unfold thread_inv, call_inv, is_leader in *. simpl in *.
    destruct p as [| | | | | |c []| | |]; try done.
    destruct o; [|by destruct Hinv as [_ [?|[? ?]]]..].
    destruct Hinv as (-> & Hcell & _). simpl. by rewrite Hcell. }
  destruct (step_advances _ _ _ _ Hwf Hat Hret Hblk) as (p' & Hths & Hsucc).
  simpl. apply (IH (step t w) p').
  - eapply wf_step; [done|apply step_transition].
  - by eapply at_pc_moved.
  - unfold is_leader in *. simpl in *.
    destruct p, p' as [| | | | | |? b'| |? b'' ?|]; simpl in *; try done;
      destruct_and?; subst; try done;
      match goal with |- (if ?b then _ else _) = _ => by destruct b end.
  - destruct p, p'; simpl in *; try done; lia.
Qed.

(** A turn ends at a suspension point. *)
Lemma turn_suspends t (w : world) th :
  wf w -> threads w !! t = Some th -> suspended th = true ->
  ∃ th', threads (turn t w) !! t = Some th' ∧ suspended th' = true.
Proof.
  intros Hwf Hth Hsus. destruct th as [o p]. unfold turn. rewrite Hth.
  unfold suspended in Hsus. simpl in *.
  destruct p as [|k|k c|k c ? ?|k c|c|c [] |c b|c b out|out]; try done;
    try (by eexists).
  - (* from the start to the first [await] *)
    destruct (step_advances _ _ _ _ Hwf Hth eq_refl eq_refl)
      as (p1 & Hths1 & Hs1).
    pose proof (at_pc_moved _ _ _ _ _ _ Hth Hths1) as Hat1.
    assert (wf (step t w)) as Hwf1
      by (eapply wf_step; [done|apply step_transition]).
    destruct p1 as [|k| | | | | | | |out]; try done.
    + destruct (step_advances _ _ _ _ Hwf1 Hat1 eq_refl eq_refl)
        as (p2 & Hths2 & Hs2).
      pose proof (at_pc_moved _ _ _ _ _ _ Hat1 Hths2) as Hat2.
      exists (MkThread o p2). split; [done|]. unfold suspended. simpl.
      by destruct p2 as [| | | | | |? []| | |].
    + exists (MkThread o (Done out)). split; [|done].
      by apply (exec_returned [t]).
  - (* the work function ends *)
    destruct (leader_run t o 6 w (AtWork k c) Hwf Hth eq_refl)
      as (p' & Hat' & Hret); [simpl; lia|].
    exists (MkThread o p'). split; [done|]. unfold suspended. simpl.
    by destruct p'.
  - (* a follower is woken, or keeps waiting *)
    destruct (blocked w (AtWait c false)) eqn:Hblk.
    { assert (step t w = w) as Heq.
      { apply step_stutters. intros th' Hth'. right.
        rewrite Hth in Hth'. by injection Hth' as <-. }
      simpl. rewrite !Heq. by eexists. }
    destruct (step_advances _ _ _ _ Hwf Hth eq_refl Hblk)
      as (p1 & Hths1 & Hs1).
    pose proof (at_pc_moved _ _ _ _ _ _ Hth Hths1) as Hat1.
    assert (wf (step t w)) as Hwf1
      by (eapply wf_step; [done|apply step_transition]).
    destruct p1 as [| | | | | | |c1 b1| |]; try done.
    destruct Hs1 as [-> ->].
    destruct (step_advances _ _ _ _ Hwf1 Hat1 eq_refl eq_refl)
      as (p2 & Hths2 & Hs2).
    pose proof (at_pc_moved _ _ _ _ _ _ Hat1 Hths2) as Hat2.
    exists (MkThread o p2). split; [done|]. unfold suspended. simpl.
    by destruct p2.
Qed.

Definition all_suspended (w : world) : Prop :=
  forall t th, threads w !! t = Some th -> suspended th = true.

Lemma coop_suspended ops sched : forall (w : world),
  reachable ops w -> all_suspended w ->
  reachable ops (coop sched w) ∧ all_suspended (coop sched w).
Proof.
  induction sched as [|t sched IH]; intros w Hr Hsus; [done|].
  simpl. apply IH.
  - destruct (turn_exec t w) as [n ->]. by apply reachable_exec.
  - intros t' th' Hth'. destruct (decide (t' = t)) as [->|Hne].
    + destruct (threads w !! t) as [th|] eqn:Hth.
      * destruct (turn_suspends t w th (reachable_wf _ _ Hr) Hth
                    (Hsus _ _ Hth)) as (th'' & Hth'' & ?).
        congruence.
      * unfold turn in Hth'. rewrite Hth in Hth'. congruence.
    + destruct (turn_exec t w) as [n Hn]. rewrite Hn in Hth'.
      rewrite exec_own_thread in Hth' by done. by eapply Hsus.
Qed.

Lemma count_plus f g h (l : list thread) :
  (forall t th, l !! t = Some th -> b2n (f th) = b2n (g th) + b2n (h th)) ->
  count f l = count g l + count h l.
Proof.
  induction l as [|x l IH]; intros Heq; simpl; [done|].
  pose proof (Heq 0 x eq_refl) as Hx. unfold b2n in Hx.
  rewrite IH by (intros t th Ht; by apply (Heq (S t))).
  destruct (f x), (g x), (h x); simpl in *; lia.
Qed.

(** The work functions in progress. *)
Definition at_work (th : thread) : bool :=
  match t_pc th with
  | AtWork _ _ => true
  | _ => false
  end.

(** X15 (the cooperative variant).
    In the cooperative variant, whenever another task can run: every task
    is at a suspension point (not started, inside its work function,
    waiting as a follower, or returned); an event that is not set belongs to
    a leader that is inside its work function and has stored nothing yet, so
    nobody sees a result that is stored but not signalled, or a key that is
    removed but not signalled; without [reset_stats],
    [misses = executions + in_flight], and [in_flight] is the number of work
    functions in progress; without [forget], the registry holds exactly the
    calls whose work function is in progress.  Every cooperative execution
    is an execution of the interleaving model. *)
Theorem cooperative_suspension_points ops sched :
  reachable ops (coop sched (init ops)) ∧
  (forall t th, threads (coop sched (init ops)) !! t = Some th ->
     suspended th = true) ∧
  (forall c r, heap (coop sched (init ops)) !! c = Some (MkCall r false) ->
     r = Unset ∧
     ∃ key fn args k,
       at_pc (coop sched (init ops)) c (OpCall key fn args) (AtWork k c)) ∧
  (reset_free ops ->
   Stats.misses (get_stats (self (coop sched (init ops))))
   = (Z.of_nat (call_count (coop sched (init ops)))
      + Stats.in_flight (get_stats (self (coop sched (init ops)))))%Z ∧
   Stats.in_flight (get_stats (self (coop sched (init ops))))
   = Z.of_nat (count at_work (threads (coop sched (init ops))))) ∧
  (forget_free ops ->
   forall k c,
     in_flight (self (coop sched (init ops))) !! k = Some c <->
     ∃ key fn args,
       at_pc (coop sched (init ops)) c (OpCall key fn args) (AtWork k c)).
Proof.
  destruct (coop_suspended ops sched (init ops)) as [Hr Hsus].
  { by exists []. }
  { intros t th Hth. simpl in Hth. rewrite list_lookup_fmap in Hth.
    destruct (ops !! t); [|done]. by injection Hth as <-. }
  set (w := coop sched (init ops)) in *.
  pose proof (reachable_wf _ _ Hr) as Hwf.
  split; [done|]. split; [done|]. split; [|split].
  - intros c r Hc.
    destruct (cell_owner _ _ _ Hwf Hc)
      as (key & fn & args & p & Hat & Hlead & Hfc & _ & Hunset).
    specialize (Hunset eq_refl). pose proof (Hsus _ _ Hat) as Hs.
    pose proof (wf_threads _ Hwf _ _ Hat) as Hinv.
    unfold thread_inv, call_inv, suspended, is_leader, has_signalled in *.
    simpl in *.
    destruct p as [| |k c'| | | |? []| |? []|]; try done.
    injection Hfc as ->. destruct Hinv as (_ & _ & Hcell).
    split; [congruence|]. by exists key, fn, args, k.
  - intros Hrf. destruct (reachable_ledger _ _ Hrf Hr) as [_ Hm _ Hi].
    pose proof (journal_total _ (reachable_journal _ _ Hr)) as Htot.
    unfold get_stats. rewrite Hm, Hi, Htot, <- Nat2Z.inj_add. split.
    + f_equal. apply count_plus. intros t [o p] Hth.
      specialize (Hsus _ _ Hth).
      unfold suspended, is_leader, has_worked, is_active in *. simpl in *.
      by destruct p as [| | | | | |? []| |? []|].
    + f_equal. apply count_ext. intros t [o p] Hth.
      specialize (Hsus _ _ Hth).
      unfold suspended, is_active, at_work in *. simpl in *.
      by destruct p.
  - intros Hff k c. split.
    + intros Hk. destruct (wf_registry _ Hwf _ _ Hk) as ([o p] & Hth & Hact).
      pose proof (Hsus _ _ Hth) as Hs. unfold suspended in Hs. simpl in *.
      destruct Hact as [-> | [(? & ? & ->) | ->]]; try done.
      pose proof (wf_threads _ Hwf _ _ Hth) as Hinv.
      destruct o as [key fn args| | |?|];
        [|by destruct Hinv as [_ [?|[? ?]]]..].
      by exists key, fn, args.
    + intros (key & fn & args & Hat).
      by apply (reachable_registry_full_on k ops w
                  (forget_free_spares _ _ Hff) Hr c _ Hat).
Qed.

(** ** Fair schedules *)

Lemma exec_skips sched t (w : world) :
  t ∉ sched -> threads (exec sched w) !! t = threads w !! t.
Proof.
  revert w. induction sched as [|t' sched IH]; intros w Hnot; simpl; [done|].
  apply not_elem_of_cons in Hnot as [Hne Hnot]. rewrite IH by done.
  apply (transition_other t' t w (step t' w)); [|done]. apply step_transition.
Qed.

(** An event that is set stays set: who can move now can move later. *)
Lemma unblocked_stays sched (w : world) p :
  wf w -> blocked w p = false -> blocked (exec sched w) p = false.
Proof.
  intros Hwf. destruct p as [| | | | | |c b| | |]; try done. simpl.
  destruct (heap w !! c) as [[r ev]|] eqn:Hc; [|done]. simpl.
  destruct ev; [|done]. intros _.
  by rewrite (exec_frozen sched _ _ _ Hwf Hc).
Qed.

Lemma all_returned_todo (w : world) :
  all_returned w <-> todo (threads w) = 0.
Proof.
  unfold all_returned. induction (threads w) as [|x l IH]; simpl.
  - split; [done|]. intros _ t th Hth. by rewrite lookup_nil in Hth.
  - split.
    + intros Hall. pose proof (Hall 0 x eq_refl) as Hx.
      apply rank_returned in Hx. rewrite Hx. apply IH.
      intros t th Hth. by apply (Hall (S t)).
    + intros Hz [|t] th Hth; simplify_eq/=.
      * apply rank_returned. lia.
      * apply (proj2 IH) with t; [lia|done].
Qed.

(** A stretch of a schedule in which every invocation gets a transition
    brings the system closer to the end, unless it is there. *)
Lemma round_progress sched (w : world) :
  wf w -> (forall t, t < length (threads w) -> t ∈ sched) ->
  all_returned w ∨ todo (threads (exec sched w)) < todo (threads w).
Proof.
  intros Hwf Hcovers.
  destruct (all_returned_or_not (threads w)) as [Hall|(t0 & th0 & Hth0 & Hret0)];
    [by left|right].
  assert (∃ t th, threads w !! t = Some th ∧ returned (t_pc th) = false ∧
                  blocked w (t_pc th) = false) as (t & th & Hth & Hret & Hblk).
  { destruct (blocked w (t_pc th0)) eqn:Hblk0; [|by eauto].
    destruct (blocked_on_leader _ _ _ Hwf Hth0 Hblk0) as (c & thc & ? & ? & ?).
    eauto. }
  destruct (list_elem_of_split_l sched t) as (s1 & s2 & -> & Hnot).
  { apply Hcovers. by eapply lookup_lt_Some. }
  rewrite exec_app. simpl.
  set (w1 := exec s1 w).
  assert (wf w1) as Hwf1 by (by apply exec_wf).
  assert (todo (threads (step t w1)) < todo (threads w1)) as Hlt.
  { eapply step_decreases; [done| |done|].
    - unfold w1. by rewrite exec_skips.
    - by apply unblocked_stays. }
  pose proof (todo_exec s1 w Hwf). fold w1 in H.
  assert (wf (step t w1)) as Hwf2
    by (eapply wf_step; [done|apply step_transition]).
  pose proof (todo_exec s2 (step t w1) Hwf2). lia.
Qed.

Lemma exec_length sched (w : world) :
  length (threads (exec sched w)) = length (threads w).
Proof.
  pose proof (ops_of_exec sched w) as Hops. unfold ops_of in Hops.
  apply (f_equal length) in Hops. by rewrite !length_map in Hops.
Qed.

Lemma fair_rounds rounds : forall (w : world),
  wf w ->
  Forall (fun s => forall t, t < length (threads w) -> t ∈ s) rounds ->
  todo (threads w) <= length rounds ->
  all_returned (exec (concat rounds) w).
Proof.
  induction rounds as [|s rounds IH]; intros w Hwf Hfair Hlen; simpl in *.
  { apply all_returned_todo. lia. }
  apply Forall_cons in Hfair as [Hs Hfair].
  rewrite exec_app.
  assert (wf (exec s w)) as Hwf' by (by apply exec_wf).
  destruct (round_progress s w Hwf Hs) as [Hall|Hlt].
  - apply all_returned_todo.
    apply all_returned_todo in Hall.
    pose proof (todo_exec s w Hwf).
    pose proof (todo_exec (concat rounds) (exec s w) Hwf'). lia.
  - apply IH; [done| |lia].
    eapply Forall_impl; [exact Hfair|]. simpl. intros s' Hs' t Ht.
    apply Hs'. by rewrite exec_length in Ht.
Qed.

(** X16 (fair schedules).
    Under any fair scheduler every invocation returns.  Cut a schedule
    into rounds in each of which every invocation gets at least one
    transition, in whatever order and however often: once there are as many
    rounds as transitions are left (at most 8 per invocation), all
    invocations have returned.  Round-robin is the simplest case. *)
Theorem fair_schedules_return ops (w : world) rounds :
  reachable ops w ->
  Forall (fun s => forall t, t < length ops -> t ∈ s) rounds ->
  todo (threads w) <= length rounds ->
  all_returned (exec (concat rounds) w).
Proof.
  intros Hr Hfair Hlen. apply fair_rounds; [by eapply reachable_wf| |done].
  eapply Forall_impl; [exact Hfair|]. simpl. intros s Hs t Ht. apply Hs.
  rewrite <- (reachable_ops _ _ Hr). unfold ops_of. by rewrite length_map.
Qed.

End Coordinator.

(** * Scenarios

    The tests' work functions on a concrete instance: arguments are an
    integer or a live resource handle, values are integers, exceptions are
    their messages, or the name of their class where they carry none. *)

From stdpp Require Import pretty.

Inductive arg : Type :=
| Int (z : Z)
| Handle.

(** The built-in exceptions that are not instances of [Exception]. *)
Definition base_exceptions : list string :=
  [ "KeyboardInterrupt"; "SystemExit"; "GeneratorExit"; "CancelledError" ].

Global Instance string_exceptions : Exceptions string :=
  fun e => negb (existsb (String.eqb e) base_exceptions).

(** A stand-in for [generate_key] of the missing [src/_core.py]: a textual
    fingerprint of the argument; a handle cannot be serialised. *)
Definition example_generate_key (a : arg) : completion string string :=
  match a with
  | Int z => Returns ("(" +:+ pretty z +:+ ",)")
  | Handle => Raises "TypeError: not serializable"
  end.

(** [heavy] of [test_sync_group_coalesces_concurrent_requests]. *)
Definition heavy : Fn arg Z string :=
  MkFn "tests.test_sync" "heavy"
    (fun a =>
       match a with
       | Int value => Returns (value * 2)%Z
       | Handle => Raises "TypeError: unsupported operand"
       end).

(** [tracked] of [test_sync_forget_prevents_coalescing]. *)
Definition tracked : Fn arg Z string :=
  MkFn "tests.test_sync" "tracked"
    (fun a =>
       match a with
       | Int value => Returns value
       | Handle => Raises "TypeError: unsupported operand"
       end).

(** A work function that always raises. *)
Definition flaky : Fn arg Z string :=
  MkFn "tests.test_sync" "flaky" (fun _ => Raises "boom").

(** A work function that ends the program: [sys.exit()] raises
    [SystemExit], which is no [Exception]. *)
Definition quits : Fn arg Z string :=
  MkFn "app.jobs" "quits" (fun _ => Raises "SystemExit").

Local Abbreviation run := (exec example_generate_key).

Ltac check_world :=
  first [ apply same_key_check | apply overlapping_check
        | apply all_returned_check | apply reset_free_check
        | apply forget_free_check | apply spares_check
        | apply overlapping_on_check | apply returned_on_check ];
  vm_compute; reflexivity.

(** Six concurrent callers of [heavy(21)]: the spec's concrete scenario. *)
Definition six_callers : list (op arg Z string) :=
  replicate 6 (OpCall None heavy (Int 21)).

Definition six_register : list nat := [0; 0; 1; 1; 2; 2; 3; 3; 4; 4; 5; 5].

Definition six_finish : list nat :=
  [0; 0; 0; 0; 0; 1; 1; 2; 2; 3; 3; 4; 4; 5; 5].

(** Three callers on one explicit key with different arguments, amid a
    call on another key, a [forget] of that other key and a [reset_stats];
    of the three, thread 2 registers first. *)
Definition mixed_traffic : list (op arg Z string) :=
  [ OpCall (Some "user:1") tracked (Int 10);
    OpCall (Some "user:2") tracked (Int 99);
    OpCall (Some "user:1") tracked (Int 20);
    OpForget "user:2";
    OpCall (Some "user:1") tracked (Int 30);
    OpResetStats ].

Definition mixed_register : list nat := [2; 2; 1; 1; 0; 0; 3; 4; 4; 5].

Definition mixed_finish : list nat :=
  [2; 2; 2; 2; 2; 0; 0; 4; 4; 1; 1; 1; 1; 1].

Lemma coalescing_single_flight_witness :
  map t_pc (threads (run mixed_finish (run mixed_register (init mixed_traffic))))
  = [ CallDone 2 false (Returned 20%Z); CallDone 1 true (Returned 99%Z);
      CallDone 2 true (Returned 20%Z); Done NoValue;
      CallDone 2 false (Returned 20%Z); Done NoValue ] ∧
  ∃ t0 key fn args,
    mixed_traffic !! t0 = Some (OpCall key fn args) ∧
    forall t th,
      threads (run mixed_finish (run mixed_register (init mixed_traffic))) !! t
      = Some th ->
      key_of example_generate_key (t_op th) = Some "user:1" ->
      (∃ out,
         t_pc th = CallDone t0 (bool_decide (t = t0)) out ∧
         (t = t0 ∨ escapes (fn_body fn args) = false ->
          out = unwrap (result_of t0 (fn_body fn args)))) ∧
      works_of t (trace (run mixed_finish
                           (run mixed_register (init mixed_traffic))))
      = if bool_decide (t = t0) then 1 else 0.
Proof.
  split; [vm_compute; reflexivity|].
  destruct (coalescing_single_flight example_generate_key "user:1"
              mixed_traffic mixed_register 0
              (OpCall (Some "user:1") tracked (Int 10)))
    as (_ & (t0 & key & fn & args & Hop & _ & Hone) & _);
    [check_world|reflexivity|reflexivity|check_world|].
  exists t0, key, fn, args. split; [exact Hop|].
  apply (Hone mixed_finish). check_world.
Defined.

(** Two callers overlap on one key, and the work function of the leader
    raises [SystemExit].  It is invoked once and the leader raises what it
    raised; but the [except] clause does not run, nothing is stored in the
    call, and the follower is woken on the result as it was created: it
    does not raise the failure of the leader. *)
Definition two_quit : list (op arg Z string) :=
  replicate 2 (OpCall (Some "job") quits (Int 7)).

Lemma follower_misses_uncaught_failure :
  overlapping (run [0; 0; 1; 1] (init two_quit)) ∧
  map t_pc (threads (run [0; 0; 0; 1; 1] (run [0; 0; 1; 1] (init two_quit))))
  = [ CallDone 0 true (Raised 0 "SystemExit"); CallDone 0 false LogicError ] ∧
  heap (run [0; 0; 0; 1; 1] (run [0; 0; 1; 1] (init two_quit))) !! 0
  = Some (MkCall Unset true) ∧
  call_count (run [0; 0; 0; 1; 1] (run [0; 0; 1; 1] (init two_quit))) = 1.
Proof.
  split; [check_world|]. repeat split; vm_compute; reflexivity.
Qed.

Lemma stats_after_single_flight_witness :
  get_stats (self (run six_finish (run six_register (init six_callers))))
  = {| Stats.hits := 5; Stats.misses := 1;
       Stats.errors := 0; Stats.in_flight := 0 |}.
Proof.
  apply (stats_after_single_flight example_generate_key
           "tests.test_sync.heavy:(21,)" six_callers six_register six_finish);
    [check_world|discriminate|check_world|].
  intros t th Hth.
  apply (threads_check
           (fun th => match t_pc th with
                      | CallDone _ _ (Returned _) => true
                      | _ => false
                      end)) in Hth; [|vm_compute; reflexivity].
  destruct (t_pc th) as [| | | | | | | |c b [v| | | |]|]; try discriminate.
  by exists c, b, v.
Defined.

Definition three_flaky : list (op arg Z string) :=
  replicate 3 (OpCall (Some "job") flaky (Int 7)).

Lemma failure_shared_and_counted_once_witness :
  map t_pc (threads (run [0; 0; 0; 0; 0; 0; 1; 1; 2; 2]
                       (run [0; 0; 1; 1; 2; 2] (init three_flaky))))
  = [ CallDone 0 true (Raised 0 "boom"); CallDone 0 false (Raised 0 "boom");
      CallDone 0 false (Raised 0 "boom") ] ∧
  Stats.errors
    (get_stats (self (run [0; 0; 0; 0; 0; 0; 1; 1; 2; 2]
                        (run [0; 0; 1; 1; 2; 2] (init three_flaky))))) = 1%Z ∧
  in_flight (self (run [0; 0; 0; 0; 0; 0; 1; 1; 2; 2]
                     (run [0; 0; 1; 1; 2; 2] (init three_flaky)))) !! "job"
  = None.
Proof.
  destruct (failure_shared_and_counted_once example_generate_key "job"
              three_flaky [0; 0; 1; 1; 2; 2]
              0 (Some "job") flaky (Int 7) (AtWork "job" 0) "boom")
    as (_ & Hfinal);
    [check_world|check_world|vm_compute; reflexivity|done|done|done|].
  destruct (Hfinal [0; 0; 0; 0; 0; 0; 1; 1; 2; 2]) as (_ & Herr & Hgone & _);
    [check_world|].
  split; [vm_compute; reflexivity|]. by split.
Defined.

(** Three callers overlap on one key, and the work function of the leader
    raises [SystemExit]: the followers do not receive that failure, and
    [errors] stays 0. *)
Definition three_quit : list (op arg Z string) :=
  replicate 3 (OpCall (Some "job") quits (Int 7)).

Lemma uncaught_failure_not_shared_nor_counted :
  overlapping (run [0; 0; 1; 1; 2; 2] (init three_quit)) ∧
  at_pc (run [0; 0; 1; 1; 2; 2] (init three_quit)) 0
    (OpCall (Some "job") quits (Int 7)) (AtWork "job" 0) ∧
  fn_body quits (Int 7) = Raises "SystemExit" ∧
  map t_pc (threads (run [0; 0; 0; 1; 1; 2; 2]
                       (run [0; 0; 1; 1; 2; 2] (init three_quit))))
  = [ CallDone 0 true (Raised 0 "SystemExit"); CallDone 0 false LogicError;
      CallDone 0 false LogicError ] ∧
  Stats.errors
    (get_stats (self (run [0; 0; 0; 1; 1; 2; 2]
                        (run [0; 0; 1; 1; 2; 2] (init three_quit))))) = 0%Z.
Proof.
  split; [check_world|]. repeat split; vm_compute; reflexivity.
Qed.

(** ** Explicit keys *)

Definition one_explicit : list (op arg Z string) :=
  [ OpCall (Some "user:1") heavy (Int 1) ].

Definition one_empty_key : list (op arg Z string) :=
  [ OpCall (Some "") heavy (Int 21) ].

(** An explicit key that is the empty string is not used as given: the
    call is registered under the derived key, and nothing under the empty
    string. *)
Lemma empty_explicit_key_is_replaced :
  resolve_key example_generate_key (Some "") heavy (Int 21)
  = Returns "tests.test_sync.heavy:(21,)" ∧
  in_flight (self (run [0; 0] (init one_empty_key))) !! "" = None ∧
  in_flight (self (run [0; 0] (init one_empty_key)))
    !! "tests.test_sync.heavy:(21,)" = Some 0.
Proof. repeat split; vm_compute; reflexivity. Qed.

Lemma explicit_key_used_unless_empty_witness :
  resolve_key example_generate_key (Some "user:1") heavy (Int 1)
  = Returns "user:1" ∧
  at_pc (run [0; 0] (init one_explicit)) 0 (OpCall (Some "user:1") heavy (Int 1))
    (AtWork "user:1" 0).
Proof.
  destruct (explicit_key_used_unless_empty example_generate_key
              (init one_explicit) 0 (Some "user:1") heavy (Int 1))
    as [Hexplicit _]; [reflexivity|].
  destruct (Hexplicit "user:1" eq_refl) as (Hres & _ & Hreg); [done|].
  split; [exact Hres|]. exact (proj1 Hreg).
Defined.

(** ** Key derivation that raises *)

Definition one_handle : list (op arg Z string) :=
  [ OpCall None heavy Handle ].

Lemma key_derivation_failure_witness :
  self (step example_generate_key 0 (init one_handle)) = self (init one_handle) ∧
  at_pc (run [0; 0] (step example_generate_key 0 (init one_handle))) 0
    (OpCall None heavy Handle) (Done (Raised 0 "TypeError: not serializable")) ∧
  works_of 0 (trace (run [0; 0] (step example_generate_key 0 (init one_handle))))
  = 0.
Proof.
  destruct (key_derivation_failure example_generate_key one_handle
              (init one_handle) 0 None heavy Handle
              "TypeError: not serializable" [0; 0])
    as (Hself & _ & _ & _ & Hdone & Hwork);
    [by exists []|reflexivity|reflexivity|reflexivity|].
  by repeat split.
Defined.

(** ** The forget scenario *)

(** Thread 0 is [tracked(20)] in the background, thread 1 is
    [forget("fixed_key")], thread 2 is [tracked(30)]; thread 3 waits for
    thread 0. *)
Definition forget_scenario : list (op arg Z string) :=
  forget_pool "fixed_key"
    (OpCall (Some "fixed_key") tracked (Int 20))
    (OpCall (Some "fixed_key") tracked (Int 30))
    [ OpCall (Some "fixed_key") tracked (Int 25) ].

(** The leader and its follower have registered; nothing is forgotten yet. *)
Definition forget_before : world arg Z string :=
  run [0; 0; 3; 3] (init forget_scenario).

Definition forget_finish : list nat :=
  [2; 2; 2; 0; 0; 0; 0; 0; 3; 3; 2; 2; 2; 2].

(** Leaders in flight on two keys, one of which is forgotten. *)
Definition forget_among : list (op arg Z string) :=
  [ OpCall (Some "a") heavy (Int 1); OpCall (Some "b") heavy (Int 2);
    OpForget "a" ].

Lemma forget_mid_flight_witness :
  (in_flight (self (run [0; 0; 1; 1] (init forget_among))) !! "a" = Some 0 ∧
   in_flight (self (run [0; 0; 1; 1; 2] (init forget_among))) !! "a" = None ∧
   in_flight (self (run [0; 0; 1; 1; 2] (init forget_among))) !! "b" = Some 1 ∧
   stats (self (run [0; 0; 1; 1; 2] (init forget_among)))
   = stats (self (run [0; 0; 1; 1] (init forget_among)))) ∧
  map t_pc (threads (run forget_finish (step example_generate_key 1 forget_before)))
  = [ CallDone 0 true (Returned 20%Z); Done NoValue;
      CallDone 2 true (Returned 30%Z); CallDone 0 false (Returned 20%Z) ] ∧
  call_count (run forget_finish (step example_generate_key 1 forget_before)) = 2.
Proof.
  split.
  { destruct (forget_mid_flight example_generate_key
                (run [0; 0; 1; 1] (init forget_among)) 2 "a")
      as ((_ & Hgone & Hothers & Hstats & _) & _); [vm_compute; reflexivity|].
    split; [vm_compute; reflexivity|]. split; [exact Hgone|].
    split; [|exact Hstats].
    change (run [0; 0; 1; 1; 2] (init forget_among))
      with (step example_generate_key 2 (run [0; 0; 1; 1] (init forget_among))).
    rewrite Hothers by done. vm_compute; reflexivity. }
  split; [vm_compute; reflexivity|].
  destruct (forget_mid_flight example_generate_key forget_before 1 "fixed_key")
    as (_ & _ & Hscenario); [vm_compute; reflexivity|].
  destruct (Hscenario (Some "fixed_key") tracked (Int 20)
              (Some "fixed_key") tracked (Int 30)
              [ OpCall (Some "fixed_key") tracked (Int 25) ]
              (AtWork "fixed_key" 0) Enter)
    as (_ & Hfinal).
  - reflexivity.
  - by exists [0; 0; 3; 3].
  - reflexivity.
  - vm_compute; reflexivity.
  - reflexivity.
  - vm_compute; reflexivity.
  - by left.
  - intros t th Ht Hth.
    destruct t as [|[|[|[|t]]]]; try lia; vm_compute in Hth; by simplify_eq.
  - apply (Hfinal forget_finish). check_world.
Defined.

(** The forget scenario with a leader whose work function raises
    [SystemExit]: the follower that waits for it does not receive that
    outcome. *)
Definition forget_quit_scenario : list (op arg Z string) :=
  forget_pool "fixed_key"
    (OpCall (Some "fixed_key") quits (Int 20))
    (OpCall (Some "fixed_key") tracked (Int 30))
    [ OpCall (Some "fixed_key") quits (Int 25) ].

Lemma forgotten_leader_uncaught_failure :
  map t_pc (threads (run [0; 0; 3; 3] (init forget_quit_scenario)))
  = [ AtWork "fixed_key" 0; Enter; Enter; AtWait 0 false ] ∧
  map t_pc (threads (run forget_finish
                       (step example_generate_key 1
                          (run [0; 0; 3; 3] (init forget_quit_scenario)))))
  = [ CallDone 0 true (Raised 0 "SystemExit"); Done NoValue;
      CallDone 2 true (Returned 30%Z); CallDone 0 false LogicError ] ∧
  call_count (run forget_finish
                (step example_generate_key 1
                   (run [0; 0; 3; 3] (init forget_quit_scenario)))) = 2.
Proof. repeat split; vm_compute; reflexivity. Qed.

(** ** A leader that completes after its key was forgotten and re-registered *)

(** As [forget_scenario], but thread 3 is a late caller, not a follower. *)
Definition race_scenario : list (op arg Z string) :=
  forget_pool "fixed_key"
    (OpCall (Some "fixed_key") tracked (Int 20))
    (OpCall (Some "fixed_key") tracked (Int 30))
    [ OpCall (Some "fixed_key") tracked (Int 40) ].

(** Thread 0 has done its work and stands before its completion block; the
    key was forgotten meanwhile and thread 2 has registered a call of its
    own under it. *)
Definition race_world : world arg Z string :=
  run [0; 0; 1; 2; 2; 0] (init race_scenario).

(** C5 (completion).  The completion block of thread 0 pops the key: it
    removes the entry of thread 2's call, which is not its own, and thread
    3 then becomes a leader while thread 2 is still in flight on the same
    key, so that two work functions run for one key at once.  The event of
    thread 0's call is set once. *)
Lemma completion_removes_newer_entry :
  at_pc race_world 0 (OpCall (Some "fixed_key") tracked (Int 20))
    (AtFinally "fixed_key" 0) ∧
  in_flight (self race_world) !! "fixed_key" = Some 2 ∧
  in_flight (self (step example_generate_key 0 race_world)) !! "fixed_key"
  = None ∧
  map t_pc (threads (run [3; 3] (step example_generate_key 0 race_world)))
  = [ AtSet 0; Done NoValue; AtWork "fixed_key" 2; AtWork "fixed_key" 3 ] ∧
  signals_of 0 (trace (step example_generate_key 0 race_world)) = 0 ∧
  signals_of 0 (trace (run [2; 2; 3] (run [0; 0] race_world))) = 1.
Proof. repeat split; vm_compute; reflexivity. Qed.

(** ** The in-flight counter *)

Definition call_then_forget : list (op arg Z string) :=
  [ OpCall (Some "k") heavy (Int 21); OpForget "k" ].

Definition call_then_reset : list (op arg Z string) :=
  [ OpCall (Some "k") heavy (Int 21); OpResetStats ].

(** After a [forget] in mid-flight the counter is 1 and the registry is
    empty; after a [reset_stats] in mid-flight the counter ends negative. *)
Lemma in_flight_differs_from_registry :
  Stats.in_flight (get_stats (self (run [0; 0; 1] (init call_then_forget))))
  = 1%Z ∧
  size (in_flight (self (run [0; 0; 1] (init call_then_forget)))) = 0 ∧
  Stats.in_flight
    (get_stats (self (run [0; 0; 1; 0; 0] (init call_then_reset)))) = (-1)%Z.
Proof. repeat split; vm_compute; reflexivity. Qed.

Definition two_keys : list (op arg Z string) :=
  [ OpCall (Some "a") heavy (Int 1); OpCall (Some "b") heavy (Int 2);
    OpGetStats ].

Lemma in_flight_counts_registry_witness :
  Stats.in_flight (get_stats (self (run [0; 0; 1; 1; 2] (init two_keys))))
  = Z.of_nat (size (in_flight (self (run [0; 0; 1; 1; 2] (init two_keys))))) ∧
  Z.le 0%Z
    (Stats.in_flight
       (get_stats (self (run [0; 0; 1; 1; 2] (init two_keys))))).
Proof.
  destruct (in_flight_counts_registry example_generate_key two_keys
              (run [0; 0; 1; 1; 2] (init two_keys)))
    as (_ & Hpos & Hsize); [check_world|by exists [0; 0; 1; 1; 2]|].
  split; [|exact Hpos]. apply Hsize. check_world.
Defined.

(** ** Registration after resolution *)

Definition two_callers : list (op arg Z string) :=
  [ OpCall None heavy (Int 21); OpCall None heavy (Int 21) ].

(** Thread 0 has resolved and returned; thread 1 arrives only now. *)
Lemma no_attach_after_resolution_witness :
  at_pc (step example_generate_key 1
           (run [0; 0; 0; 0; 0; 0; 0; 1] (init two_callers))) 1
    (OpCall None heavy (Int 21)) (AtWork "tests.test_sync.heavy:(21,)" 1) ∧
  call_count (run [1; 1] (run [0; 0; 0; 0; 0; 0; 0; 1] (init two_callers)))
  = S (call_count (run [0; 0; 0; 0; 0; 0; 0; 1] (init two_callers))).
Proof.
  destruct (no_attach_after_resolution example_generate_key two_callers
              (run [0; 0; 0; 0; 0; 0; 0; 1] (init two_callers)))
    as [Hreg _]; [by exists [0; 0; 0; 0; 0; 0; 0; 1]|].
  specialize (Hreg 1 None heavy (Int 21) "tests.test_sync.heavy:(21,)").
  assert (in_flight (self (run [0; 0; 0; 0; 0; 0; 0; 1] (init two_callers)))
            !! "tests.test_sync.heavy:(21,)" = None) as Hfree
    by (vm_compute; reflexivity).
  rewrite Hfree in Hreg. apply Hreg. vm_compute; reflexivity.
Defined.

(** ** Reset in mid-flight *)





(** A reset between the read and the write of line 52: the leader writes
    into the [Stats] object it loaded, which [reset_stats] has replaced,
    and [errors] of the new one stays 0. *)
Definition fail_then_reset : list (op arg Z string) :=
  [ OpCall (Some "k") flaky (Int 7); OpResetStats ].

Lemma errors_written_to_replaced_stats :
  map t_pc (threads (run [0; 0; 0; 1] (init fail_then_reset)))
  = [ AtErrInc "k" 0 None 0%Z; Done NoValue ] ∧
  get_stats (self (run [0; 0; 0; 1; 0; 0; 0; 0; 0] (init fail_then_reset)))
  = {| Stats.hits := 0; Stats.misses := 0;
       Stats.errors := 0; Stats.in_flight := -1 |} ∧
  get_stats (self (run [0; 0; 0; 0; 1; 0; 0; 0; 0] (init fail_then_reset)))
  = {| Stats.hits := 0; Stats.misses := 0;
       Stats.errors := 0; Stats.in_flight := -1 |} ∧
  get_stats (self (run [0; 0; 0; 0; 0; 0; 0; 0; 1] (init fail_then_reset)))
  = Stats.new ∧
  get_stats (self (run [0; 0; 0; 0; 0; 0; 0; 0] (init fail_then_reset)))
  = {| Stats.hits := 0; Stats.misses := 1;
       Stats.errors := 1; Stats.in_flight := 0 |}.
Proof. repeat split; vm_compute; reflexivity. Qed.

(** * Scenarios for the further properties *)

(** A leader that fails with a follower, a call on its own key, a call
    whose key derivation raises, a [forget] and a [get_stats]. *)
Definition busy_traffic : list (op arg Z string) :=
  [ OpCall (Some "job") flaky (Int 7);
    OpCall (Some "job") flaky (Int 7);
    OpCall None heavy (Int 21);
    OpCall None heavy Handle;
    OpForget "job";
    OpGetStats ].

(** Everybody has started; the key of the failing leader is forgotten. *)
Definition busy_register : list nat := [0; 0; 1; 1; 4; 2; 2; 3].

Definition busy_finish : list nat :=
  [0; 0; 0; 0; 0; 0; 1; 1; 2; 2; 2; 2; 2; 5].

(** The same, and then everybody runs to the end. *)
Definition busy_all : list nat :=
  [0; 0; 1; 1; 4; 2; 2; 3; 0; 0; 0; 0; 0; 0; 1; 1; 2; 2; 2; 2; 2; 5].

Definition busy_midway : world arg Z string :=
  run busy_register (init busy_traffic).

Definition busy_end : world arg Z string := run busy_all (init busy_traffic).

Lemma every_invocation_returns_witness :
  todo (threads busy_midway) <= 8 * 6 ∧
  ∃ sched, length sched <= todo (threads busy_midway) ∧
           all_returned (run sched busy_midway).
Proof.
  destruct (every_invocation_returns example_generate_key busy_traffic
              busy_midway) as (_ & _ & Hbound & Hsched);
    [by exists busy_register|].
  split; [exact Hbound|exact Hsched].
Defined.

(** The follower of the failing leader raises the leader's exception; the
    leader ran its work function, the follower did not. *)
Lemma outcome_of_one_execution_witness :
  ∃ key' fn' args',
    busy_traffic !! 0 = Some (OpCall key' fn' args') ∧
    Raised 0 "boom" = unwrap (stored 0 (fn_body fn' args')) ∧
    works_of 0 (trace busy_end) = 1 ∧
    works_of 1 (trace busy_end) = 0.
Proof.
  destruct (outcome_of_one_execution example_generate_key busy_traffic
              busy_end 1 (Some "job") flaky (Int 7) 0 false (Raised 0 "boom"))
    as (key' & fn' & args' & k & Hop & _ & _ & Hout & _ & Hwork & _ & _ & Hmine);
    [by exists busy_all|vm_compute; reflexivity|].
  exists key', fn', args'. split; [exact Hop|]. split; [exact Hout|].
  split; [exact Hwork|exact Hmine].
Defined.

(** The call of [heavy(21)] is alone on its key. *)
Lemma lone_key_always_leads_witness :
  works_of 2 (trace busy_end) = 1.
Proof.
  destruct (lone_key_always_leads example_generate_key busy_traffic busy_end
              2 None heavy (Int 21) (CallDone 2 true (Returned 42%Z))
              "tests.test_sync.heavy:(21,)") as (_ & _ & Hret).
  - by exists busy_all.
  - vm_compute; reflexivity.
  - vm_compute; reflexivity.
  - intros t' o' Ho Hk.
    destruct t' as [|[|[|[|[|[|t']]]]]]; simpl in Ho; simplify_eq;
      vm_compute in Hk; try discriminate; reflexivity.
  - exact (proj2 (Hret eq_refl)).
Defined.

(** Three leaders on three keys, whose work functions all raise. *)
Definition three_failures : list (op arg Z string) :=
  [ OpCall (Some "a") flaky (Int 1); OpCall (Some "b") flaky (Int 2);
    OpCall (Some "c") flaky (Int 3) ].

(** Thread 0 has read [errors = 0] in line 52 and not yet written;
    meanwhile threads 1 and 2 have counted their failures. *)
Definition stale_read : list nat := [0; 0; 0; 1; 1; 1; 1; 2; 2; 2; 2].

(** Thread 0 writes, and all run to the end. *)
Definition stale_write : list nat :=
  [0; 0; 0; 0; 0; 1; 1; 1; 1; 2; 2; 2; 2].

(** Three executions have failed, and [errors] is 1. *)
Lemma stats_at_rest_witness :
  Stats.misses (get_stats (self (run (stale_read ++ stale_write)
                                   (init three_failures)))) = 3%Z ∧
  count leader_failed
    (threads (run (stale_read ++ stale_write) (init three_failures))) = 3 ∧
  Stats.errors (get_stats (self (run (stale_read ++ stale_write)
                                   (init three_failures)))) = 1%Z ∧
  Z.le 1 (Stats.errors (get_stats (self (run (stale_read ++ stale_write)
                                           (init three_failures))))) ∧
  Stats.in_flight (get_stats (self (run (stale_read ++ stale_write)
                                      (init three_failures)))) = 0%Z.
Proof.
  destruct (stats_at_rest example_generate_key three_failures
              (stale_read ++ stale_write))
    as (Hmiss & _ & _ & _ & Hone & Hzero); [check_world|check_world|].
  split; [vm_compute; reflexivity|]. split; [vm_compute; reflexivity|].
  split; [vm_compute; reflexivity|].
  split; [apply Hone; vm_compute; lia|exact Hzero].
Defined.

(** Midway the forgotten leader still counts as in flight: two leaders,
    one entry. *)
Lemma stats_bounds_witness :
  Z.le (Z.of_nat (size (in_flight (self busy_midway))))
    (Stats.in_flight (get_stats (self busy_midway))) ∧
  size (in_flight (self busy_midway)) = 1 ∧
  Stats.in_flight (get_stats (self busy_midway)) = 2%Z.
Proof.
  destruct (stats_bounds example_generate_key busy_traffic busy_register)
    as (_ & _ & _ & _ & _ & _ & Hsize); [check_world|].
  split; [exact Hsize|]. split; vm_compute; reflexivity.
Defined.

(** ** A decorated function *)

(** [key_fn=lambda x: "fixed_key"] of
    [test_sync_forget_prevents_coalescing]. *)
Definition fixed_key_fn (a : arg) : completion string string :=
  Returns "fixed_key".

(** [tracked(10)], [tracked(20)] and [tracked(30)] at once; [tracked(20)]
    registers first. *)
Definition tracked_args : list arg := [Int 10; Int 20; Int 30].

Lemma group_coalesces_by_key_fn_witness :
  map t_pc
    (threads
       (run [1; 1; 1; 1; 1; 0; 0; 2; 2]
          (run [1; 1; 0; 0; 2; 2]
             (init (invocations (Some fixed_key_fn) tracked tracked_args)))))
  = [ CallDone 1 false (Returned 20%Z); CallDone 1 true (Returned 20%Z);
      CallDone 1 false (Returned 20%Z) ] ∧
  call_count
    (run [1; 1; 1; 1; 1; 0; 0; 2; 2]
       (run [1; 1; 0; 0; 2; 2]
          (init (invocations (Some fixed_key_fn) tracked tracked_args)))) = 1.
Proof.
  split; [vm_compute; reflexivity|].
  destruct (group_coalesces_by_key_fn example_generate_key fixed_key_fn tracked
              tracked_args "fixed_key" [1; 1; 0; 0; 2; 2]
              [1; 1; 1; 1; 1; 0; 0; 2; 2])
    as (t0 & args0 & _ & _ & _ & Hone);
    [done|done|done|check_world|check_world|exact Hone].
Defined.

(** ** Two functions of one name *)

(** Two nested functions, both named [fetch_impl], in one module. *)
Definition fetch_user : Fn arg Z string :=
  MkFn "app.client" "fetch_impl"
    (fun a =>
       match a with
       | Int user_id => Returns (user_id * 100)%Z
       | Handle => Raises "TypeError: unsupported operand"
       end).

Definition fetch_post : Fn arg Z string :=
  MkFn "app.client" "fetch_impl"
    (fun a =>
       match a with
       | Int post_id => Returns (post_id * 10)%Z
       | Handle => Raises "TypeError: unsupported operand"
       end).

(** The caller of [fetch_post(7)] gets what [fetch_user(7)] returned. *)
Lemma same_name_functions_coalesce_witness :
  map t_pc
    (threads
       (run [0; 0; 0; 0; 0; 1; 1]
          (run [0; 0; 1; 1]
             (init [ OpCall None fetch_user (Int 7);
                     OpCall None fetch_post (Int 7) ]))))
  = [ CallDone 0 true (Returned 700%Z); CallDone 0 false (Returned 700%Z) ] ∧
  call_count
    (run [0; 0; 0; 0; 0; 1; 1]
       (run [0; 0; 1; 1]
          (init [ OpCall None fetch_user (Int 7);
                  OpCall None fetch_post (Int 7) ]))) = 1.
Proof.
  split; [vm_compute; reflexivity|].
  destruct (same_name_functions_coalesce example_generate_key
              fetch_user fetch_post (Int 7) (Int 7) "(7,)"
              [0; 0; 1; 1] [0; 0; 0; 0; 0; 1; 1])
    as (t0 & fn0 & args0 & _ & _ & _ & Hone);
    [done|done|done|done|check_world|check_world|exact Hone].
Defined.

(** [hits] and [misses] only grow; [errors] goes from 2 to 1 when thread
    0 writes the count it read before the others wrote theirs. *)
Lemma counters_only_grow_witness :
  counters_le (get_stats (self (run stale_read (init three_failures))))
    (get_stats (self (run [0] (run stale_read (init three_failures))))) ∧
  Stats.errors (get_stats (self (run stale_read (init three_failures))))
  = 2%Z ∧
  Stats.errors
    (get_stats (self (run [0] (run stale_read (init three_failures))))) = 1%Z.
Proof.
  split.
  - apply (counters_only_grow example_generate_key three_failures stale_read
             [0]).
    check_world.
  - split; vm_compute; reflexivity.
Defined.

(** ** Cooperative tasks *)

(** Six tasks call [heavy(21)]: each gets one turn, then the work function
    of the leader ends and the followers are woken. *)
Lemma six_tasks_coalesce :
  map t_pc (threads (coop example_generate_key [0; 1; 2; 3; 4; 5]
                       (init six_callers)))
  = [ AtWork "tests.test_sync.heavy:(21,)" 0; AtWait 0 false; AtWait 0 false;
      AtWait 0 false; AtWait 0 false; AtWait 0 false ] ∧
  get_stats (self (coop example_generate_key
                     [0; 1; 2; 3; 4; 5; 0; 1; 2; 3; 4; 5] (init six_callers)))
  = {| Stats.hits := 5; Stats.misses := 1;
       Stats.errors := 0; Stats.in_flight := 0 |}.
Proof. split; vm_compute; reflexivity. Qed.

(** ** Round-robin *)

Lemma fair_schedules_return_witness :
  all_returned (run (concat (replicate 22 [0; 1; 2; 3; 4; 5])) busy_midway).
Proof.
  apply (fair_schedules_return example_generate_key busy_traffic busy_midway
           (replicate 22 [0; 1; 2; 3; 4; 5])).
  - by exists busy_register.
  - apply Forall_replicate. intros t Ht.
    destruct t as [|[|[|[|[|[|t]]]]]]; [set_solver..|simpl in Ht; lia].
  - vm_compute. lia.
Defined.
